(** * go-openapispec-generator: analyzer and generator, verified

    A shallow embedding of the Go packages [internal/analyzer] and
    [internal/generator] and of the properties their specification states.

    Conventions of the embedding.
    - Go strings are [string] (sequences of bytes).  The helpers of Go's
      [strings] and [regexp] packages are written out byte-wise; they agree
      with Go on ASCII text, which is what identifiers, paths and schema names
      are made of.
    - A Go [map] is a [gmap]; a [nil] map or slice is the empty one (the code
      only ranges over them or tests membership, which cannot tell them apart).
    - Go leaves the iteration order of [range] over a map unspecified.  Wherever
      the result of a loop can depend on that order, the loop runs over the
      keys in the order chosen by a [MapOrder], the run-time's choice for this
      execution; loops that apply a pure function to every entry are [fmap]s.
    - A pointer that is only ever [nil] or owned by one holder is an [option]. *)

From stdpp Require Import gmap strings list fin_maps sorting.
From Stdlib Require Import Ascii String.

Set Warnings "-register-all,-clear-no-such-hyp".
Local Open Scope string_scope.
Local Open Scope list_scope.

(** ** Go's [strings] package (the functions the repository calls) *)

Module strings.

Definition isUpper (c : ascii) : bool :=
  let n := nat_of_ascii c in ((65 <=? n) && (n <=? 90))%nat.
Definition isLower (c : ascii) : bool :=
  let n := nat_of_ascii c in ((97 <=? n) && (n <=? 122))%nat.
Definition isDigit (c : ascii) : bool :=
  let n := nat_of_ascii c in ((48 <=? n) && (n <=? 57))%nat.
Definition isLetter (c : ascii) : bool := isUpper c || isLower c.

Definition lowerByte (c : ascii) : ascii :=
  if isUpper c then ascii_of_nat (nat_of_ascii c + 32) else c.
Definition upperByte (c : ascii) : ascii :=
  if isLower c then ascii_of_nat (nat_of_ascii c - 32) else c.

Fixpoint ToLower (s : string) : string :=
  match s with
  | EmptyString => EmptyString
  | String c s' => String (lowerByte c) (ToLower s')
  end.

Fixpoint HasPrefix (s p : string) {struct p} : bool :=
  match p with
  | EmptyString => true
  | String a p' =>
      match s with
      | EmptyString => false
      | String b s' => Ascii.eqb a b && HasPrefix s' p'
      end
  end.

Fixpoint drop (n : nat) (s : string) : string :=
  match n, s with
  | S k, String _ s' => drop k s'
  | _, _ => s
  end.

Fixpoint take (n : nat) (s : string) : string :=
  match n, s with
  | S k, String c s' => String c (take k s')
  | _, _ => EmptyString
  end.

Definition TrimPrefix (s p : string) : string :=
  if HasPrefix s p then drop (String.length p) s else s.

Definition HasSuffix (s p : string) : bool :=
  (String.length p <=? String.length s)%nat &&
  String.eqb (drop (String.length s - String.length p) s) p.

Fixpoint Contains (s sub : string) : bool :=
  HasPrefix s sub ||
  match s with
  | EmptyString => false
  | String _ s' => Contains s' sub
  end.

(** [strings.Index]; Go's [-1] is [None]. *)
Fixpoint Index (s sub : string) : option nat :=
  if HasPrefix s sub then Some 0
  else match s with
       | EmptyString => None
       | String _ s' => S <$> Index s' sub
       end.

Fixpoint IndexByte (s : string) (c : ascii) : option nat :=
  match s with
  | EmptyString => None
  | String a s' => if Ascii.eqb a c then Some 0 else S <$> IndexByte s' c
  end.

(** [strings.LastIndex] with a one-byte needle. *)
Fixpoint LastIndexByte (s : string) (c : ascii) : option nat :=
  match s with
  | EmptyString => None
  | String a s' =>
      match LastIndexByte s' c with
      | Some i => Some (S i)
      | None => if Ascii.eqb a c then Some 0 else None
      end
  end.

(** [strings.ReplaceAll] with a one-byte [old]. *)
Fixpoint ReplaceAll (s : string) (old : ascii) (new : string) : string :=
  match s with
  | EmptyString => EmptyString
  | String a s' =>
      if Ascii.eqb a old then new +:+ ReplaceAll s' old new
      else String a (ReplaceAll s' old new)
  end.

(** [strings.Split] with a one-byte separator: never returns the empty list. *)
Fixpoint Split (s : string) (sep : ascii) : list string :=
  match s with
  | EmptyString => [EmptyString]
  | String a s' =>
      if Ascii.eqb a sep then EmptyString :: Split s' sep
      else match Split s' sep with
           | h :: t => String a h :: t
           | [] => [String a EmptyString]
           end
  end.

Definition EqualFold (a b : string) : bool := String.eqb (ToLower a) (ToLower b).

Definition isSpace (c : ascii) : bool :=
  let n := nat_of_ascii c in ((n =? 32) || ((9 <=? n) && (n <=? 13)))%nat.

Fixpoint trimLeft (s : string) : string :=
  match s with
  | String c s' => if isSpace c then trimLeft s' else s
  | EmptyString => EmptyString
  end.

Fixpoint trimRight (s : string) : string :=
  match s with
  | EmptyString => EmptyString
  | String c s' =>
      match trimRight s' with
      | EmptyString => if isSpace c then EmptyString else String c EmptyString
      | r => String c r
      end
  end.

Definition TrimSpace (s : string) : string := trimRight (trimLeft s).

(** [strings.Title]: the first letter of every word in upper case; a word
    starts after any byte that is not a letter, a digit or an underscore. *)
Definition isSeparator (c : ascii) : bool :=
  negb (isLetter c || isDigit c || Ascii.eqb c "_").

Fixpoint titleFrom (prev : ascii) (s : string) : string :=
  match s with
  | EmptyString => EmptyString
  | String c s' =>
      String (if isSeparator prev then upperByte c else c) (titleFrom c s')
  end.

Definition Title (s : string) : string := titleFrom " " s.

(** [fmt.Sprintf] with a format holding one [%s] verb and one argument. *)
Fixpoint Sprintf1 (format arg : string) : string :=
  match format with
  | String "%" (String "s" rest) => arg +:+ rest
  | String c rest => String c (Sprintf1 rest arg)
  | EmptyString => EmptyString
  end.

End strings.

(** ** The part of [go/ast] and of the file system the declaration scanner reads *)

Module ast.

(** Type expressions; a field of a struct type carries its names (none for an
    embedded field), its type, the raw tag literal and its doc comment. *)
Inductive Expr :=
| Ident (name : string)
| SelectorExpr (x : Expr) (sel : string)
| StarExpr (x : Expr)
| ArrayType (elt : Expr)
| MapType (key value : Expr)
| InterfaceType
| BasicLit (value : string)
| StructType (fields : list Field)
| OtherExpr
with Field :=
| mkField (Names : list string) (Type_ : Expr) (Tag : option string)
          (Doc : option string).

Definition Names (f : Field) := let '(mkField n _ _ _) := f in n.
Definition Type_ (f : Field) := let '(mkField _ t _ _) := f in t.
Definition Tag (f : Field) := let '(mkField _ _ t _) := f in t.
Definition Doc (f : Field) := let '(mkField _ _ _ d) := f in d.

Inductive Token := TYPE | VAR | CONST | IMPORT.

Inductive Spec :=
| TypeSpec (Name : string) (Type_ : Expr)
| OtherSpec.

Record GenDecl := mkGenDecl {
  Tok : Token;
  DeclDoc : option string;
  Specs : list Spec
}.

(** [ast.Ident.IsExported]: the name starts with an upper-case letter. *)
Definition IsExported (name : string) : bool :=
  match name with
  | String c _ => strings.isUpper c
  | EmptyString => false
  end.

End ast.

Inductive error :=
| ErrNotExist (path : string)
| ErrIsDir (path : string)
| ErrSyntax (path : string)
| Errorf (msg : string) (wrapped : error).

(** What [parser.ParseFile] makes of a file: a syntax error, or the
    [*ast.GenDecl] nodes of the file in the order [ast.Inspect] visits them. *)
Inductive Source :=
| Unparsable
| Parsed (decls : list ast.GenDecl).

(** A file-system node; the entries of a directory are listed in the lexical
    order in which [filepath.Walk] visits them. *)
Inductive FsNode :=
| FsFile (src : Source)
| FsDir (entries : list (string * FsNode)).

(** ** Package [analyzer] *)

Module analyzer.
Import strings.

Inductive Value := VString (s : string) | VInt (z : Z) | VBool (b : bool).

Module Field.
Record t := mk {
  Name : string;
  Type_ : string;
  JSONTag : string;
  OriginalType : string;
  Required : bool;
  Description : string;
  Example : option Value
}.
End Field.

Module Model.
Record t := mk {
  Name : string;
  Package : string;
  Fields : list Field.t;
  Description : string
}.
End Model.

Module Param.
Record t := mk {
  Name : string;
  In : string;
  Required : bool;
  Type_ : string;
  Example : string;
  Description : string;
  Default : option Value;
  Enum : list string
}.
End Param.

Module Route.
Record t := mk {
  Path : string;
  Method : string;
  Handler : string;
  Middleware : list string;
  RequestBody : option Model.t;
  Response : option Model.t;
  Parameters : list Param.t;
  Tags : list string
}.
End Route.

Record Analysis := mkAnalysis {
  Routes : list Route.t;
  Models : gmap string Model.t
}.

Record Analyzer := mkAnalyzer {
  projectPath : string;
  sdkPackage : string;
  routesPattern : string
}.

Definition isHTTPMethod (method : string) : bool :=
  existsb (String.eqb method)
    ["GET"; "POST"; "PUT"; "DELETE"; "PATCH"; "HEAD"; "OPTIONS"].

(** [toSnakeCase] of extract.go: an underscore before every upper-case
    letter that is not the first byte, then lower case. *)
Fixpoint snakeLoop (first : bool) (s : string) : string :=
  match s with
  | EmptyString => EmptyString
  | String r s' =>
      if negb first && isUpper r
      then String "_" (String r (snakeLoop false s'))
      else String r (snakeLoop false s')
  end.

Definition toSnakeCase (str : string) : string :=
  if Contains str "_" && String.eqb (ToLower str) str then str
  else ToLower (snakeLoop true str).

(** [cleanTypeName]: drop every asterisk, keep what follows the last dot. *)
Definition cleanTypeName (typeName : string) : string :=
  let cleaned := ReplaceAll typeName "*" EmptyString in
  match LastIndexByte cleaned "." with
  | Some idx => drop (S idx) cleaned
  | None => cleaned
  end.

(** The prefix table of [inferResponseTypeFromMethodName], in source order. *)
Definition prefixMappings : list (string * string) :=
  [ ("Get", "%sResponse"); ("Fetch", "%sResponse"); ("List", "%sListResponse");
    ("Search", "Search%sResponse"); ("Find", "%sResponse");
    ("Create", "%sResponse"); ("Update", "%sResponse");
    ("Delete", "%sResponse"); ("Save", "%sResponse"); ("Parse", "%sResponse");
    ("Process", "%sResponse"); ("Generate", "%sResponse");
    ("Calculate", "%sResponse"); ("Validate", "%sValidationResponse");
    ("Check", "%sCheckResponse") ].

Fixpoint inferLoop (mappings : list (string * string)) (methodName : string)
  : option string :=
  match mappings with
  | [] => None
  | (prefix, format) :: rest =>
      if HasPrefix methodName prefix then
        let entityName := TrimPrefix methodName prefix in
        if negb (String.eqb entityName EmptyString) then Some (Sprintf1 format entityName)
        else inferLoop rest methodName
      else inferLoop rest methodName
  end.

Definition inferResponseTypeFromMethodName (methodName : string) : string :=
  match inferLoop prefixMappings methodName with
  | Some r => r
  | None => methodName +:+ "Response"
  end.

(** [extractJSONTag]: the first submatch of the pattern that reads the json
    key of a struct tag up to its closing quote, or the empty string.  The
    first occurrence of the key decides: if no quote closes it, none closes a
    later one either. *)
Definition quote : ascii := ascii_of_nat 34.
Definition jsonKey : string := "json:" +:+ String quote EmptyString.

Definition extractJSONTag (tag : string) : string :=
  match Index tag jsonKey with
  | Some i =>
      let rest := drop (i + String.length jsonKey) tag in
      match IndexByte rest quote with
      | Some j => take j rest
      | None => EmptyString
      end
  | None => EmptyString
  end.

Fixpoint getTypeStringWithArrays (expr : ast.Expr) : string :=
  match expr with
  | ast.Ident name => name
  | ast.SelectorExpr x sel =>
      let pkg := getTypeStringWithArrays x in
      if String.eqb pkg "time" && String.eqb sel "Time" then "time.Time"
      else if String.eqb pkg "sdk" then sel
      else pkg +:+ "." +:+ sel
  | ast.StarExpr x => "*" +:+ getTypeStringWithArrays x
  | ast.ArrayType elt => "[]" +:+ getTypeStringWithArrays elt
  | ast.MapType key value =>
      "map[" +:+ getTypeStringWithArrays key +:+ "]" +:+
      getTypeStringWithArrays value
  | ast.InterfaceType => "interface{}"
  | ast.BasicLit value => value
  | _ => "interface{}"
  end.

Definition docText (doc : option string) : string :=
  match doc with
  | Some text => TrimSpace text
  | None => EmptyString
  end.

(** The two branches of the loop of [parseStruct] over the fields of the
    struct: an embedded field, and one name of a named field (private names
    are skipped). *)
Definition embeddedField (field : ast.Field) : Field.t :=
  let fieldType := getTypeStringWithArrays (ast.Type_ field) in
  let modelField :=
    Field.mk fieldType fieldType EmptyString fieldType false EmptyString None in
  match ast.Tag field with
  | Some tag =>
      let jsonTag := extractJSONTag tag in
      if negb (String.eqb jsonTag EmptyString)
      then Field.mk fieldType fieldType jsonTag fieldType
             (negb (Contains jsonTag "omitempty")) EmptyString None
      else modelField
  | None => modelField
  end.

Definition namedField (field : ast.Field) (fieldName : string)
  : option Field.t :=
  if negb (ast.IsExported fieldName) then None
  else
    let fieldType := getTypeStringWithArrays (ast.Type_ field) in
    let description := docText (ast.Doc field) in
    Some match ast.Tag field with
         | Some tag =>
             let jsonTag := extractJSONTag tag in
             if negb (String.eqb jsonTag EmptyString)
             then Field.mk fieldName fieldType jsonTag fieldType
                    (if Contains jsonTag "omitempty" then false else true)
                    description None
             else Field.mk fieldName fieldType EmptyString fieldType false
                    description None
         | None =>
             Field.mk fieldName fieldType EmptyString fieldType true
               description None
         end.

Definition parseStructField (field : ast.Field) : list Field.t :=
  match ast.Names field with
  | [] => [embeddedField field]
  | names => omap (namedField field) names
  end.

Definition parseStruct (a : Analyzer) (name : string)
    (structFields : list ast.Field) (doc : option string) : Model.t :=
  Model.mk name (sdkPackage a) (flat_map parseStructField structFields)
    (docText doc).

(** The body of the [ast.Inspect] callback of [parseSDKFile] at one
    [*ast.GenDecl]: every struct type spec is parsed and stored under its
    cleaned name by a plain map assignment. *)
Definition parseTypeSpec (a : Analyzer) (doc : option string)
    (models : gmap string Model.t) (spec : ast.Spec) : gmap string Model.t :=
  match spec with
  | ast.TypeSpec name (ast.StructType fields) =>
      let model := parseStruct a name fields doc in
      let cleanName := cleanTypeName (Model.Name model) in
      let model := Model.mk cleanName (Model.Package model)
                     (Model.Fields model) (Model.Description model) in
      <[cleanName := model]> models
  | _ => models
  end.

Definition parseGenDecl (a : Analyzer) (models : gmap string Model.t)
    (node : ast.GenDecl) : gmap string Model.t :=
  match ast.Tok node with
  | ast.TYPE => foldl (parseTypeSpec a (ast.DeclDoc node)) models (ast.Specs node)
  | _ => models
  end.

(** [parseSDKFile]: [filePath] is read through [node], the node found there. *)
Definition parseSDKFile (a : Analyzer) (filePath : string) (node : FsNode)
    (analysis : Analysis) : error + Analysis :=
  match node with
  | FsDir _ => inl (ErrIsDir filePath)
  | FsFile Unparsable => inl (ErrSyntax filePath)
  | FsFile (Parsed decls) =>
      inr (mkAnalysis (Routes analysis)
             (foldl (parseGenDecl a) (Models analysis) decls))
  end.

(** The callback [parseSDKModels] hands to [filepath.Walk], called with a
    [nil] error on a node that exists. *)
Definition visitSDK (a : Analyzer) (path : string) (node : FsNode)
    (analysis : Analysis) : error + Analysis :=
  if negb (HasSuffix path ".go") || HasSuffix path "_test.go"
  then inr analysis
  else parseSDKFile a path node analysis.

(** [filepath.Walk] below a node that exists: the callback on the node, then
    on its entries in order; the first error stops the walk. *)
Fixpoint walk (a : Analyzer) (path : string) (node : FsNode)
    (analysis : Analysis) {struct node} : error + Analysis :=
  match visitSDK a path node analysis with
  | inl err => inl err
  | inr analysis =>
      match node with
      | FsFile _ => inr analysis
      | FsDir entries =>
          (fix walkEntries (entries : list (string * FsNode))
               (analysis : Analysis) : error + Analysis :=
             match entries with
             | [] => inr analysis
             | (name, child) :: rest =>
                 match walk a (path +:+ "/" +:+ name) child analysis with
                 | inl err => inl err
                 | inr analysis => walkEntries rest analysis
                 end
             end) entries analysis
      end
  end.

(** [parseSDKModels]: [filepath.Walk(sdkPath, fn)].  When [os.Lstat] fails on
    the root, [Walk] calls [fn(root, nil, err)]; the callback returns that
    error, which [Walk] returns. *)
Definition parseSDKModels (a : Analyzer) (lstat : string -> option FsNode)
    (analysis : Analysis) : error + Analysis :=
  let sdkPath := projectPath a +:+ "/" +:+ "sdk" in
  match lstat sdkPath with
  | None => inl (ErrNotExist sdkPath)
  | Some node => walk a sdkPath node analysis
  end.

(** [Analyze].  The route pass [parseRoutes] is a parameter: it reads the
    handler sources, which the declaration scanner never looks at. *)
Definition Analyze (a : Analyzer) (lstat : string -> option FsNode)
    (parseRoutes : Analysis -> error + Analysis) : error + Analysis :=
  let analysis := mkAnalysis [] ∅ in
  match parseSDKModels a lstat analysis with
  | inl err => inl (Errorf "failed to parse SDK models: " err)
  | inr analysis =>
      match parseRoutes analysis with
      | inl err => inl (Errorf "failed to parse routes: " err)
      | inr analysis => inr analysis
      end
  end.

(** *** extract.go and the tail of [parseRouteCall]: parameters *)

Fixpoint untilSlash (s : string) : string :=
  match s with
  | String c s' =>
      if Ascii.eqb c "/" then EmptyString else String c (untilSlash s')
  | EmptyString => EmptyString
  end.

(** [FindAllStringSubmatch] for the pattern of a colon and one or more bytes
    other than a slash: each match is the pair of the whole match and the
    bytes after the colon; [skip] counts the bytes of a match still to be
    passed over. *)
Fixpoint findColonParams (skip : nat) (s : string) : list (list string) :=
  match s with
  | EmptyString => []
  | String c s' =>
      match skip with
      | S k => findColonParams k s'
      | O =>
          let name := untilSlash s' in
          if Ascii.eqb c ":" && negb (String.eqb name EmptyString)
          then [":" +:+ name; name] :: findColonParams (String.length name) s'
          else findColonParams 0 s'
      end
  end.

Definition extractPathParameters (path : string) : list Param.t :=
  omap (fun matched =>
          match matched with
          | _ :: name :: _ =>
              Some (Param.mk name "path" true "string" EmptyString EmptyString
                      None [])
          | _ => None
          end)
       (findColonParams 0 path).

Module QueryParameter.
Record t := mk {
  Name : string;
  Type_ : string;
  Required : bool;
  Description : string;
  Default : option Value;
  Enum : list string
}.
End QueryParameter.

(** The end of [parseRouteCall]: the path parameters of the route, then the
    query parameters found in its handler, each turned into a parameter. *)
Definition asParameter (queryParam : QueryParameter.t) : Param.t :=
  Param.mk (QueryParameter.Name queryParam) "query"
    (QueryParameter.Required queryParam) (QueryParameter.Type_ queryParam)
    EmptyString (QueryParameter.Description queryParam)
    (QueryParameter.Default queryParam) (QueryParameter.Enum queryParam).


Definition mapFieldTypeToParamType (fieldType : string) : string :=
  let cleanType := TrimPrefix fieldType "*" in
  if HasPrefix cleanType "[]" then "array"
  else if existsb (String.eqb cleanType)
            ["int"; "int32"; "int64"; "uint"; "uint32"; "uint64"]
  then "integer"
  else if existsb (String.eqb cleanType) ["float32"; "float64"] then "number"
  else if String.eqb cleanType "bool" then "boolean"
  else "string".

(** The query parameter [extractQueryParametersFromType] makes of one field
    of a model. *)
Definition fieldQueryParameter (field : Field.t) : QueryParameter.t :=
  let paramName :=
    if negb (String.eqb (Field.JSONTag field) EmptyString) &&
       negb (String.eqb (Field.JSONTag field) "-")
    then let part0 := hd EmptyString (Split (Field.JSONTag field) ",") in
         if negb (String.eqb part0 EmptyString) then part0
         else Field.Name field
    else toSnakeCase (Field.Name field) in
  let type := mapFieldTypeToParamType (Field.Type_ field) in
  let description := Field.Description field in
  if String.eqb paramName "skip" || String.eqb paramName "offset"
  then QueryParameter.mk paramName type false description (Some (VInt 0)) []
  else if String.eqb paramName "limit"
  then QueryParameter.mk paramName type false description (Some (VInt 100)) []
  else if String.eqb paramName "sort_order"
  then QueryParameter.mk paramName type false description None ["asc"; "desc"]
  else QueryParameter.mk paramName type false description None [].

Definition conversationFilterParameters : list QueryParameter.t :=
  [ QueryParameter.mk "platform_id" "string" false "Platform ID filter" None [];
    QueryParameter.mk "platform" "string" false "Platform type filter" None [];
    QueryParameter.mk "tenant_id" "string" false "Tenant ID filter" None [];
    QueryParameter.mk "user_id" "string" false "User ID filter" None [];
    QueryParameter.mk "session_id" "string" false "Session ID filter" None [];
    QueryParameter.mk "created_on" "string" false "Creation date filter" None [];
    QueryParameter.mk "linked_workflow" "string" false "Linked workflow filter"
      None [];
    QueryParameter.mk "name" "string" false "Name filter" None [];
    QueryParameter.mk "skip" "integer" false "Number of items to skip"
      (Some (VInt 0)) [];
    QueryParameter.mk "limit" "integer" false "Number of items to return"
      (Some (VInt 100)) [] ].

(** [extractQueryParametersFromType]; [models] is the table the analyzer
    keeps for the route pass. *)
Definition extractQueryParametersFromType (models : gmap string Model.t)
    (typeName : string) : list QueryParameter.t :=
  let cleanType := cleanTypeName typeName in
  match models !! cleanType with
  | Some model => fieldQueryParameter <$> Model.Fields model
  | None =>
      if existsb (String.eqb cleanType)
           ["ConversationFilter"; "ConversationFilterRequest"]
      then conversationFilterParameters
      else []
  end.

(** *** analyzer.go: response types *)

Definition isResponseType (typeName : string) : bool :=
  let cleanType := cleanTypeName typeName in
  Contains cleanType "Response" || Contains cleanType "Result" ||
  Contains cleanType "Reply" || HasSuffix cleanType "Data" ||
  HasSuffix cleanType "Output".

End analyzer.

(** ** The run-time's choice of iteration order over maps *)

(** One execution's enumeration order: [order o keys] is the order in which a
    [range] visits a map whose keys, listed canonically, are [keys]. *)
Record MapOrder := mkMapOrder {
  order : list string -> list string;
  order_perm : forall keys, order keys ≡ₚ keys
}.

Definition rangeKeys (o : MapOrder) {A} (m : gmap string A) : list string :=
  order o (map_to_list m).*1.

Definition rangeSet (o : MapOrder) (s : gset string) : list string :=
  order o (elements s).

(** Two enumeration orders: the canonical one and its reverse. *)
Definition ascending : MapOrder :=
  mkMapOrder (fun keys => keys) (fun keys => reflexivity keys).
Definition descending : MapOrder :=
  mkMapOrder (fun keys => reverse keys) (fun keys => reverse_Permutation keys).

(** ** Package [generator] *)

Module generator.
Import strings.
Export analyzer(Value, VString, VInt, VBool).

Module Config.
Record t := mk {
  Title : string;
  Version : string;
  Description : string;
  ServerURL : string
}.
End Config.

(** [Schema.AdditionalProperties] is an [interface{}]: absent, a boolean or a
    pointer to a schema. *)
Inductive Additional (A : Type) :=
| NoAdditional
| AdditionalBool (b : bool)
| AdditionalSchema (s : A).
Arguments NoAdditional {A}.
Arguments AdditionalBool {A} b.
Arguments AdditionalSchema {A} s.

(** The fields [AllOf], [OneOf] and [AnyOf] of the Go struct are never
    assigned anywhere in the repository and are left out. *)
Module Schema.
Inductive t := mk {
  Type_ : string;
  Format : string;
  Properties : gmap string t;
  Items : option t;
  Required : list string;
  AdditionalProperties : Additional t;
  Ref : string;
  Example : option Value;
  Description : string;
  Enum : list Value;
  Default : option Value
}.

(** [Schema{}], and the composite literals the generator writes. *)
Definition zero : t :=
  mk EmptyString EmptyString ∅ None [] NoAdditional EmptyString None
     EmptyString [] None.
Definition ofType (type : string) : t :=
  mk type EmptyString ∅ None [] NoAdditional EmptyString None EmptyString []
     None.
Definition ofTypeFormat (type format : string) : t :=
  mk type format ∅ None [] NoAdditional EmptyString None EmptyString [] None.
Definition ofRef (ref : string) : t :=
  mk EmptyString EmptyString ∅ None [] NoAdditional ref None EmptyString []
     None.
Definition described (type description : string) : t :=
  mk type EmptyString ∅ None [] NoAdditional EmptyString None description []
     None.
End Schema.

Module Param.
Record t := mk {
  Name : string;
  In : string;
  Description : string;
  Required : bool;
  Schema_ : Schema.t;
  Example : option Value
}.
End Param.

Module MediaType.
Record t := mk { Schema_ : Schema.t }.
End MediaType.

Module RequestBody.
Record t := mk {
  Description : string;
  Content : gmap string MediaType.t;
  Required : bool
}.
End RequestBody.

Module Response.
Record t := mk {
  Description : string;
  Content : gmap string MediaType.t
}.
End Response.

Module Operation.
Record t := mk {
  Tags : list string;
  Summary : string;
  Description : string;
  OperationID : string;
  Parameters : list Param.t;
  RequestBody_ : option RequestBody.t;
  Responses : gmap string Response.t;
  Security : list (gmap string (list string))
}.
End Operation.

Module PathItem.
Record t := mk {
  Get : option Operation.t;
  Post : option Operation.t;
  Put : option Operation.t;
  Delete : option Operation.t;
  Patch : option Operation.t
}.
Definition zero : t := mk None None None None None.
End PathItem.

Module Tag.
Record t := mk { Name : string; Description : string }.
End Tag.

Module SecurityScheme.
Record t := mk {
  Type_ : string;
  Scheme : string;
  BearerFormat : string;
  Description : string
}.
End SecurityScheme.

Module Components.
Record t := mk {
  Schemas : gmap string Schema.t;
  SecuritySchemes : gmap string SecurityScheme.t
}.
End Components.

Module Info.
Record t := mk { Title : string; Description : string; Version : string }.
End Info.

Module Server.
Record t := mk { URL : string; Description : string }.
End Server.

Module OpenAPISpec.
Record t := mk {
  OpenAPI : string;
  Info_ : Info.t;
  Servers : list Server.t;
  Paths : gmap string PathItem.t;
  Components_ : Components.t;
  Tags : list Tag.t
}.
End OpenAPISpec.

Definition refPrefix : string := "#/components/schemas/".

(** *** convert.go *)

Fixpoint takeWhile (p : ascii -> bool) (s : string) : string :=
  match s with
  | String c s' => if p c then String c (takeWhile p s') else EmptyString
  | EmptyString => EmptyString
  end.

Definition isWordByte (c : ascii) : bool :=
  isLetter c || isDigit c || Ascii.eqb c "_".

Definition startsWithLetter (s : string) : bool :=
  match s with
  | String c _ => isLetter c
  | EmptyString => false
  end.

(** Replacing every match of a colon followed by a letter and then word bytes
    by the name in braces; [skip] counts the bytes of a match still to be
    passed over. *)
Fixpoint replaceColonParams (skip : nat) (s : string) : string :=
  match s with
  | EmptyString => EmptyString
  | String c s' =>
      match skip with
      | S k => replaceColonParams k s'
      | O =>
          if Ascii.eqb c ":" && startsWithLetter s'
          then let name := takeWhile isWordByte s' in
               "{" +:+ name +:+ "}" +:+
               replaceColonParams (String.length name) s'
          else String c (replaceColonParams 0 s')
      end
  end.

Definition convertPathFormat (path : string) : string :=
  let converted := replaceColonParams 0 path in
  if negb (HasPrefix converted "/") then "/" +:+ converted else converted.

(** The regular-expression replacement of [toSnakeCase]: an underscore between
    a lower-case letter or digit and the upper-case letter after it; matches
    are found left to right and a match consumes both bytes. *)
Fixpoint snakeRe (s : string) : string :=
  match s with
  | String a s' =>
      match s' with
      | String b rest =>
          if (isLower a || isDigit a) && isUpper b
          then String a (String "_" (String b (snakeRe rest)))
          else String a (snakeRe s')
      | EmptyString => s
      end
  | EmptyString => EmptyString
  end.

Definition toSnakeCase (str : string) : string :=
  if Contains str "_" && String.eqb (ToLower str) str then str
  else ToLower (snakeRe str).

(** *** utils.go *)

Definition cleanTypeName (typeName : string) : string :=
  let cleaned := ReplaceAll typeName "*" EmptyString in
  match LastIndexByte cleaned "." with
  | Some idx => drop (S idx) cleaned
  | None => cleaned
  end.

Definition builtinTypes : list string :=
  [ "string"; "int"; "int8"; "int16"; "int32"; "int64"; "uint"; "uint8";
    "uint16"; "uint32"; "uint64"; "float32"; "float64"; "bool"; "byte";
    "rune"; "interface{}"; "interface"; "any"; "time.Time"; "error"; "Time" ].

Definition isCustomType (typeName : string) : bool :=
  let cleanType := cleanTypeName typeName in
  if String.eqb cleanType EmptyString then false
  else if existsb (String.eqb cleanType) builtinTypes then false
  else match cleanType with
       | String c _ => isUpper c
       | EmptyString => false
       end.

Definition hasAuthMiddleware (middleware : list string) : bool :=
  existsb (fun mw => Contains (ToLower mw) "auth") middleware.

Fixpoint filterBytes (p : ascii -> bool) (s : string) : string :=
  match s with
  | String c s' =>
      if p c then String c (filterBytes p s') else filterBytes p s'
  | EmptyString => EmptyString
  end.

Definition cleanSchemaName (name : string) : string :=
  let cleaned := ReplaceAll name "*" EmptyString in
  let cleaned := match LastIndexByte cleaned "." with
                 | Some idx => drop (S idx) cleaned
                 | None => cleaned
                 end in
  let cleaned := filterBytes isWordByte cleaned in
  let cleaned := if negb (String.eqb cleaned EmptyString) &&
                    negb (startsWithLetter cleaned)
                 then "Schema" +:+ cleaned else cleaned in
  if String.eqb cleaned EmptyString then "UnknownSchema" else cleaned.

Definition cleanPropertyName (name : string) : string :=
  if String.eqb name EmptyString then "property" else toSnakeCase name.

Definition extractMapValueType (mapType : string) : string :=
  let mapType := TrimSpace (ReplaceAll mapType "*" EmptyString) in
  if negb (HasPrefix mapType "map[") then "interface{}"
  else match Index (drop 4 mapType) "]" with
       | None => "interface{}"
       | Some keyEnd =>
           let valueStart := 4 + keyEnd + 1 in
           if (String.length mapType <=? valueStart)%nat then "interface{}"
           else TrimSpace (drop valueStart mapType)
       end.

(** *** generator.go: schemas from models *)

(** [generateSchemaFromFieldType] calls itself on the element type of an
    array type, a strictly shorter string: [fuel] bounds the depth. *)
Fixpoint generateSchemaFromFieldTypeN (fuel : nat) (fieldType : string)
  : Schema.t :=
  let cleanType := cleanTypeName fieldType in
  if HasPrefix cleanType "[]" then
    match fuel with
    | S fuel' =>
        let elementType := TrimPrefix cleanType "[]" in
        let itemSchema := generateSchemaFromFieldTypeN fuel' elementType in
        Schema.mk "array" EmptyString ∅ (Some itemSchema) [] NoAdditional
          EmptyString None EmptyString [] None
    | O => Schema.ofType "array"
    end
  else if String.eqb cleanType "string" then Schema.ofType "string"
  else if existsb (String.eqb cleanType) ["int"; "int32"; "int8"; "int16"]
  then Schema.ofTypeFormat "integer" "int32"
  else if String.eqb cleanType "int64"
  then Schema.ofTypeFormat "integer" "int64"
  else if existsb (String.eqb cleanType) ["uint"; "uint32"; "uint8"; "uint16"]
  then Schema.ofTypeFormat "integer" "int32"
  else if String.eqb cleanType "uint64"
  then Schema.ofTypeFormat "integer" "int64"
  else if String.eqb cleanType "float32"
  then Schema.ofTypeFormat "number" "float"
  else if existsb (String.eqb cleanType) ["float64"; "float"]
  then Schema.ofTypeFormat "number" "double"
  else if existsb (String.eqb cleanType) ["bool"; "boolean"]
  then Schema.ofType "boolean"
  else if existsb (String.eqb cleanType) ["time.Time"; "Time"]
  then Schema.ofTypeFormat "string" "date-time"
  else if String.eqb cleanType "byte" then Schema.ofTypeFormat "string" "byte"
  else if String.eqb cleanType "rune"
  then Schema.ofTypeFormat "integer" "int32"
  else if isCustomType cleanType
  then Schema.ofRef (refPrefix +:+ cleanSchemaName cleanType)
  else Schema.ofType "object".

Definition generateSchemaFromFieldType (fieldType : string) : Schema.t :=
  generateSchemaFromFieldTypeN (String.length fieldType) fieldType.

Definition generateSchemaFromField (field : analyzer.Field.t) : Schema.t :=
  let description := analyzer.Field.Description field in
  let example := analyzer.Field.Example field in
  let typeToCheck :=
    if String.eqb (analyzer.Field.OriginalType field) EmptyString
    then analyzer.Field.Type_ field else analyzer.Field.OriginalType field in
  let cleanType := ReplaceAll typeToCheck "*" EmptyString in
  let plain (type format : string) :=
    Schema.mk type format ∅ None [] NoAdditional EmptyString example
      description [] None in
  if HasPrefix cleanType "[]" then
    let elementType := cleanTypeName (TrimPrefix cleanType "[]") in
    let items :=
      if isCustomType elementType
      then Schema.ofRef (refPrefix +:+ cleanSchemaName elementType)
      else generateSchemaFromFieldType elementType in
    Schema.mk "array" EmptyString ∅ (Some items) [] NoAdditional EmptyString
      example description [] None
  else if Contains cleanType "time.Time" || String.eqb cleanType "time.Time"
          || String.eqb cleanType "Time"
  then plain "string" "date-time"
  else if HasPrefix cleanType "map[" then
    let mapValueType := extractMapValueType cleanType in
    let additional :=
      if existsb (String.eqb mapValueType) ["interface{}"; "interface"; "any"]
      then AdditionalBool true
      else if isCustomType mapValueType
      then AdditionalSchema
             (Schema.ofRef (refPrefix +:+ cleanSchemaName mapValueType))
      else AdditionalSchema (generateSchemaFromFieldType mapValueType) in
    Schema.mk "object" EmptyString ∅ None [] additional EmptyString None
      description [] None
  else if existsb (String.eqb cleanType) ["interface{}"; "interface"]
  then Schema.mk "object" EmptyString ∅ None [] (AdditionalBool true)
         EmptyString None description [] None
  else if Contains cleanType "string" then plain "string" EmptyString
  else if Contains cleanType "int64" then plain "integer" "int64"
  else if Contains cleanType "int32" then plain "integer" "int32"
  else if Contains cleanType "int" then plain "integer" "int32"
  else if Contains cleanType "float64" then plain "number" "double"
  else if Contains cleanType "float32" then plain "number" "float"
  else if Contains cleanType "bool" then plain "boolean" EmptyString
  else
    let cleanRefType := cleanTypeName cleanType in
    if isCustomType cleanRefType
    then Schema.mk EmptyString EmptyString ∅ None [] NoAdditional
           (refPrefix +:+ cleanSchemaName cleanRefType) example description
           [] None
    else plain "object" EmptyString.

(** The name under which [generateSchemaFromModel] stores a field, or [None]
    for a field it skips. *)
Definition propertyName (field : analyzer.Field.t) : option string :=
  let jsonTag := analyzer.Field.JSONTag field in
  let fieldName := analyzer.Field.Name field in
  if negb (String.eqb jsonTag EmptyString) then
    let part0 := hd EmptyString (Split jsonTag ",") in
    let fieldName :=
      if negb (String.eqb part0 EmptyString) && negb (String.eqb part0 "-")
      then part0 else fieldName in
    if String.eqb jsonTag "-" then None else Some fieldName
  else Some (toSnakeCase fieldName).

(** One turn of the loop of [generateSchemaFromModel] over the fields. *)
Definition addField (schema : Schema.t) (field : analyzer.Field.t) : Schema.t :=
  let fieldSchema := generateSchemaFromField field in
  match propertyName field with
  | None => schema
  | Some fieldName =>
      Schema.mk (Schema.Type_ schema) (Schema.Format schema)
        (<[fieldName := fieldSchema]> (Schema.Properties schema))
        (Schema.Items schema)
        (if analyzer.Field.Required field
         then Schema.Required schema ++ [fieldName]
         else Schema.Required schema)
        (Schema.AdditionalProperties schema) (Schema.Ref schema)
        (Schema.Example schema) (Schema.Description schema)
        (Schema.Enum schema) (Schema.Default schema)
  end.

Definition generateSchemaFromModel (model : analyzer.Model.t) : Schema.t :=
  foldl addField
    (Schema.described "object" (analyzer.Model.Description model))
    (analyzer.Model.Fields model).

(** *** helper.go: operations *)

Definition generateParameterSchema (param : analyzer.Param.t) : Schema.t :=
  let type := analyzer.Param.Type_ param in
  if existsb (String.eqb type) ["integer"; "int"]
  then Schema.ofTypeFormat "integer" "int32"
  else if String.eqb type "int64" then Schema.ofTypeFormat "integer" "int64"
  else if existsb (String.eqb type) ["number"; "float"; "double"]
  then Schema.ofTypeFormat "number" "double"
  else if existsb (String.eqb type) ["boolean"; "bool"]
  then Schema.ofType "boolean"
  else if String.eqb type "array"
  then Schema.mk "array" EmptyString ∅ (Some (Schema.ofType "string")) []
         NoAdditional EmptyString None EmptyString [] None
  else Schema.ofType "string".

Definition generateOperationID (route : analyzer.Route.t) : string :=
  let method := ToLower (analyzer.Route.Method route) in
  let path := convertPathFormat (analyzer.Route.Path route) in
  let path := ReplaceAll path "/" "_" in
  let path := ReplaceAll path "{" EmptyString in
  let path := ReplaceAll path "}" EmptyString in
  let path := ReplaceAll path "-" "_" in
  let path := TrimPrefix path "_" in
  method +:+ "_" +:+ path.

Definition getActionFromMethod (method : string) : string :=
  if String.eqb method "GET" then "Get"
  else if String.eqb method "POST" then "Create"
  else if String.eqb method "PUT" then "Update"
  else if String.eqb method "DELETE" then "Delete"
  else if String.eqb method "PATCH" then "Patch"
  else method.

Definition getResourceFromPath (path : string) : string :=
  match
    find (fun part => negb (String.eqb part EmptyString) &&
                      negb (HasPrefix part ":") && negb (HasPrefix part "{"))
         (reverse (Split path "/"))
  with
  | Some part => Title part
  | None => "Resource"
  end.

Definition generateSummary (route : analyzer.Route.t) : string :=
  getActionFromMethod (analyzer.Route.Method route) +:+ " " +:+
  getResourceFromPath (analyzer.Route.Path route).

Definition generateDescription (route : analyzer.Route.t) : string :=
  analyzer.Route.Handler route +:+ " handler for " +:+
  ToLower (analyzer.Route.Method route) +:+ " " +:+ analyzer.Route.Path route.

Definition tagDescriptions : list (string * string) :=
  [ ("conversation", "Conversation management endpoints");
    ("tenant", "Tenant configuration endpoints");
    ("voice", "Voice management endpoints");
    ("aimodel", "AI model configuration endpoints");
    ("knowledgebase", "Knowledge base management endpoints");
    ("user", "User authentication endpoints");
    ("upload", "File upload endpoints");
    ("whatsapp", "WhatsApp integration endpoints");
    ("insights", "Analytics and insights endpoints");
    ("campaign", "Campaign management endpoints");
    ("contacts", "Contact management endpoints");
    ("event", "Event management endpoints");
    ("platformproviders", "Platform provider configuration endpoints");
    ("toolcall", "Tool call management endpoints");
    ("pipeline", "Pipeline management endpoints");
    ("documents", "Document management endpoints");
    ("twilio", "Twilio integration endpoints");
    ("me", "User profile endpoints");
    ("sockets", "WebSocket endpoints") ].

Definition generateTagDescription (tagName : string) : string :=
  match find (fun entry => String.eqb (fst entry) tagName) tagDescriptions with
  | Some entry => snd entry
  | None => Title tagName +:+ " related endpoints"
  end.

Definition refContent (name : string) : gmap string MediaType.t :=
  {[ "application/json" :=
       MediaType.mk (Schema.ofRef (refPrefix +:+ name)) ]}.

Definition operationParameter (param : analyzer.Param.t) : Param.t :=
  let schema := generateParameterSchema param in
  let schema :=
    Schema.mk (Schema.Type_ schema) (Schema.Format schema)
      (Schema.Properties schema) (Schema.Items schema)
      (Schema.Required schema) (Schema.AdditionalProperties schema)
      (Schema.Ref schema) (Schema.Example schema) (Schema.Description schema)
      (VString <$> analyzer.Param.Enum param)
      (analyzer.Param.Default param) in
  Param.mk (analyzer.Param.Name param) (analyzer.Param.In param)
    (analyzer.Param.Description param) (analyzer.Param.Required param) schema
    (if String.eqb (analyzer.Param.Example param) EmptyString then None
     else Some (VString (analyzer.Param.Example param))).

Definition generateOperation (route : analyzer.Route.t) : Operation.t :=
  let parameters := operationParameter <$> analyzer.Route.Parameters route in
  let requestBody :=
    match analyzer.Route.RequestBody route with
    | Some body =>
        let modelName := analyzer.Model.Name body in
        let modelName :=
          if Contains modelName "Request" || Contains modelName "Body"
          then modelName else cleanSchemaName modelName in
        Some (RequestBody.mk "Request body" (refContent modelName) true)
    | None => None
    end in
  let ok :=
    match analyzer.Route.Response route with
    | Some response =>
        Response.mk "Successful operation"
          (refContent (cleanSchemaName (analyzer.Model.Name response)))
    | None => Response.mk "Successful operation" ∅
    end in
  let responses :=
    <["500" := Response.mk "Internal server error"
                 (refContent "ErrorResponse")]>
      (<["400" := Response.mk "Bad request" (refContent "ErrorResponse")]>
         (<["200" := ok]> ∅)) in
  Operation.mk (analyzer.Route.Tags route) (generateSummary route)
    (generateDescription route) (generateOperationID route) parameters
    requestBody responses
    (if hasAuthMiddleware (analyzer.Route.Middleware route)
     then [ {[ "bearerAuth" := [] ]} ] else []).

(** *** updater.go *)

Definition updateReference (ref : string) (oldToNewNames : gmap string string)
  : string :=
  if String.eqb ref EmptyString then EmptyString
  else if negb (HasPrefix ref refPrefix) then ref
  else
    let oldName := TrimPrefix ref refPrefix in
    match oldToNewNames !! oldName with
    | Some newName => refPrefix +:+ newName
    | None => refPrefix +:+ cleanSchemaName oldName
    end.

Fixpoint updateSchemaReferences (oldToNewNames : gmap string string)
    (schema : Schema.t) : Schema.t :=
  Schema.mk (Schema.Type_ schema) (Schema.Format schema)
    (updateSchemaReferences oldToNewNames <$> Schema.Properties schema)
    (updateSchemaReferences oldToNewNames <$> Schema.Items schema)
    (Schema.Required schema)
    match Schema.AdditionalProperties schema with
    | AdditionalSchema additionalSchema =>
        AdditionalSchema (updateSchemaReferences oldToNewNames additionalSchema)
    | other => other
    end
    (if negb (String.eqb (Schema.Ref schema) EmptyString)
     then updateReference (Schema.Ref schema) oldToNewNames
     else Schema.Ref schema)
    (Schema.Example schema) (Schema.Description schema) (Schema.Enum schema)
    (Schema.Default schema).

(** The three passes over an operation touch the schemas of its request-body
    and response content; [onContent f] is that traversal. *)
Definition onMedia (f : Schema.t -> Schema.t) (content : MediaType.t)
  : MediaType.t :=
  MediaType.mk (f (MediaType.Schema_ content)).

Definition onContent (f : Schema.t -> Schema.t) (operation : Operation.t)
  : Operation.t :=
  Operation.mk (Operation.Tags operation) (Operation.Summary operation)
    (Operation.Description operation) (Operation.OperationID operation)
    (Operation.Parameters operation)
    ((fun body =>
        RequestBody.mk (RequestBody.Description body)
          (onMedia f <$> RequestBody.Content body)
          (RequestBody.Required body)) <$> Operation.RequestBody_ operation)
    ((fun response =>
        Response.mk (Response.Description response)
          (onMedia f <$> Response.Content response))
       <$> Operation.Responses operation)
    (Operation.Security operation).

Definition updateOperationReferences (oldToNewNames : gmap string string)
    (operation : Operation.t) : Operation.t :=
  onContent (updateSchemaReferences oldToNewNames) operation.

(** Applying a pass to the five operation slots of a path item. *)
Definition onOperations (f : Operation.t -> Operation.t) (pathItem : PathItem.t)
  : PathItem.t :=
  PathItem.mk (f <$> PathItem.Get pathItem) (f <$> PathItem.Post pathItem)
    (f <$> PathItem.Put pathItem) (f <$> PathItem.Delete pathItem)
    (f <$> PathItem.Patch pathItem).

Definition withSchemas (spec : OpenAPISpec.t) (schemas : gmap string Schema.t)
  : OpenAPISpec.t :=
  OpenAPISpec.mk (OpenAPISpec.OpenAPI spec) (OpenAPISpec.Info_ spec)
    (OpenAPISpec.Servers spec) (OpenAPISpec.Paths spec)
    (Components.mk schemas
       (Components.SecuritySchemes (OpenAPISpec.Components_ spec)))
    (OpenAPISpec.Tags spec).

Definition withPaths (spec : OpenAPISpec.t) (paths : gmap string PathItem.t)
  : OpenAPISpec.t :=
  OpenAPISpec.mk (OpenAPISpec.OpenAPI spec) (OpenAPISpec.Info_ spec)
    (OpenAPISpec.Servers spec) paths (OpenAPISpec.Components_ spec)
    (OpenAPISpec.Tags spec).

Definition schemasOf (spec : OpenAPISpec.t) : gmap string Schema.t :=
  Components.Schemas (OpenAPISpec.Components_ spec).

Definition updateAllReferences (spec : OpenAPISpec.t)
    (oldToNewNames : gmap string string) : OpenAPISpec.t :=
  let spec :=
    withPaths spec
      (onOperations (updateOperationReferences oldToNewNames)
         <$> OpenAPISpec.Paths spec) in
  withSchemas spec (updateSchemaReferences oldToNewNames <$> schemasOf spec).

(** *** utils.go: canonical names and reference cleaning *)

(** The first loop of [cleanAllSchemaNames]: the schema table under cleaned
    names and the map from old to new names, filled in one pass over the
    table; where two old names clean to one name the later turn wins. *)
Definition renameSchemas (o : MapOrder) (schemas : gmap string Schema.t)
  : gmap string Schema.t * gmap string string :=
  foldl (fun acc oldName =>
           match schemas !! oldName with
           | Some schema =>
               let cleanName := cleanSchemaName oldName in
               (<[cleanName := schema]> (fst acc),
                <[oldName := cleanName]> (snd acc))
           | None => acc
           end)
        (∅, ∅) (rangeKeys o schemas).

Definition cleanAllSchemaNames (o : MapOrder) (spec : OpenAPISpec.t)
  : OpenAPISpec.t :=
  let renamed := renameSchemas o (schemasOf spec) in
  updateAllReferences (withSchemas spec (fst renamed)) (snd renamed).

Definition cleanReference (o : MapOrder) (ref : string)
    (allSchemas : gmap string Schema.t) : string :=
  if String.eqb ref EmptyString then EmptyString
  else
    match last (Split ref "/") with
    | None => EmptyString
    | Some schemaName =>
        let cleanName := cleanSchemaName schemaName in
        match allSchemas !! cleanName with
        | Some _ => refPrefix +:+ cleanName
        | None =>
            let cleanName :=
              match find (fun existingName => EqualFold existingName cleanName)
                         (rangeKeys o allSchemas) with
              | Some existingName => existingName
              | None => cleanName
              end in
            match allSchemas !! cleanName with
            | Some _ => refPrefix +:+ cleanName
            | None => EmptyString
            end
        end
    end.

(** The loop of [cleanSchema] over the properties, given their cleaned
    schemas: each is stored under its cleaned name, in enumeration order. *)
Definition cleanProperties (o : MapOrder) (properties cleaned : gmap string Schema.t)
  : gmap string Schema.t :=
  foldl (fun cleanProps propName =>
           match cleaned !! propName with
           | Some propSchema =>
               <[cleanPropertyName propName := propSchema]> cleanProps
           | None => cleanProps
           end)
        ∅ (rangeKeys o properties).

Fixpoint cleanSchema (o : MapOrder) (allSchemas : gmap string Schema.t)
    (schema : Schema.t) : Schema.t :=
  let ref := if negb (String.eqb (Schema.Ref schema) EmptyString)
             then cleanReference o (Schema.Ref schema) allSchemas
             else EmptyString in
  if negb (String.eqb ref EmptyString) then Schema.ofRef ref
  else
    Schema.mk (Schema.Type_ schema) (Schema.Format schema)
      (cleanProperties o (Schema.Properties schema)
         (cleanSchema o allSchemas <$> Schema.Properties schema))
      (cleanSchema o allSchemas <$> Schema.Items schema)
      (Schema.Required schema)
      match Schema.AdditionalProperties schema with
      | AdditionalSchema additionalSchema =>
          AdditionalSchema (cleanSchema o allSchemas additionalSchema)
      | other => other
      end
      EmptyString (Schema.Example schema) (Schema.Description schema)
      (Schema.Enum schema) (Schema.Default schema).

(** *** validator.go *)

Definition validateSchemas (o : MapOrder) (spec : OpenAPISpec.t)
  : OpenAPISpec.t :=
  withSchemas spec (cleanSchema o (schemasOf spec) <$> schemasOf spec).

(** [FindAllStringSubmatch] for the pattern of a brace, one or more bytes
    other than a closing brace, and a closing brace: each match is the pair of
    the whole match and the bytes between the braces. *)
Fixpoint findPathParams (skip : nat) (s : string) : list (list string) :=
  match s with
  | EmptyString => []
  | String c s' =>
      match skip with
      | S k => findPathParams k s'
      | O =>
          let name := takeWhile (fun b => negb (Ascii.eqb b "}")) s' in
          if Ascii.eqb c "{" && negb (String.eqb name EmptyString) &&
             HasPrefix (drop (String.length name) s') "}"
          then ["{" +:+ name +:+ "}"; name]
                 :: findPathParams (S (String.length name)) s'
          else findPathParams 0 s'
      end
  end.

Definition expectedOf (pathParams : list (list string)) : gset string :=
  foldl (fun expectedParams param =>
           match param with
           | _ :: name :: _ => {[name]} ∪ expectedParams
           | _ => expectedParams
           end)
        ∅ pathParams.

Definition isPathParam (name : string) (param : Param.t) : bool :=
  String.eqb (Param.In param) "path" && String.eqb (Param.Name param) name.

(** The two loops of [validateOperationParameters]: the filter over the
    declared parameters and the injection of a missing path parameter. *)
Definition keepParam (expectedParams : gset string) (param : Param.t) : bool :=
  if String.eqb (Param.In param) "path"
  then bool_decide (Param.Name param ∈ expectedParams)
  else true.

Definition injectParam (validParams : list Param.t) (paramName : string)
  : list Param.t :=
  if existsb (isPathParam paramName) validParams then validParams
  else validParams ++
         [Param.mk paramName "path" EmptyString true (Schema.ofType "string")
            None].

Definition validateOperationParameters (o : MapOrder) (operation : Operation.t)
    (pathParams : list (list string)) : Operation.t :=
  let expectedParams := expectedOf pathParams in
  let validParams :=
    List.filter (keepParam expectedParams) (Operation.Parameters operation) in
  let validParams :=
    foldl injectParam validParams (rangeSet o expectedParams) in
  Operation.mk (Operation.Tags operation) (Operation.Summary operation)
    (Operation.Description operation) (Operation.OperationID operation)
    validParams (Operation.RequestBody_ operation)
    (Operation.Responses operation) (Operation.Security operation).

Definition validatePathParameters (o : MapOrder) (path : string)
    (pathItem : PathItem.t) : string * PathItem.t :=
  let pathParams := findPathParams 0 path in
  (path,
   onOperations (fun operation =>
                   validateOperationParameters o operation pathParams)
     pathItem).

(** [validatePaths] stores every item under the path
    [validatePathParameters] returns, which is the path it was stored under. *)
Definition validatePaths (o : MapOrder) (spec : OpenAPISpec.t)
  : OpenAPISpec.t :=
  withPaths spec
    (map_imap (fun path pathItem =>
                 Some (snd (validatePathParameters o path pathItem)))
       (OpenAPISpec.Paths spec)).

(** *** remover.go *)

Fixpoint removeInvalidRefsFromSchema (validSchemas : gset string)
    (schema : Schema.t) : Schema.t :=
  if negb (String.eqb (Schema.Ref schema) EmptyString) &&
     negb (bool_decide (TrimPrefix (Schema.Ref schema) refPrefix ∈ validSchemas))
  then Schema.ofType "object"
  else
    Schema.mk (Schema.Type_ schema) (Schema.Format schema)
      (removeInvalidRefsFromSchema validSchemas <$> Schema.Properties schema)
      (removeInvalidRefsFromSchema validSchemas <$> Schema.Items schema)
      (Schema.Required schema)
      match Schema.AdditionalProperties schema with
      | AdditionalSchema additionalSchema =>
          AdditionalSchema
            (removeInvalidRefsFromSchema validSchemas additionalSchema)
      | other => other
      end
      (Schema.Ref schema) (Schema.Example schema) (Schema.Description schema)
      (Schema.Enum schema) (Schema.Default schema).

Definition removeInvalidRefsFromOperation (validSchemas : gset string)
    (operation : Operation.t) : Operation.t :=
  onContent (removeInvalidRefsFromSchema validSchemas) operation.

Definition removeInvalidReferences (spec : OpenAPISpec.t) : OpenAPISpec.t :=
  let validSchemas := dom (schemasOf spec) in
  let spec :=
    withSchemas spec
      (removeInvalidRefsFromSchema validSchemas <$> schemasOf spec) in
  withPaths spec
    (onOperations (removeInvalidRefsFromOperation validSchemas)
       <$> OpenAPISpec.Paths spec).

(** [ValidateAndCleanSpec]; its two fallible steps always return [nil], so
    the error result is always [nil] and only the document is returned. *)
Definition ValidateAndCleanSpec (o : MapOrder) (spec : OpenAPISpec.t)
  : OpenAPISpec.t :=
  let spec := cleanAllSchemaNames o spec in
  let spec := validateSchemas o spec in
  let spec := validatePaths o spec in
  removeInvalidReferences spec.

(** *** generator.go: [Generate] *)

Definition errorResponseSchema : Schema.t :=
  Schema.mk "object" EmptyString
    (<["code" := Schema.described "integer" "Error code"]>
       (<["error" := Schema.described "string" "Error message"]> ∅))
    None [] NoAdditional EmptyString None EmptyString [] None.

Definition standardResponseSchema : Schema.t :=
  Schema.mk "object" EmptyString
    (<["data" := Schema.mk "object" EmptyString ∅ None []
                   (AdditionalBool true) EmptyString None "Response data" []
                   None]>
       (<["message" := Schema.described "string" "Response message"]>
          (<["success" :=
               Schema.described "boolean"
                 "Indicates if the operation was successful"]> ∅)))
    None [] NoAdditional EmptyString None EmptyString [] None.

(** The loop over [analysis.Models]. *)
Definition modelSchemas (o : MapOrder) (models : gmap string analyzer.Model.t)
  : gmap string Schema.t :=
  foldl (fun schemas key =>
           match models !! key with
           | Some model =>
               <[cleanSchemaName (analyzer.Model.Name model) :=
                   generateSchemaFromModel model]> schemas
           | None => schemas
           end)
        ∅ (rangeKeys o models).

Definition withBaseline (schemas : gmap string Schema.t)
  : gmap string Schema.t :=
  let schemas :=
    match schemas !! "ErrorResponse" with
    | Some _ => schemas
    | None => <["ErrorResponse" := errorResponseSchema]> schemas
    end in
  match schemas !! "StandardResponse" with
  | Some _ => schemas
  | None => <["StandardResponse" := standardResponseSchema]> schemas
  end.

(** The switch on the lower-cased method: the slot the operation goes to. *)
Definition setOperation (method : string) (operation : Operation.t)
    (pathItem : PathItem.t) : PathItem.t :=
  let '(PathItem.mk get post put delete patch) := pathItem in
  if String.eqb method "get"
  then PathItem.mk (Some operation) post put delete patch
  else if String.eqb method "post"
  then PathItem.mk get (Some operation) put delete patch
  else if String.eqb method "put"
  then PathItem.mk get post (Some operation) delete patch
  else if String.eqb method "delete"
  then PathItem.mk get post put (Some operation) patch
  else if String.eqb method "patch"
  then PathItem.mk get post put delete (Some operation)
  else pathItem.

Record PathsState := mkPathsState {
  paths : gmap string PathItem.t;
  tags : gset string;
  processedPaths : gset string
}.

(** One turn of the loop over [analysis.Routes]. *)
Definition addRoute (st : PathsState) (route : analyzer.Route.t) : PathsState :=
  let openAPIPath := convertPathFormat (analyzer.Route.Path route) in
  let pathKey := analyzer.Route.Method route +:+ ":" +:+ openAPIPath in
  if bool_decide (pathKey ∈ processedPaths st) then st
  else
    let pathItem := default PathItem.zero (paths st !! openAPIPath) in
    let operation := generateOperation route in
    let pathItem :=
      setOperation (ToLower (analyzer.Route.Method route)) operation pathItem in
    mkPathsState (<[openAPIPath := pathItem]> (paths st))
      (list_to_set (analyzer.Route.Tags route) ∪ tags st)
      ({[pathKey]} ∪ processedPaths st).

Definition Generate (o : MapOrder) (config : Config.t)
    (analysis : analyzer.Analysis) : OpenAPISpec.t :=
  let schemas := withBaseline (modelSchemas o (analyzer.Models analysis)) in
  let st := foldl addRoute (mkPathsState ∅ ∅ ∅) (analyzer.Routes analysis) in
  let tagList :=
    (fun tagName => Tag.mk tagName (generateTagDescription tagName))
      <$> rangeSet o (tags st) in
  let spec :=
    OpenAPISpec.mk "3.0.3"
      (Info.mk (Config.Title config) (Config.Description config)
         (Config.Version config))
      [Server.mk (Config.ServerURL config) "Development server"]
      (paths st)
      (Components.mk schemas
         {[ "bearerAuth" :=
              SecurityScheme.mk "http" "bearer" "JWT"
                "Authorization header using Bearer token" ]})
      tagList in
  ValidateAndCleanSpec o spec.

End generator.

(** ** Vocabulary of the specification *)

Module spec.
Import strings.

(** Every upper-case letter of [s] directly follows a lower-case letter or a
    digit; [prev] is the byte before [s]. *)
Fixpoint capitalsFollow (prev : ascii) (s : string) : bool :=
  match s with
  | EmptyString => true
  | String c s' =>
      (if isUpper c then isLower prev || isDigit prev else true) &&
      capitalsFollow c s'
  end.

(** No capital after the first byte stands next to another capital, an
    underscore or any byte other than a lower-case letter or digit. *)
Definition separatedCapitals (s : string) : bool :=
  match s with
  | EmptyString => true
  | String c s' => capitalsFollow c s'
  end.

(** A method name falls through the prefix table when every prefix either
    does not start it or is the whole name. *)
Definition noTablePrefix (methodName : string) : bool :=
  forallb (fun entry =>
             negb (HasPrefix methodName (fst entry)) ||
             String.eqb methodName (fst entry))
          analyzer.prefixMappings.

(** The struct type declarations of a file in the order [parseSDKFile]
    meets them, each with the doc comment of its declaration. *)
Definition structDecls (decls : list ast.GenDecl)
  : list (string * list ast.Field * option string) :=
  flat_map
    (fun decl =>
       match ast.Tok decl with
       | ast.TYPE =>
           omap (fun spec =>
                   match spec with
                   | ast.TypeSpec name (ast.StructType fields) =>
                       Some (name, fields, ast.DeclDoc decl)
                   | _ => None
                   end)
                (ast.Specs decl)
       | _ => []
       end)
    decls.

(** The name a declaration is registered under, and the model registered. *)
Definition tableName (d : string * list ast.Field * option string) : string :=
  analyzer.cleanTypeName d.1.1.

Definition tableModel (a : analyzer.Analyzer)
    (d : string * list ast.Field * option string) : analyzer.Model.t :=
  analyzer.Model.mk (tableName d) (analyzer.sdkPackage a)
    (flat_map analyzer.parseStructField d.1.2) (analyzer.docText d.2).

(** The raw tag literal of a struct field with the given json tag. *)
Definition jsonTagLiteral (value : string) : string :=
  "`" +:+ analyzer.jsonKey +:+ value +:+ String analyzer.quote "`".

(** The model table after the declaration scanner has walked [lstat]. *)
Definition scannedModel (a : analyzer.Analyzer)
    (lstat : string -> option FsNode) (name : string)
  : option analyzer.Model.t :=
  match analyzer.parseSDKModels a lstat (analyzer.mkAnalysis [] ∅) with
  | inr analysis => analyzer.Models analysis !! name
  | inl _ => None
  end.

(** The type expression [expr] behind [n] pointers. *)
Fixpoint pointers (n : nat) (expr : ast.Expr) : ast.Expr :=
  match n with
  | O => expr
  | S k => ast.StarExpr (pointers k expr)
  end.

(** [holdsAt root node path found]: walking [node] from the path [root], the
    node [found] is met at the path [path]. *)
Inductive holdsAt : string -> FsNode -> string -> FsNode -> Prop :=
| holdsAt_here root node : holdsAt root node root node
| holdsAt_entry root entries name child path found :
    (name, child) ∈ entries ->
    holdsAt (root +:+ "/" +:+ name) child path found ->
    holdsAt root (FsDir entries) path found.

(** What a scan may do to the Analysis: the routes are kept, no name leaves
    the table, and an entry that is new is a model stored under its own
    name. *)
Definition grown (a : analyzer.Analyzer) (before after : analyzer.Analysis)
  : Prop :=
  analyzer.Routes after = analyzer.Routes before /\
  (forall key, is_Some (analyzer.Models before !! key) ->
               is_Some (analyzer.Models after !! key)) /\
  (forall key model,
      analyzer.Models after !! key = Some model ->
      analyzer.Models before !! key = Some model \/
      (analyzer.Model.Name model = key /\
       analyzer.Model.Package model = analyzer.sdkPackage a /\
       analyzer.cleanTypeName key = key)).

(** Path-parameter reconciliation: the tokens of a path, the path-located
    parameters of a parameter list and their names, and the parameter the
    pass injects for a token. *)
Definition pathTokens (path : string) : gset string :=
  generator.expectedOf (generator.findPathParams 0 path).

Definition inPath (param : generator.Param.t) : bool :=
  String.eqb (generator.Param.In param) "path".

Definition pathNames (params : list generator.Param.t) : list string :=
  generator.Param.Name <$> List.filter inPath params.

(** The parameters of an operation under [path] after the pass. *)
Definition reconciled (o : MapOrder) (operation : generator.Operation.t)
    (path : string) : list generator.Param.t :=
  generator.Operation.Parameters
    (generator.validateOperationParameters o operation
       (generator.findPathParams 0 path)).

Definition injectedParam (name : string) : generator.Param.t :=
  generator.Param.mk name "path" EmptyString true
    (generator.Schema.ofType "string") None.

(** The size of a schema tree, for induction over nested schemas. *)
Fixpoint schemaSize (s : generator.Schema.t) : nat :=
  S (map_fold (fun _ v acc => schemaSize v + acc) 0 (generator.Schema.Properties s)
     + match generator.Schema.Items s with
       | Some items => schemaSize items
       | None => 0
       end
     + match generator.Schema.AdditionalProperties s with
       | generator.AdditionalSchema a => schemaSize a
       | _ => 0
       end).

(** [hasRef s r]: the reference string [r] occurs in the schema tree [s], at
    its root, in a property, in its items or in its additional-properties
    schema. *)
Inductive hasRef : generator.Schema.t -> string -> Prop :=
| hasRef_root s :
    generator.Schema.Ref s <> EmptyString ->
    hasRef s (generator.Schema.Ref s)
| hasRef_property s key v r :
    generator.Schema.Properties s !! key = Some v ->
    hasRef v r -> hasRef s r
| hasRef_items s items r :
    generator.Schema.Items s = Some items ->
    hasRef items r -> hasRef s r
| hasRef_additional s a r :
    generator.Schema.AdditionalProperties s = generator.AdditionalSchema a ->
    hasRef a r -> hasRef s r.

(** The operations of a path item, and the schemas an operation carries: in
    the content of its request body and responses, and in its parameters. *)
Definition hasOperation (item : generator.PathItem.t)
    (operation : generator.Operation.t) : Prop :=
  generator.PathItem.Get item = Some operation \/
  generator.PathItem.Post item = Some operation \/
  generator.PathItem.Put item = Some operation \/
  generator.PathItem.Delete item = Some operation \/
  generator.PathItem.Patch item = Some operation.

Definition inContent (operation : generator.Operation.t)
    (s : generator.Schema.t) : Prop :=
  (exists body mediaType media,
      generator.Operation.RequestBody_ operation = Some body /\
      generator.RequestBody.Content body !! mediaType = Some media /\
      generator.MediaType.Schema_ media = s) \/
  (exists statusCode response mediaType media,
      generator.Operation.Responses operation !! statusCode = Some response /\
      generator.Response.Content response !! mediaType = Some media /\
      generator.MediaType.Schema_ media = s).

Definition inParameters (operation : generator.Operation.t)
    (s : generator.Schema.t) : Prop :=
  exists param, param ∈ generator.Operation.Parameters operation /\
                generator.Param.Schema_ param = s.

(** [docRef spec r]: the reference string [r] occurs somewhere in the
    document. *)
Inductive docRef (doc : generator.OpenAPISpec.t) (r : string) : Prop :=
| docRef_schema name s :
    generator.schemasOf doc !! name = Some s -> hasRef s r -> docRef doc r
| docRef_operation path item operation s :
    generator.OpenAPISpec.Paths doc !! path = Some item ->
    hasOperation item operation ->
    inContent operation s \/ inParameters operation s ->
    hasRef s r -> docRef doc r.

(** A reference resolves when it points at a key of the schema table. *)
Definition resolves (doc : generator.OpenAPISpec.t) (r : string) : Prop :=
  exists name, r = generator.refPrefix +:+ name /\
               is_Some (generator.schemasOf doc !! name).

(** The slot of a path item the switch of [Generate] selects for a
    lower-cased method. *)
Definition slotOf (method : string) (item : generator.PathItem.t)
  : option generator.Operation.t :=
  if String.eqb method "get" then generator.PathItem.Get item
  else if String.eqb method "post" then generator.PathItem.Post item
  else if String.eqb method "put" then generator.PathItem.Put item
  else if String.eqb method "delete" then generator.PathItem.Delete item
  else if String.eqb method "patch" then generator.PathItem.Patch item
  else None.

(** A route has the key [(verb, path)]. *)
Definition hasKey (verb path : string) (route : analyzer.Route.t) : bool :=
  String.eqb (analyzer.Route.Method route) verb &&
  String.eqb (generator.convertPathFormat (analyzer.Route.Path route)) path.

(** What a reference to the schema of a model named [name] has become in a
    finished document [doc]: a reference to the cleaned name when the table
    holds it, the generic object schema otherwise. *)
Definition settled (doc : generator.OpenAPISpec.t) (name : string)
  : generator.Schema.t :=
  let target := generator.cleanSchemaName name in
  if bool_decide (target ∈ dom (generator.schemasOf doc))
  then generator.Schema.ofRef (generator.refPrefix +:+ target)
  else generator.Schema.ofType "object".

Definition settledContent (doc : generator.OpenAPISpec.t) (name : string)
  : gmap string generator.MediaType.t :=
  {[ "application/json" := generator.MediaType.mk (settled doc name) ]}.

(** The key under which [Generate] remembers a route it has processed. *)
Definition routeKey (route : analyzer.Route.t) : string :=
  analyzer.Route.Method route +:+ ":" +:+
  generator.convertPathFormat (analyzer.Route.Path route).

(** What the three passes of the integrity engine make of an operation
    stored under [path]. *)
Definition finished (o : MapOrder) (oldToNewNames : gmap string string)
    (validSchemas : gset string) (path : string)
    (operation : generator.Operation.t) : generator.Operation.t :=
  generator.removeInvalidRefsFromOperation validSchemas
    (generator.validateOperationParameters o
       (generator.updateOperationReferences oldToNewNames operation)
       (generator.findPathParams 0 path)).

(** The schema name a reference string points at, as [cleanReference] reads
    it: the cleaned last segment of the reference. *)
Definition refTarget (ref : string) : string :=
  generator.cleanSchemaName (default EmptyString (last (strings.Split ref "/"))).

(** The schema table after the first pass of the integrity engine (names
    canonical, references rewritten) and after the second (references
    cleaned), as functions of the table the engine starts from. *)
Definition tableAfterRename (o : MapOrder)
    (schemas : gmap string generator.Schema.t) : gmap string generator.Schema.t :=
  generator.updateSchemaReferences (snd (generator.renameSchemas o schemas))
    <$> fst (generator.renameSchemas o schemas).

Definition tableAfterClean (o : MapOrder)
    (schemas : gmap string generator.Schema.t) : gmap string generator.Schema.t :=
  generator.cleanSchema o (tableAfterRename o schemas)
    <$> tableAfterRename o schemas.

(** The loop of [Generate] over the routes, from its initial state. *)
Definition draftPaths (routes : list analyzer.Route.t)
  : gmap string generator.PathItem.t :=
  generator.paths
    (foldl generator.addRoute (generator.mkPathsState ∅ ∅ ∅) routes).

(** The operation a path map holds for a verb under a path, if any. *)
Definition operationAt (verb path : string)
    (pathMap : gmap string generator.PathItem.t) : option generator.Operation.t :=
  pathMap !! path ≫= slotOf (strings.ToLower verb).

(** A valid schema name: not empty, starting with a letter, made of letters,
    digits and underscores. *)
Fixpoint allBytes (p : ascii -> bool) (s : string) : bool :=
  match s with
  | EmptyString => true
  | String c s' => p c && allBytes p s'
  end.

Definition validName (name : string) : bool :=
  generator.startsWithLetter name && allBytes generator.isWordByte name.

(** A route path written segment by segment: literal text, or a named
    parameter.  [joinPath] writes every segment after a slash. *)
Inductive Segment :=
| Literal (text : string)
| Named (name : string).

Definition colonSegment (segment : Segment) : string :=
  match segment with
  | Literal text => text
  | Named name => ":" +:+ name
  end.

Definition braceSegment (segment : Segment) : string :=
  match segment with
  | Literal text => text
  | Named name => "{" +:+ name +:+ "}"
  end.

Definition joinPath (render : Segment -> string) (segments : list Segment)
  : string :=
  foldr (fun segment rest => "/" +:+ render segment +:+ rest) EmptyString
    segments.

Definition plainByte (c : ascii) : bool :=
  negb (Ascii.eqb c ":") && negb (Ascii.eqb c "{") && negb (Ascii.eqb c "}") &&
  negb (Ascii.eqb c "/").

(** Literal text holds no colon, brace or slash; a parameter name is an
    identifier. *)
Definition wellFormed (segment : Segment) : bool :=
  match segment with
  | Literal text => allBytes plainByte text
  | Named name => validName name
  end.


(** What follows a segment: the end of the path or a slash. *)
Definition atBoundary (rest : string) : bool :=
  match rest with
  | EmptyString => true
  | String c _ => Ascii.eqb c "/"
  end.

Definition segmentNames (segments : list Segment) : list string :=
  omap (fun segment =>
          match segment with
          | Named name => Some name
          | Literal _ => None
          end) segments.

End spec.

(** ** Concrete inputs used by the examples *)

Module fixtures.

Definition scanner : analyzer.Analyzer :=
  analyzer.mkAnalyzer "project" "sdk" "routes/**/router.go".

Definition userWith (fieldName fieldType : string) : Source :=
  Parsed
    [ ast.mkGenDecl ast.TYPE None
        [ ast.TypeSpec "User"
            (ast.StructType
               [ast.mkField [fieldName] (ast.Ident fieldType) None None]) ] ].

(** Two files that both declare [User]; [a.go] is visited first. *)
Definition twoUsers (path : string) : option FsNode :=
  if String.eqb path "project/sdk"
  then Some (FsDir [ ("a.go", FsFile (userWith "ID" "int"));
                     ("b.go", FsFile (userWith "Name" "string")) ])
  else None.

(** A struct with an embedded field and two fields that share a json name,
    one of them optional. *)
Definition accountFields : list ast.Field :=
  [ ast.mkField [] (ast.Ident "Base") None None;
    ast.mkField ["Alias"] (ast.Ident "string")
      (Some (spec.jsonTagLiteral "label,omitempty")) None;
    ast.mkField ["Title"] (ast.Ident "string")
      (Some (spec.jsonTagLiteral "label")) None ].

Definition userFields : list ast.Field :=
  [ ast.mkField ["ID"] (ast.Ident "int") (Some (spec.jsonTagLiteral "id")) None;
    ast.mkField ["Name"] (ast.Ident "string")
      (Some (spec.jsonTagLiteral "name,omitempty")) None;
    ast.mkField ["CreatedAt"] (ast.SelectorExpr (ast.Ident "time") "Time")
      None None ].

(** An operation that declares the path parameter [id] twice. *)
Definition declared (name location : string) : generator.Param.t :=
  generator.Param.mk name location EmptyString true
    (generator.Schema.ofType "string") None.

Definition operationWith (params : list generator.Param.t)
  : generator.Operation.t :=
  generator.Operation.mk [] EmptyString EmptyString EmptyString params None ∅
    [].

Definition postPath : string := "/users/{id}/posts/{postId}".

Definition config : generator.Config.t :=
  generator.Config.mk "API" "1.0.0" "Generated" "http://localhost:3000".

(** A model with a field of a type that is declared nowhere. *)
Definition postAnalysis : analyzer.Analysis :=
  analyzer.mkAnalysis []
    {[ "Post" :=
         analyzer.parseStruct scanner "Post"
           [ast.mkField ["Author"] (ast.Ident "Writer") None None] None ]}.

(** Two routes with one key, and a HEAD route. *)
Definition routeTo (method path handler : string) : analyzer.Route.t :=
  analyzer.Route.mk path method handler [] None None [] ["users"].

Definition usersAnalysis : analyzer.Analysis :=
  analyzer.mkAnalysis
    [ routeTo "GET" "/v1/users/:id" "GetUser";
      routeTo "HEAD" "/v1/users/:id" "HeadUser";
      routeTo "GET" "/v1/users/:id" "GetUserAgain" ] ∅.


(** A model directory with a readable file and, one level down, a file with
    a syntax error. *)
Definition brokenTree (path : string) : option FsNode :=
  if String.eqb path "project/sdk"
  then Some (FsDir [ ("a.go", FsFile (userWith "ID" "int"));
                     ("models", FsDir [("b.go", FsFile Unparsable)]) ])
  else None.

(** A schema whose property and required name is written in camel case. *)
Definition camelSchema : generator.Schema.t :=
  generator.Schema.mk "object" EmptyString
    {[ "userName" := generator.Schema.ofType "string" ]} None ["userName"]
    generator.NoAdditional EmptyString None EmptyString [] None.

End fixtures.

(** ** Facts about the string helpers *)

Section StringFacts.
Import strings.

Lemma app_cons (a : ascii) (p r : string) :
  String a p +:+ r = String a (p +:+ r).
Proof. reflexivity. Qed.

Lemma app_nil (r : string) : EmptyString +:+ r = r.
Proof. reflexivity. Qed.

Lemma HasPrefix_app (p r : string) : HasPrefix (p +:+ r) p = true.
Proof.
  induction p as [|a p IH]; [done|].
  rewrite app_cons. simpl. by rewrite Ascii.eqb_refl, IH.
Qed.

Lemma drop_app (p r : string) : drop (String.length p) (p +:+ r) = r.
Proof.
  induction p as [|a p IH]; [by destruct r|].
  rewrite app_cons. simpl. exact IH.
Qed.

Lemma TrimPrefix_app (p r : string) : TrimPrefix (p +:+ r) p = r.
Proof. unfold TrimPrefix. by rewrite HasPrefix_app, drop_app. Qed.

Lemma HasPrefix_split (s p : string) :
  HasPrefix s p = true -> s = p +:+ drop (String.length p) s.
Proof.
  revert s. induction p as [|a p IH]; intros s H.
  - by destruct s.
  - destruct s as [|b s]; [done|]. simpl in H.
    apply andb_true_iff in H as [Hab Hp].
    apply Ascii.eqb_eq in Hab as ->.
    rewrite app_cons. simpl. f_equal. by apply IH.
Qed.

Lemma app_empty_r (s : string) : s +:+ EmptyString = s.
Proof.
  induction s as [|a s IH]; [done|]. by rewrite app_cons, IH.
Qed.

Lemma TrimPrefix_self (p : string) : TrimPrefix p p = EmptyString.
Proof. rewrite <- (app_empty_r p) at 1. apply TrimPrefix_app. Qed.

Lemma HasPrefix_self (p : string) : HasPrefix p p = true.
Proof. rewrite <- (app_empty_r p) at 1. apply HasPrefix_app. Qed.

Lemma isUpper_not_lower (c : ascii) : isUpper c = true -> isLower c = false.
Proof.
  unfold isUpper, isLower. intros H.
  apply andb_true_iff in H as [_ H]. apply Nat.leb_le in H.
  apply andb_false_iff. left. apply Nat.leb_gt. lia.
Qed.

Lemma isUpper_not_digit (c : ascii) : isUpper c = true -> isDigit c = false.
Proof.
  unfold isUpper, isDigit. intros H.
  apply andb_true_iff in H as [H _]. apply Nat.leb_le in H.
  apply andb_false_iff. right. apply Nat.leb_gt. lia.
Qed.

End StringFacts.

(** ** The two snake-case transforms (C10) *)

Section SnakeCase.
Import strings.

Lemma snakeRe_skip (a : ascii) (s : string) :
  isLower a || isDigit a = false ->
  generator.snakeRe (String a s) = String a (generator.snakeRe s).
Proof. intros H. destruct s as [|b s]; simpl; [done|]. by rewrite H. Qed.

Lemma snakeRe_snakeLoop (s : string) (prev : ascii) :
  spec.capitalsFollow prev s = true ->
  generator.snakeRe (String prev s) = String prev (analyzer.snakeLoop false s).
Proof.
  revert prev. induction s as [|c s IH]; intros prev H; [done|].
  simpl in H. apply andb_true_iff in H as [Hc Hs].
  specialize (IH c Hs).
  change (generator.snakeRe (String prev (String c s)))
    with (if (isLower prev || isDigit prev) && isUpper c
          then String prev (String "_" (String c (generator.snakeRe s)))
          else String prev (generator.snakeRe (String c s))).
  simpl analyzer.snakeLoop.
  destruct (isUpper c) eqn:Hup.
  - rewrite Hc. simpl. do 3 f_equal.
    rewrite snakeRe_skip in IH.
    + by injection IH.
    + by rewrite (isUpper_not_lower _ Hup), (isUpper_not_digit _ Hup).
  - rewrite andb_false_r, IH. done.
Qed.

(** The claim as stated fails: the analyzer splits a run of capitals letter
    by letter, the generator leaves it whole. *)
Lemma toSnakeCase_transforms_differ :
  analyzer.toSnakeCase "UserID" = "user_i_d" /\
  generator.toSnakeCase "UserID" = "user_id" /\
  analyzer.toSnakeCase "UserID" <> generator.toSnakeCase "UserID".
Proof. repeat split; vm_compute; congruence. Qed.

(** C10, amended: the analyzer's and the generator's snake-case transforms
    return the same output on every string in which each upper-case letter
    after the first byte directly follows a lower-case letter or a digit. *)
Theorem toSnakeCase_transforms_agree (str : string) :
  spec.separatedCapitals str = true ->
  analyzer.toSnakeCase str = generator.toSnakeCase str.
Proof.
  intros H. unfold analyzer.toSnakeCase, generator.toSnakeCase.
  destruct (Contains str "_" && String.eqb (ToLower str) str); [done|].
  f_equal. destruct str as [|c s]; [done|].
  simpl in H. rewrite (snakeRe_snakeLoop _ _ H). done.
Qed.

Lemma toSnakeCase_transforms_agree_witness :
  spec.separatedCapitals "UserName2Go" = true /\
  analyzer.toSnakeCase "UserName2Go" = generator.toSnakeCase "UserName2Go".
Proof.
  split; [reflexivity|].
  apply (toSnakeCase_transforms_agree "UserName2Go"). reflexivity.
Defined.

End SnakeCase.

(** ** Response-type inference from a method name (C8) *)

Section ResponseTypeInference.
Import strings.

Lemma inferLoop_falls_through (table : list (string * string)) (name : string) :
  forallb (fun entry =>
             negb (HasPrefix name (fst entry)) || String.eqb name (fst entry))
          table = true ->
  analyzer.inferLoop table name = None.
Proof.
  induction table as [|[prefix format] table IH]; simpl; [done|].
  intros H. apply andb_true_iff in H as [Hhd Htl].
  apply orb_true_iff in Hhd as [Hno|Heq].
  - apply negb_true_iff in Hno. rewrite Hno. by apply IH.
  - apply String.eqb_eq in Heq as ->.
    rewrite HasPrefix_self, TrimPrefix_self. simpl. by apply IH.
Qed.

(** The claim as stated fails on a name that is exactly a prefix of the
    table: the guard on an empty remainder sends it to the default. *)
Lemma inferResponseType_bare_prefix :
  analyzer.inferResponseTypeFromMethodName ("Get" +:+ EmptyString)
    = "GetResponse" /\
  analyzer.inferResponseTypeFromMethodName ("Get" +:+ EmptyString)
    <> EmptyString +:+ "Response" /\
  analyzer.inferResponseTypeFromMethodName ("Validate" +:+ EmptyString)
    <> EmptyString +:+ "ValidationResponse".
Proof. repeat split; vm_compute; congruence. Qed.

(** C8, amended: with a non-empty remainder [rest], a name [Get rest] maps to
    [rest Response], [List rest] to [rest ListResponse], [Search rest] to
    [Search rest Response], [Validate rest] to [rest ValidationResponse] and
    [Check rest] to [rest CheckResponse]; a name that no table prefix starts,
    or that is itself a table prefix, maps to the name followed by
    [Response]. *)
Theorem inferResponseType_prefix_table (rest name : string) :
  rest <> EmptyString ->
  spec.noTablePrefix name = true ->
  analyzer.inferResponseTypeFromMethodName ("Get" +:+ rest)
    = rest +:+ "Response" /\
  analyzer.inferResponseTypeFromMethodName ("List" +:+ rest)
    = rest +:+ "ListResponse" /\
  analyzer.inferResponseTypeFromMethodName ("Search" +:+ rest)
    = "Search" +:+ rest +:+ "Response" /\
  analyzer.inferResponseTypeFromMethodName ("Validate" +:+ rest)
    = rest +:+ "ValidationResponse" /\
  analyzer.inferResponseTypeFromMethodName ("Check" +:+ rest)
    = rest +:+ "CheckResponse" /\
  analyzer.inferResponseTypeFromMethodName name = name +:+ "Response".
Proof.
  intros Hrest Hname.
  destruct rest as [|c rest]; [done|].
  repeat split; try reflexivity.
  unfold analyzer.inferResponseTypeFromMethodName.
  by rewrite (inferLoop_falls_through _ _ Hname).
Qed.

Lemma inferResponseType_prefix_table_witness :
  analyzer.inferResponseTypeFromMethodName "GetUser" = "UserResponse" /\
  analyzer.inferResponseTypeFromMethodName "Ping" = "PingResponse".
Proof.
  destruct (inferResponseType_prefix_table "User" "Ping") as (H1 & _ & _ & _ & _ & H2).
  - discriminate.
  - reflexivity.
  - split; [exact H1 | exact H2].
Defined.

End ResponseTypeInference.

(** ** The declaration scanner: the model table (C5) and a missing model
       directory (C6) *)

Section DeclarationScanner.
Import strings fixtures.

Lemma parseTypeSpec_fold (a : analyzer.Analyzer) (doc : option string)
    (specs : list ast.Spec) (models : gmap string analyzer.Model.t) :
  foldl (analyzer.parseTypeSpec a doc) models specs =
  foldl (fun m d => <[spec.tableName d := spec.tableModel a d]> m) models
    (omap (fun sp =>
             match sp with
             | ast.TypeSpec name (ast.StructType fields) =>
                 Some (name, fields, doc)
             | _ => None
             end) specs).
Proof.
  revert models. induction specs as [|sp specs IH]; intros models; [done|].
  simpl. destruct sp as [name [| | | | | | |fields|]|]; simpl; apply IH.
Qed.

Lemma parseGenDecl_fold (a : analyzer.Analyzer) (decls : list ast.GenDecl)
    (models : gmap string analyzer.Model.t) :
  foldl (analyzer.parseGenDecl a) models decls =
  foldl (fun m d => <[spec.tableName d := spec.tableModel a d]> m) models
    (spec.structDecls decls).
Proof.
  revert models. induction decls as [|decl decls IH]; intros models; [done|].
  simpl. rewrite foldl_app, <- IH. f_equal.
  unfold analyzer.parseGenDecl.
  destruct (ast.Tok decl); try done. apply parseTypeSpec_fold.
Qed.

Lemma table_fold_other (a : analyzer.Analyzer)
    (ds : list (string * list ast.Field * option string))
    (m : gmap string analyzer.Model.t) (k : string) :
  Forall (fun d => spec.tableName d <> k) ds ->
  foldl (fun m d => <[spec.tableName d := spec.tableModel a d]> m) m ds !! k
  = m !! k.
Proof.
  revert m. induction ds as [|d ds IH]; intros m H; [done|].
  apply Forall_cons in H as [Hd Hds]. simpl.
  rewrite (IH _ Hds). by apply lookup_insert_ne.
Qed.

(** The claim as stated fails: after both files are scanned the table holds
    the model of the declaration registered last, not first. *)
Lemma model_table_keeps_last_declaration :
  spec.scannedModel scanner twoUsers "User"
    = Some (spec.tableModel scanner
              ("User", [ast.mkField ["Name"] (ast.Ident "string") None None],
               None)) /\
  spec.scannedModel scanner twoUsers "User"
    <> Some (spec.tableModel scanner
               ("User", [ast.mkField ["ID"] (ast.Ident "int") None None],
                None)).
Proof. split; vm_compute; congruence. Qed.

(** C5, amended: insertion into the shared name-to-Model table is a plain
    assignment, so the last writer wins: whatever the table held before a
    file is scanned, afterwards it holds, under a name, the Model built from
    the last declaration of that name in the file. *)
Theorem model_table_last_writer_wins (a : analyzer.Analyzer) (path : string)
    (decls : list ast.GenDecl) (analysis : analyzer.Analysis)
    (before after : list (string * list ast.Field * option string))
    (d : string * list ast.Field * option string) :
  spec.structDecls decls = before ++ d :: after ->
  Forall (fun d' => spec.tableName d' <> spec.tableName d) after ->
  exists analysis',
    analyzer.parseSDKFile a path (FsFile (Parsed decls)) analysis
      = inr analysis' /\
    analyzer.Models analysis' !! spec.tableName d = Some (spec.tableModel a d).
Proof.
  intros Hdecls Hafter. eexists. split; [reflexivity|]. simpl.
  rewrite parseGenDecl_fold, Hdecls, foldl_app. simpl.
  rewrite (table_fold_other _ _ _ _ Hafter). apply lookup_insert_eq.
Qed.

Lemma model_table_last_writer_wins_witness :
  exists analysis',
    analyzer.parseSDKFile scanner "project/sdk/b.go"
      (FsFile (userWith "Name" "string"))
      (analyzer.mkAnalysis []
         {[ "User" := spec.tableModel scanner
                        ("User",
                         [ast.mkField ["ID"] (ast.Ident "int") None None],
                         None) ]})
      = inr analysis' /\
    analyzer.Models analysis' !! "User"
      = Some (spec.tableModel scanner
                ("User",
                 [ast.mkField ["Name"] (ast.Ident "string") None None], None)).
Proof.
  apply (model_table_last_writer_wins scanner "project/sdk/b.go" _ _ []
           []
           ("User", [ast.mkField ["Name"] (ast.Ident "string") None None],
            None)).
  - reflexivity.
  - constructor.
Defined.

(** C6, on the code: when the model directory does not exist, the walk hands
    the failed [Lstat] to the callback, the callback returns it, and
    [Analyze] returns an error instead of an Analysis. *)
Theorem Analyze_fails_without_model_directory (a : analyzer.Analyzer)
    (lstat : string -> option FsNode)
    (parseRoutes : analyzer.Analysis -> error + analyzer.Analysis) :
  lstat (analyzer.projectPath a +:+ "/" +:+ "sdk") = None ->
  analyzer.Analyze a lstat parseRoutes
  = inl (Errorf "failed to parse SDK models: "
           (ErrNotExist (analyzer.projectPath a +:+ "/" +:+ "sdk"))).
Proof.
  intros H. unfold analyzer.Analyze, analyzer.parseSDKModels. by rewrite H.
Qed.

Lemma Analyze_fails_without_model_directory_witness :
  analyzer.Analyze scanner (fun _ => None) (fun analysis => inr analysis)
  = inl (Errorf "failed to parse SDK models: " (ErrNotExist "project/sdk")).
Proof.
  apply (Analyze_fails_without_model_directory scanner (fun _ => None)).
  reflexivity.
Defined.

End DeclarationScanner.

(** ** Required properties of a model schema (C2) *)

Section RequiredFields.
Import strings fixtures.

Definition requiredName (f : analyzer.Field.t) : option string :=
  if analyzer.Field.Required f then generator.propertyName f else None.

Lemma Required_addField_fold (fields : list analyzer.Field.t)
    (schema : generator.Schema.t) :
  generator.Schema.Required (foldl generator.addField schema fields)
  = generator.Schema.Required schema ++ omap requiredName fields.
Proof.
  revert schema. induction fields as [|f fields IH]; intros schema; simpl.
  - by rewrite app_nil_r.
  - rewrite IH. unfold generator.addField, requiredName.
    destruct (generator.propertyName f) as [key|]; simpl;
      destruct (analyzer.Field.Required f); simpl; try done.
    by rewrite <- app_assoc.
Qed.

Lemma Required_generateSchemaFromModel (model : analyzer.Model.t) (key : string) :
  key ∈ generator.Schema.Required (generator.generateSchemaFromModel model) <->
  exists f, f ∈ analyzer.Model.Fields model /\
            analyzer.Field.Required f = true /\
            generator.propertyName f = Some key.
Proof.
  unfold generator.generateSchemaFromModel.
  rewrite Required_addField_fold. simpl. rewrite list_elem_of_omap.
  unfold requiredName. split.
  - intros (f & Hf & Hkey). exists f.
    destruct (analyzer.Field.Required f); [done|discriminate].
  - intros (f & Hf & Hreq & Hkey). exists f. by rewrite Hreq.
Qed.

Lemma embeddedField_omitempty (field : ast.Field) :
  Contains (analyzer.Field.JSONTag (analyzer.embeddedField field)) "omitempty"
    = true ->
  analyzer.Field.Required (analyzer.embeddedField field) = false.
Proof.
  unfold analyzer.embeddedField.
  destruct (ast.Tag field) as [tag|]; [|done].
  destruct (String.eqb (analyzer.extractJSONTag tag) EmptyString);
    simpl; [done|]. by intros ->.
Qed.

Lemma namedField_omitempty (field : ast.Field) (n : string)
    (f : analyzer.Field.t) :
  analyzer.namedField field n = Some f ->
  Contains (analyzer.Field.JSONTag f) "omitempty" = true ->
  analyzer.Field.Required f = false.
Proof.
  unfold analyzer.namedField.
  destruct (ast.IsExported n); simpl; [|done].
  intros Hf. injection Hf as <-.
  destruct (ast.Tag field) as [tag|]; [|done].
  destruct (String.eqb (analyzer.extractJSONTag tag) EmptyString);
    simpl; [done|]. by intros ->.
Qed.

Lemma parseStructField_omitempty (field : ast.Field) (f : analyzer.Field.t) :
  f ∈ analyzer.parseStructField field ->
  Contains (analyzer.Field.JSONTag f) "omitempty" = true ->
  analyzer.Field.Required f = false.
Proof.
  unfold analyzer.parseStructField.
  destruct (ast.Names field) as [|n names].
  - intros ->%list_elem_of_singleton. apply embeddedField_omitempty.
  - intros (n' & _ & Hf)%list_elem_of_omap. by apply namedField_omitempty with field n'.
Qed.

Lemma parseStruct_fields (a : analyzer.Analyzer) (name : string)
    (structFields : list ast.Field) (doc : option string)
    (f : analyzer.Field.t) :
  f ∈ analyzer.Model.Fields (analyzer.parseStruct a name structFields doc) <->
  exists field, field ∈ structFields /\ f ∈ analyzer.parseStructField field.
Proof.
  simpl. rewrite list_elem_of_In, in_flat_map.
  split; intros (field & H1 & H2); exists field;
    by rewrite ?list_elem_of_In in *.
Qed.

(** The claim as stated fails twice on one struct: the embedded field [Base]
    has no tag and its key is not required; the field [Alias] is tagged
    [omitempty] and its key is required, through the field that shares it. *)
Lemma required_list_departs_from_tags :
  let model := analyzer.parseStruct scanner "Account" accountFields None in
  let schema := generator.generateSchemaFromModel model in
  exists base alias title,
    analyzer.Model.Fields model = [base; alias; title] /\
    analyzer.Field.JSONTag base = EmptyString /\
    generator.propertyName base = Some "base" /\
    ("base" ∉ generator.Schema.Required schema) /\
    Contains (analyzer.Field.JSONTag alias) "omitempty" = true /\
    generator.propertyName alias = Some "label" /\
    "label" ∈ generator.Schema.Required schema.
Proof.
  do 3 eexists. split; [vm_compute; reflexivity|].
  repeat split; try (vm_compute; reflexivity).
  - vm_compute. intros H. apply list_elem_of_In in H. simpl in H.
    destruct H as [H|[]]. discriminate.
  - vm_compute. apply list_elem_of_here.
Qed.

(** C2, amended: for every model the declaration scanner builds from a struct
    and every exported named field of the struct: a field without any tag has
    its property key, the snake-case form of its name, in the required list
    of the schema; a field whose json tag carries [omitempty] adds nothing to
    the required list, so its property key is absent from it whenever every
    field stored under that key carries [omitempty].  (Embedded fields are
    not covered.) *)
Theorem required_list_follows_tags (a : analyzer.Analyzer) (name : string)
    (structFields : list ast.Field) (doc : option string) :
  let model := analyzer.parseStruct a name structFields doc in
  let schema := generator.generateSchemaFromModel model in
  (forall field fieldName,
      field ∈ structFields -> fieldName ∈ ast.Names field ->
      ast.IsExported fieldName = true -> ast.Tag field = None ->
      generator.toSnakeCase fieldName ∈ generator.Schema.Required schema) /\
  (forall f key,
      f ∈ analyzer.Model.Fields model ->
      Contains (analyzer.Field.JSONTag f) "omitempty" = true ->
      generator.propertyName f = Some key ->
      (forall g, g ∈ analyzer.Model.Fields model ->
                 generator.propertyName g = Some key ->
                 Contains (analyzer.Field.JSONTag g) "omitempty" = true) ->
      key ∉ generator.Schema.Required schema).
Proof.
  intros model schema. split.
  - intros field fieldName Hfield Hname Hexp Htag.
    apply Required_generateSchemaFromModel.
    exists (analyzer.Field.mk fieldName
              (analyzer.getTypeStringWithArrays (ast.Type_ field)) EmptyString
              (analyzer.getTypeStringWithArrays (ast.Type_ field)) true
              (analyzer.docText (ast.Doc field)) None).
    split; [|done].
    apply parseStruct_fields. exists field. split; [done|].
    unfold analyzer.parseStructField.
    destruct (ast.Names field) as [|n names] eqn:Hnames.
    + by apply elem_of_nil in Hname.
    + apply list_elem_of_omap. exists fieldName. split; [done|].
      unfold analyzer.namedField. by rewrite Hexp, Htag.
  - intros f key Hf Homit Hkey Hall Hin.
    apply Required_generateSchemaFromModel in Hin as (g & Hg & Hreq & Hgkey).
    apply parseStruct_fields in Hg as Hg'. destruct Hg' as (field & _ & Hgf).
    rewrite (parseStructField_omitempty _ _ Hgf (Hall g Hg Hgkey)) in Hreq.
    discriminate.
Qed.

Lemma required_list_follows_tags_witness :
  let schema :=
    generator.generateSchemaFromModel
      (analyzer.parseStruct scanner "User" userFields None) in
  "created_at" ∈ generator.Schema.Required schema /\
  "name" ∉ generator.Schema.Required schema.
Proof.
  destruct (required_list_follows_tags scanner "User" userFields None)
    as [Hno Homit].
  split.
  - apply (Hno (ast.mkField ["CreatedAt"]
                  (ast.SelectorExpr (ast.Ident "time") "Time") None None)
             "CreatedAt").
    + unfold userFields. do 2 apply list_elem_of_further. apply list_elem_of_here.
    + apply list_elem_of_here.
    + reflexivity.
    + reflexivity.
  - apply (Homit (analyzer.Field.mk "Name" "string" "name,omitempty" "string"
                    false EmptyString None) "name").
    + apply list_elem_of_further. apply list_elem_of_here.
    + reflexivity.
    + reflexivity.
    + intros g Hg Hkey.
      apply list_elem_of_In in Hg. simpl in Hg.
      destruct Hg as [<-|[<-|[<-|[]]]]; [discriminate|reflexivity|discriminate].
Defined.

End RequiredFields.

(** ** Path-parameter reconciliation (C4) *)

Section PathParameters.
Import strings fixtures.

Lemma isPathParam_pathNames (name : string) (params : list generator.Param.t) :
  existsb (generator.isPathParam name) params = true <->
  name ∈ spec.pathNames params.
Proof.
  unfold spec.pathNames. rewrite existsb_exists, list_elem_of_fmap.
  split.
  - intros (p & Hp & Hpath). unfold generator.isPathParam in Hpath.
    apply andb_true_iff in Hpath as [Hin Hname].
    apply String.eqb_eq in Hname. exists p. split; [done|].
    apply list_elem_of_In, filter_In. by split.
  - intros (p & -> & Hp). apply list_elem_of_In, filter_In in Hp as [Hp Hin].
    exists p. split; [done|]. unfold generator.isPathParam.
    unfold spec.inPath in Hin. by rewrite Hin, String.eqb_refl.
Qed.

Lemma pathNames_app (l1 l2 : list generator.Param.t) :
  spec.pathNames (l1 ++ l2) = spec.pathNames l1 ++ spec.pathNames l2.
Proof. unfold spec.pathNames. by rewrite List.filter_app, fmap_app. Qed.

Lemma pathNames_injected (name : string) :
  spec.pathNames
    [generator.Param.mk name "path" EmptyString true
       (generator.Schema.ofType "string") None] = [name].
Proof. reflexivity. Qed.

Lemma inject_members (names : list string) (valid : list generator.Param.t)
    (p : generator.Param.t) :
  p ∈ foldl generator.injectParam valid names <->
  p ∈ valid \/
  exists name, name ∈ names /\ p = spec.injectedParam name /\
               name ∉ spec.pathNames valid.
Proof.
  revert valid. induction names as [|n names IH]; intros valid; simpl.
  - split; [by left|]. intros [H|(name & H%elem_of_nil & _)]; done.
  - rewrite IH. clear IH. unfold generator.injectParam.
    destruct (existsb (generator.isPathParam n) valid) eqn:Hfound.
    + split.
      * intros [H|(name & Hname & Hp & Hno)]; [by left|].
        right. exists name. split; [by apply list_elem_of_further|done].
      * intros [H|(name & Hname & Hp & Hno)]; [by left|].
        apply elem_of_cons in Hname as [->|Hname].
        -- apply isPathParam_pathNames in Hfound. done.
        -- right. by exists name.
    + assert (n ∉ spec.pathNames valid) as Hn.
      { rewrite <- isPathParam_pathNames. by rewrite Hfound. }
      split.
      * intros [H|(name & Hname & Hp & Hno)].
        -- apply elem_of_app in H as [H|H%list_elem_of_singleton]; [by left|].
           right. exists n. split; [apply list_elem_of_here|done].
        -- right. exists name. split; [by apply list_elem_of_further|].
           split; [done|]. rewrite pathNames_app, elem_of_app in Hno. tauto.
      * intros [H|(name & Hname & Hp & Hno)].
        -- left. apply elem_of_app. by left.
        -- destruct (decide (name = n)) as [->|Hne].
           ++ left. apply elem_of_app. right. by apply list_elem_of_singleton.
           ++ apply elem_of_cons in Hname as [->|Hname]; [done|].
              right. exists name. split; [done|]. split; [done|].
              rewrite pathNames_app, pathNames_injected, elem_of_app.
              intros [H|H%list_elem_of_singleton]; done.
Qed.

Lemma inject_nonPath (names : list string) (valid : list generator.Param.t) :
  List.filter (fun p => negb (spec.inPath p)) (foldl generator.injectParam valid names)
  = List.filter (fun p => negb (spec.inPath p)) valid.
Proof.
  revert valid. induction names as [|n names IH]; intros valid; simpl; [done|].
  rewrite IH. unfold generator.injectParam.
  destruct (existsb _ valid); [done|].
  rewrite List.filter_app. simpl. by rewrite app_nil_r.
Qed.

Lemma inject_pathNames (names : list string) (valid : list generator.Param.t)
    (name : string) :
  name ∈ spec.pathNames (foldl generator.injectParam valid names) <->
  name ∈ spec.pathNames valid \/ name ∈ names.
Proof.
  revert valid. induction names as [|n names IH]; intros valid; simpl.
  - rewrite elem_of_nil. tauto.
  - rewrite IH, elem_of_cons. unfold generator.injectParam.
    destruct (existsb (generator.isPathParam n) valid) eqn:Hfound.
    + apply isPathParam_pathNames in Hfound.
      split; [tauto|]. intros [H|[->|H]]; tauto.
    + rewrite pathNames_app, pathNames_injected, elem_of_app.
      rewrite list_elem_of_singleton. tauto.
Qed.

Lemma inject_NoDup (names : list string) (valid : list generator.Param.t) :
  NoDup (spec.pathNames valid) ->
  NoDup (spec.pathNames (foldl generator.injectParam valid names)).
Proof.
  revert valid. induction names as [|n names IH]; intros valid H; simpl; [done|].
  apply IH. unfold generator.injectParam.
  destruct (existsb (generator.isPathParam n) valid) eqn:Hfound; [done|].
  rewrite pathNames_app, pathNames_injected. apply NoDup_app. split; [done|]. split.
  - intros x Hx ->%list_elem_of_singleton.
    apply isPathParam_pathNames in Hx. congruence.
  - apply NoDup_singleton.
Qed.

Lemma kept_pathNames (expected : gset string) (params : list generator.Param.t) :
  spec.pathNames (List.filter (generator.keepParam expected) params)
  = List.filter (fun name => bool_decide (name ∈ expected))
      (spec.pathNames params).
Proof.
  unfold spec.pathNames.
  induction params as [|p params IH]; [done|].
  cbn [List.filter]. unfold generator.keepParam at 1, spec.inPath at 2.
  destruct (String.eqb (generator.Param.In p) "path") eqn:Hin.
  - destruct (bool_decide (generator.Param.Name p ∈ expected)) eqn:Hb.
    + cbn [List.filter]. unfold spec.inPath at 1. rewrite Hin.
      cbn [fmap list_fmap List.filter]. rewrite Hb. f_equal. exact IH.
    + cbn [fmap list_fmap List.filter]. rewrite Hb. exact IH.
  - cbn [List.filter]. unfold spec.inPath at 1. rewrite Hin. exact IH.
Qed.

Lemma kept_nonPath (expected : gset string) (params : list generator.Param.t) :
  List.filter (fun p => negb (spec.inPath p))
    (List.filter (generator.keepParam expected) params)
  = List.filter (fun p => negb (spec.inPath p)) params.
Proof.
  induction params as [|p params IH]; [done|].
  cbn [List.filter]. unfold generator.keepParam at 1, spec.inPath at 2.
  destruct (String.eqb (generator.Param.In p) "path") eqn:Hin.
  - cbn [negb]. destruct (bool_decide (generator.Param.Name p ∈ expected)).
    + cbn [List.filter]. unfold spec.inPath at 1. rewrite Hin. exact IH.
    + exact IH.
  - cbn [negb List.filter]. unfold spec.inPath at 1. rewrite Hin.
    cbn [negb]. f_equal. exact IH.
Qed.

Lemma rangeSet_members (o : MapOrder) (s : gset string) (name : string) :
  name ∈ rangeSet o s <-> name ∈ s.
Proof. unfold rangeSet. by rewrite (order_perm o), elem_of_elements. Qed.

Lemma postPath_tokens : spec.pathTokens postPath = {[ "id"; "postId" ]}.
Proof. vm_compute. reflexivity. Qed.

(** The claim as stated fails on the count: a path parameter declared twice
    under a token name is kept twice. *)
Lemma path_parameters_declared_twice :
  spec.pathNames
    (spec.reconciled ascending
       (operationWith [declared "id" "path"; declared "id" "path"]) postPath)
  = ["id"; "id"; "postId"].
Proof. vm_compute. reflexivity. Qed.

Lemma reconciled_unfold (o : MapOrder) (operation : generator.Operation.t)
    (path : string) :
  spec.reconciled o operation path
  = foldl generator.injectParam
      (List.filter (generator.keepParam (spec.pathTokens path))
         (generator.Operation.Parameters operation))
      (rangeSet o (spec.pathTokens path)).
Proof. reflexivity. Qed.

(** C4, amended: after path-parameter reconciliation the names of the
    path-located parameters of an operation are exactly the [{name}] tokens
    of its path: a declared path parameter is kept if and only if its name is
    a token, a required string-typed parameter is injected for every token
    without a declared path parameter, and the other parameters are left as
    they were, in order.  A path parameter declared several times under a
    token name stays declared several times; when the declared path
    parameters carry distinct names, the path-located parameters are one per
    token, so an operation for [/users/{id}/posts/{postId}] then has exactly
    two, named [id] and [postId]. *)
Theorem path_parameters_reconciled (o : MapOrder)
    (operation : generator.Operation.t) (path : string) :
  let declaredParams := generator.Operation.Parameters operation in
  (forall name,
      name ∈ spec.pathNames (spec.reconciled o operation path) <->
      name ∈ spec.pathTokens path) /\
  (forall p,
      p ∈ spec.reconciled o operation path <->
      (p ∈ declaredParams /\
       (spec.inPath p = true -> generator.Param.Name p ∈ spec.pathTokens path))
      \/
      (exists name,
          p = spec.injectedParam name /\ name ∈ spec.pathTokens path /\
          name ∉ spec.pathNames declaredParams)) /\
  List.filter (fun p => negb (spec.inPath p)) (spec.reconciled o operation path)
    = List.filter (fun p => negb (spec.inPath p)) declaredParams /\
  (NoDup (spec.pathNames declaredParams) ->
   spec.pathNames (spec.reconciled o operation path)
     ≡ₚ elements (spec.pathTokens path)) /\
  (NoDup (spec.pathNames declaredParams) ->
   spec.pathNames (spec.reconciled o operation postPath) ≡ₚ ["id"; "postId"]).
Proof.
  intros declaredParams.
  assert (forall path name,
             name ∈ spec.pathNames (spec.reconciled o operation path) <->
             name ∈ spec.pathTokens path) as Hnames.
  { intros path' name. rewrite reconciled_unfold, inject_pathNames, rangeSet_members.
    rewrite kept_pathNames, list_elem_of_In, filter_In, <- list_elem_of_In.
    rewrite bool_decide_eq_true. unfold spec.pathTokens. tauto. }
  assert (forall path,
             NoDup (spec.pathNames declaredParams) ->
             spec.pathNames (spec.reconciled o operation path)
               ≡ₚ elements (spec.pathTokens path)) as Hcount.
  { intros path' Hdistinct. apply NoDup_Permutation.
    - rewrite reconciled_unfold. apply inject_NoDup. rewrite kept_pathNames.
      apply NoDup_ListNoDup, List.NoDup_filter, NoDup_ListNoDup, Hdistinct.
    - apply NoDup_elements.
    - intros name. by rewrite Hnames, elem_of_elements. }
  split; [apply Hnames|]. split; [|split; [|split; [apply Hcount|]]].
  - intros p. rewrite reconciled_unfold, inject_members.
    assert (p ∈ List.filter (generator.keepParam (spec.pathTokens path))
                  declaredParams <->
            p ∈ declaredParams /\
            (spec.inPath p = true ->
             generator.Param.Name p ∈ spec.pathTokens path)) as Hkept.
    { rewrite list_elem_of_In, filter_In, <- list_elem_of_In.
      unfold spec.inPath, generator.keepParam.
      destruct (String.eqb (generator.Param.In p) "path");
        rewrite ?bool_decide_eq_true; naive_solver. }
    assert (forall name,
               (name ∉ spec.pathNames
                         (List.filter
                            (generator.keepParam (spec.pathTokens path))
                            declaredParams)) /\
               name ∈ spec.pathTokens path <->
               (name ∉ spec.pathNames declaredParams) /\
               name ∈ spec.pathTokens path) as Hmissing.
    { intros name.
      rewrite kept_pathNames, list_elem_of_In, filter_In, <- list_elem_of_In.
      rewrite bool_decide_eq_true. tauto. }
    fold declaredParams. rewrite Hkept. apply or_iff_compat_l.
    split; intros (name & H1 & H2 & H3); exists name.
    + apply rangeSet_members in H1.
      destruct (Hmissing name) as [Hm _]. destruct Hm as [Hm _]; done.
    + destruct (Hmissing name) as [_ Hm]. destruct Hm as [Hm _]; [done|].
      split; [by apply rangeSet_members|]. done.
  - by rewrite reconciled_unfold, inject_nonPath, kept_nonPath.
  - intros Hdistinct. rewrite (Hcount postPath Hdistinct), postPath_tokens.
    apply NoDup_Permutation.
    + apply NoDup_elements.
    + repeat constructor; set_solver.
    + intros name. rewrite elem_of_elements. set_solver.
Qed.

Lemma path_parameters_reconciled_witness :
  spec.pathNames
    (spec.reconciled descending
       (operationWith [declared "page" "query"; declared "slug" "path"])
       postPath)
  ≡ₚ ["id"; "postId"].
Proof.
  destruct (path_parameters_reconciled descending
              (operationWith [declared "page" "query"; declared "slug" "path"])
              postPath) as (_ & _ & _ & _ & H).
  apply H. vm_compute. repeat constructor; set_solver.
Defined.

End PathParameters.
(** ** Induction over schema trees and the passes over them *)

Section SchemaTrees.
Import strings generator.

Lemma schemaSize_property (m : gmap string Schema.t) (key : string)
    (v : Schema.t) :
  m !! key = Some v ->
  spec.schemaSize v <= map_fold (fun _ v acc => spec.schemaSize v + acc) 0 m.
Proof.
  intros H. rewrite <- (insert_delete_id m key v H).
  rewrite map_fold_insert_L.
  - lia.
  - intros. lia.
  - apply lookup_delete_eq.
Qed.

Lemma Schema_tree_ind (P : Schema.t -> Prop) :
  (forall s,
      (forall key v, Schema.Properties s !! key = Some v -> P v) ->
      (forall items, Schema.Items s = Some items -> P items) ->
      (forall a, Schema.AdditionalProperties s = AdditionalSchema a -> P a) ->
      P s) ->
  forall s, P s.
Proof.
  intros step s.
  remember (spec.schemaSize s) as n eqn:Hn. revert s Hn.
  induction n as [n IH] using lt_wf_ind. intros s Hn. apply step.
  - intros key v Hv. apply (IH (spec.schemaSize v)); [|done].
    subst n. destruct s. simpl in *.
    pose proof (schemaSize_property _ _ _ Hv). lia.
  - intros items Hi. apply (IH (spec.schemaSize items)); [|done].
    subst n. destruct s. simpl in *. subst. lia.
  - intros a Ha. apply (IH (spec.schemaSize a)); [|done].
    subst n. destruct s. simpl in *. subst. lia.
Qed.

Lemma removeInvalidRefsFromSchema_eq (validSchemas : gset string)
    (schema : Schema.t) :
  removeInvalidRefsFromSchema validSchemas schema =
  if negb (String.eqb (Schema.Ref schema) EmptyString) &&
     negb (bool_decide (TrimPrefix (Schema.Ref schema) refPrefix ∈ validSchemas))
  then Schema.ofType "object"
  else
    Schema.mk (Schema.Type_ schema) (Schema.Format schema)
      (removeInvalidRefsFromSchema validSchemas <$> Schema.Properties schema)
      (removeInvalidRefsFromSchema validSchemas <$> Schema.Items schema)
      (Schema.Required schema)
      match Schema.AdditionalProperties schema with
      | AdditionalSchema additionalSchema =>
          AdditionalSchema
            (removeInvalidRefsFromSchema validSchemas additionalSchema)
      | other => other
      end
      (Schema.Ref schema) (Schema.Example schema) (Schema.Description schema)
      (Schema.Enum schema) (Schema.Default schema).
Proof. by destruct schema. Qed.

Lemma cleanSchema_eq (o : MapOrder) (allSchemas : gmap string Schema.t)
    (schema : Schema.t) :
  cleanSchema o allSchemas schema =
  let ref := if negb (String.eqb (Schema.Ref schema) EmptyString)
             then cleanReference o (Schema.Ref schema) allSchemas
             else EmptyString in
  if negb (String.eqb ref EmptyString) then Schema.ofRef ref
  else
    Schema.mk (Schema.Type_ schema) (Schema.Format schema)
      (cleanProperties o (Schema.Properties schema)
         (cleanSchema o allSchemas <$> Schema.Properties schema))
      (cleanSchema o allSchemas <$> Schema.Items schema)
      (Schema.Required schema)
      match Schema.AdditionalProperties schema with
      | AdditionalSchema additionalSchema =>
          AdditionalSchema (cleanSchema o allSchemas additionalSchema)
      | other => other
      end
      EmptyString (Schema.Example schema) (Schema.Description schema)
      (Schema.Enum schema) (Schema.Default schema).
Proof. by destruct schema. Qed.

Lemma updateSchemaReferences_eq (oldToNewNames : gmap string string)
    (schema : Schema.t) :
  updateSchemaReferences oldToNewNames schema =
  Schema.mk (Schema.Type_ schema) (Schema.Format schema)
    (updateSchemaReferences oldToNewNames <$> Schema.Properties schema)
    (updateSchemaReferences oldToNewNames <$> Schema.Items schema)
    (Schema.Required schema)
    match Schema.AdditionalProperties schema with
    | AdditionalSchema additionalSchema =>
        AdditionalSchema (updateSchemaReferences oldToNewNames additionalSchema)
    | other => other
    end
    (if negb (String.eqb (Schema.Ref schema) EmptyString)
     then updateReference (Schema.Ref schema) oldToNewNames
     else Schema.Ref schema)
    (Schema.Example schema) (Schema.Description schema) (Schema.Enum schema)
    (Schema.Default schema).
Proof. by destruct schema. Qed.

(** A schema built without reference, properties, items or additional
    schema holds no reference. *)
Lemma hasRef_leaf (s : Schema.t) (r : string) :
  Schema.Ref s = EmptyString -> Schema.Properties s = ∅ ->
  Schema.Items s = None ->
  (forall a, Schema.AdditionalProperties s <> AdditionalSchema a) ->
  ~ spec.hasRef s r.
Proof.
  intros Href Hprops Hitems Hadd H. destruct H as [s H|s k v r H _|s i r H _|s a r H _].
  - done.
  - by rewrite Hprops, lookup_empty in H.
  - by rewrite Hitems in H.
  - by apply Hadd in H.
Qed.

Lemma hasRef_inv (s : Schema.t) (r : string) :
  spec.hasRef s r ->
  (Schema.Ref s <> EmptyString /\ r = Schema.Ref s) \/
  (exists key v, Schema.Properties s !! key = Some v /\ spec.hasRef v r) \/
  (exists items, Schema.Items s = Some items /\ spec.hasRef items r) \/
  (exists a, Schema.AdditionalProperties s = AdditionalSchema a /\
             spec.hasRef a r).
Proof. intros []; eauto 10. Qed.

Lemma hasRef_removeInvalidRefs (validSchemas : gset string) (s : Schema.t)
    (r : string) :
  spec.hasRef (removeInvalidRefsFromSchema validSchemas s) r ->
  spec.hasRef s r /\ TrimPrefix r refPrefix ∈ validSchemas.
Proof.
  revert r. induction s as [s IHp IHi IHa] using Schema_tree_ind. intros r.
  rewrite removeInvalidRefsFromSchema_eq.
  destruct (negb (String.eqb (Schema.Ref s) EmptyString) &&
            negb (bool_decide (TrimPrefix (Schema.Ref s) refPrefix ∈ validSchemas)))
    eqn:Hbad.
  - intros H. by apply hasRef_leaf in H.
  - intros H. apply hasRef_inv in H. simpl in H.
    destruct H as [[Href ->]|[(key & v & Hv & H)|[(i & Hi & H)|(a & Ha & H)]]].
    + split; [by constructor|].
      apply andb_false_iff in Hbad as [Hbad|Hbad].
      * apply negb_false_iff, String.eqb_eq in Hbad. done.
      * by apply negb_false_iff, bool_decide_eq_true in Hbad.
    + rewrite lookup_fmap in Hv.
      destruct (Schema.Properties s !! key) as [v0|] eqn:Hv0; [|done].
      injection Hv as <-. destruct (IHp _ _ Hv0 _ H). split; [|done].
      by apply spec.hasRef_property with key v0.
    + destruct (Schema.Items s) as [i0|] eqn:Hi0; [|done].
      injection Hi as <-. destruct (IHi _ eq_refl _ H). split; [|done].
      by apply spec.hasRef_items with i0.
    + destruct (Schema.AdditionalProperties s) as [|b|a0] eqn:Ha0; try done.
      injection Ha as <-. destruct (IHa _ eq_refl _ H). split; [|done].
      by apply spec.hasRef_additional with a0.
Qed.

Lemma rangeKeys_members {A} (o : MapOrder) (m : gmap string A) (key : string) :
  key ∈ rangeKeys o m <-> is_Some (m !! key).
Proof.
  unfold rangeKeys. rewrite (order_perm o), list_elem_of_fmap. split.
  - intros ([k v] & -> & H%elem_of_map_to_list). by exists v.
  - intros [v H]. exists (key, v). split; [done|]. by apply elem_of_map_to_list.
Qed.

Lemma rangeKeys_NoDup {A} (o : MapOrder) (m : gmap string A) :
  NoDup (rangeKeys o m).
Proof.
  unfold rangeKeys. rewrite (order_perm o). apply NoDup_fst_map_to_list.
Qed.

Lemma Split_nonempty (s : string) (sep : ascii) : Split s sep <> [].
Proof.
  destruct s as [|a s]; simpl; [done|].
  destruct (Ascii.eqb a sep); [done|]. by destruct (Split s sep).
Qed.

Lemma cleanReference_resolves (o : MapOrder) (ref : string)
    (allSchemas : gmap string Schema.t) :
  cleanReference o ref allSchemas <> EmptyString ->
  exists name, cleanReference o ref allSchemas = refPrefix +:+ name /\
               is_Some (allSchemas !! name).
Proof.
  unfold cleanReference.
  destruct (String.eqb ref EmptyString); [done|].
  destruct (last (Split ref "/")) as [schemaName|]; [|done].
  destruct (allSchemas !! cleanSchemaName schemaName) eqn:Hfound.
  - intros _. eexists. split; [reflexivity|]. rewrite Hfound. eauto.
  - match goal with
    | |- context [allSchemas !! ?k] => destruct (allSchemas !! k) eqn:Hsimilar
    end; [|done].
    intros _. eexists. split; [reflexivity|]. rewrite Hsimilar. eauto.
Qed.

Lemma cleanProperties_lookup (o : MapOrder)
    (properties cleaned : gmap string Schema.t) (key : string) (v : Schema.t) :
  cleanProperties o properties cleaned !! key = Some v ->
  exists propName, cleaned !! propName = Some v.
Proof.
  unfold cleanProperties.
  assert (forall (keys : list string) (acc : gmap string Schema.t),
             foldl (fun cleanProps propName =>
                      match cleaned !! propName with
                      | Some propSchema =>
                          <[cleanPropertyName propName := propSchema]> cleanProps
                      | None => cleanProps
                      end) acc keys !! key = Some v ->
             acc !! key = Some v \/ exists propName, cleaned !! propName = Some v)
    as Hfold.
  { induction keys as [|k keys IH]; intros acc H; simpl in H; [by left|].
    apply IH in H as [H|H]; [|by right].
    destruct (cleaned !! k) as [propSchema|] eqn:Hk; [|by left].
    destruct (decide (cleanPropertyName k = key)) as [<-|Hne].
    - rewrite lookup_insert_eq in H. injection H as <-. right. by exists k.
    - rewrite lookup_insert_ne in H by done. by left. }
  intros H. apply Hfold in H as [H|H]; [|done]. by rewrite lookup_empty in H.
Qed.

Lemma hasRef_cleanSchema (o : MapOrder) (allSchemas : gmap string Schema.t)
    (s : Schema.t) (r : string) :
  spec.hasRef (cleanSchema o allSchemas s) r ->
  exists name, r = refPrefix +:+ name /\ is_Some (allSchemas !! name).
Proof.
  revert r. induction s as [s IHp IHi IHa] using Schema_tree_ind. intros r.
  rewrite cleanSchema_eq. cbv zeta.
  remember (if negb (String.eqb (Schema.Ref s) EmptyString)
            then cleanReference o (Schema.Ref s) allSchemas
            else EmptyString) as ref eqn:Href.
  destruct (String.eqb ref EmptyString) eqn:Hempty; simpl.
  2:{ intros H. apply hasRef_inv in H. simpl in H.
      destruct H as [[_ ->]|[(key & v & Hv & _)|[(i & Hi & _)|(a & Ha & _)]]];
        try done.
      apply String.eqb_neq in Hempty.
      destruct (negb (String.eqb (Schema.Ref s) EmptyString)); [|done].
      subst ref. by apply cleanReference_resolves. }
  intros H. apply hasRef_inv in H. simpl in H.
  destruct H as [[Hroot _]|[(key & v & Hv & H)|[(i & Hi & H)|(a & Ha & H)]]].
  - done.
  - apply cleanProperties_lookup in Hv as (propName & Hv).
    rewrite lookup_fmap in Hv.
    destruct (Schema.Properties s !! propName) as [v0|] eqn:Hv0; [|done].
    injection Hv as <-. by apply (IHp _ _ Hv0).
  - destruct (Schema.Items s) as [i0|] eqn:Hi0; [|done].
    injection Hi as <-. by apply (IHi _ eq_refl).
  - destruct (Schema.AdditionalProperties s) as [|b|a0] eqn:Ha0; try done.
    injection Ha as <-. by apply (IHa _ eq_refl).
Qed.

Lemma hasRef_updateSchemaReferences (oldToNewNames : gmap string string)
    (s : Schema.t) (r : string) :
  spec.hasRef (updateSchemaReferences oldToNewNames s) r ->
  exists r0, spec.hasRef s r0 /\ r = updateReference r0 oldToNewNames.
Proof.
  revert r. induction s as [s IHp IHi IHa] using Schema_tree_ind. intros r.
  rewrite updateSchemaReferences_eq.
  intros H. apply hasRef_inv in H. simpl in H.
  destruct H as [[Href ->]|[(key & v & Hv & H)|[(i & Hi & H)|(a & Ha & H)]]].
  - destruct (String.eqb (Schema.Ref s) EmptyString) eqn:Hempty; simpl in *.
    + by apply String.eqb_eq in Hempty.
    + apply String.eqb_neq in Hempty. exists (Schema.Ref s).
      split; [by constructor|done].
  - rewrite lookup_fmap in Hv.
    destruct (Schema.Properties s !! key) as [v0|] eqn:Hv0; [|done].
    injection Hv as <-. destruct (IHp _ _ Hv0 _ H) as (r0 & H0 & ->).
    exists r0. split; [|done]. by apply spec.hasRef_property with key v0.
  - destruct (Schema.Items s) as [i0|] eqn:Hi0; [|done].
    injection Hi as <-. destruct (IHi _ eq_refl _ H) as (r0 & H0 & ->).
    exists r0. split; [|done]. by apply spec.hasRef_items with i0.
  - destruct (Schema.AdditionalProperties s) as [|b|a0] eqn:Ha0; try done.
    injection Ha as <-. destruct (IHa _ eq_refl _ H) as (r0 & H0 & ->).
    exists r0. split; [|done]. by apply spec.hasRef_additional with a0.
Qed.

Lemma updateReference_prefix (name : string) (oldToNewNames : gmap string string) :
  exists name', updateReference (refPrefix +:+ name) oldToNewNames
                = refPrefix +:+ name'.
Proof.
  unfold updateReference.
  rewrite HasPrefix_app, TrimPrefix_app. simpl.
  destruct (oldToNewNames !! name); eauto.
Qed.

End SchemaTrees.

(** ** Unresolved references (C9) *)

Section UnresolvedReferences.
Import strings generator fixtures.

Lemma refPrefix_app_nonempty (name : string) :
  String.eqb (refPrefix +:+ name) EmptyString = false.
Proof. reflexivity. Qed.

Lemma cleanReference_cases (o : MapOrder) (ref : string)
    (allSchemas : gmap string Schema.t) :
  ref <> EmptyString ->
  cleanReference o ref allSchemas =
  match allSchemas !! spec.refTarget ref with
  | Some _ => refPrefix +:+ spec.refTarget ref
  | None =>
      match find (fun existingName => EqualFold existingName (spec.refTarget ref))
                 (rangeKeys o allSchemas) with
      | Some existingName => refPrefix +:+ existingName
      | None => EmptyString
      end
  end.
Proof.
  intros Href. unfold cleanReference, spec.refTarget.
  apply String.eqb_neq in Href. rewrite Href.
  destruct (last (Split ref "/")) as [schemaName|] eqn:Hlast.
  2:{ apply last_None in Hlast. by apply Split_nonempty in Hlast. }
  simpl. destruct (allSchemas !! cleanSchemaName schemaName) eqn:Hfound; [done|].
  destruct (find _ (rangeKeys o allSchemas)) as [existingName|] eqn:Hfind.
  - apply find_some in Hfind as [Hin _].
    apply list_elem_of_In, rangeKeys_members in Hin as [v Hv]. by rewrite Hv.
  - by rewrite Hfound.
Qed.

(** The claim as stated fails in both places a reference can stand.  In a
    component schema, the unresolved reference of the property [author] is
    dropped but the schema is left without a type, not made an object; in the
    content of an operation no case-insensitive match is tried. *)
Lemma unresolved_reference_not_generic_object :
  (exists post author,
      schemasOf (Generate ascending config postAnalysis) !! "Post" = Some post /\
      Schema.Properties post !! "author" = Some author /\
      Schema.Ref author = EmptyString /\
      Schema.Type_ author = EmptyString /\
      author <> Schema.ofType "object") /\
  removeInvalidRefsFromSchema {[ "User" ]}
    (updateSchemaReferences {[ "User" := "User" ]}
       (Schema.ofRef (refPrefix +:+ "user")))
  = Schema.ofType "object".
Proof.
  split.
  - do 2 eexists. split; [vm_compute; reflexivity|].
    split; [vm_compute; reflexivity|]. repeat split. discriminate.
  - vm_compute. reflexivity.
Qed.

(** C9, amended: for a schema holding a reference, with [target] the cleaned
    schema name the reference points at.  In the component schemas
    ([cleanSchema]): if [target] is a schema name the reference is rewritten
    to it; if not, and some schema name matches [target] case-insensitively,
    the reference is rewritten to such a name; otherwise the reference is
    dropped and the schema keeps its type, format and description (it is not
    replaced by an object schema).  In the content of operations, and
    wherever a reference is still invalid ([removeInvalidRefsFromSchema]), no
    case-insensitive match is tried: a reference whose name is not exactly a
    schema name has its schema replaced by the generic object schema. *)
Theorem unresolved_references_fall_back (o : MapOrder)
    (allSchemas : gmap string Schema.t) (validSchemas : gset string)
    (schema : Schema.t) :
  Schema.Ref schema <> EmptyString ->
  let target := spec.refTarget (Schema.Ref schema) in
  let cleaned := cleanSchema o allSchemas schema in
  (is_Some (allSchemas !! target) ->
   cleaned = Schema.ofRef (refPrefix +:+ target)) /\
  (allSchemas !! target = None ->
   (exists name, is_Some (allSchemas !! name) /\ EqualFold name target = true) ->
   exists name, is_Some (allSchemas !! name) /\ EqualFold name target = true /\
                cleaned = Schema.ofRef (refPrefix +:+ name)) /\
  (allSchemas !! target = None ->
   (forall name, is_Some (allSchemas !! name) -> EqualFold name target = false) ->
   Schema.Ref cleaned = EmptyString /\
   Schema.Type_ cleaned = Schema.Type_ schema /\
   Schema.Format cleaned = Schema.Format schema /\
   Schema.Description cleaned = Schema.Description schema) /\
  (TrimPrefix (Schema.Ref schema) refPrefix ∉ validSchemas ->
   removeInvalidRefsFromSchema validSchemas schema = Schema.ofType "object").
Proof.
  intros Href target cleaned.
  assert (String.eqb (Schema.Ref schema) EmptyString = false) as Hne
    by by apply String.eqb_neq.
  assert (cleaned =
          if negb (String.eqb (cleanReference o (Schema.Ref schema) allSchemas)
                     EmptyString)
          then Schema.ofRef (cleanReference o (Schema.Ref schema) allSchemas)
          else Schema.mk (Schema.Type_ schema) (Schema.Format schema)
                 (cleanProperties o (Schema.Properties schema)
                    (cleanSchema o allSchemas <$> Schema.Properties schema))
                 (cleanSchema o allSchemas <$> Schema.Items schema)
                 (Schema.Required schema)
                 match Schema.AdditionalProperties schema with
                 | AdditionalSchema additionalSchema =>
                     AdditionalSchema (cleanSchema o allSchemas additionalSchema)
                 | other => other
                 end
                 EmptyString (Schema.Example schema) (Schema.Description schema)
                 (Schema.Enum schema) (Schema.Default schema)) as Hcleaned.
  { unfold cleaned. rewrite cleanSchema_eq. cbv zeta. by rewrite Hne. }
  rewrite (cleanReference_cases _ _ _ Href) in Hcleaned. fold target in Hcleaned.
  split; [|split; [|split]].
  - intros [v Hv]. rewrite Hv in Hcleaned.
    by rewrite refPrefix_app_nonempty in Hcleaned.
  - intros Hnone (name & Hname & Hfold). rewrite Hnone in Hcleaned.
    destruct (find _ (rangeKeys o allSchemas)) as [existingName|] eqn:Hfind.
    + rewrite refPrefix_app_nonempty in Hcleaned.
      apply find_some in Hfind as [Hin Heq].
      apply list_elem_of_In, rangeKeys_members in Hin. by exists existingName.
    + rewrite (find_none _ _ Hfind name) in Hfold; [done|].
      by apply list_elem_of_In, rangeKeys_members.
  - intros Hnone Hall. rewrite Hnone in Hcleaned.
    destruct (find _ (rangeKeys o allSchemas)) as [existingName|] eqn:Hfind.
    + apply find_some in Hfind as [Hin Heq].
      apply list_elem_of_In, rangeKeys_members in Hin.
      by rewrite (Hall _ Hin) in Heq.
    + by rewrite Hcleaned.
  - intros Hinvalid. rewrite removeInvalidRefsFromSchema_eq, Hne.
    by rewrite bool_decide_eq_false_2.
Qed.

Lemma unresolved_references_fall_back_witness :
  cleanSchema descending {[ "User" := Schema.ofType "object" ]}
    (Schema.mk EmptyString EmptyString ∅ None [] NoAdditional
       (refPrefix +:+ "USER") None "the owner" [] None)
  = Schema.ofRef (refPrefix +:+ "User").
Proof.
  destruct (unresolved_references_fall_back descending
              {[ "User" := Schema.ofType "object" ]} ∅
              (Schema.mk EmptyString EmptyString ∅ None [] NoAdditional
                 (refPrefix +:+ "USER") None "the owner" [] None))
    as (_ & H & _).
  - vm_compute. discriminate.
  - destruct H as (name & Hname & Hfold & Hcleaned).
    + vm_compute. reflexivity.
    + exists "User". split; [|vm_compute; reflexivity].
      rewrite lookup_singleton_eq. by eexists.
    + rewrite Hcleaned. destruct Hname as [v Hv].
      apply lookup_singleton_Some in Hv as [<- _]. reflexivity.
Defined.

End UnresolvedReferences.

(** ** The integrity engine on a whole document *)

Section IntegrityEngine.
Import strings generator.

Lemma hasOperation_onOperations (f : Operation.t -> Operation.t)
    (item : PathItem.t) (operation : Operation.t) :
  spec.hasOperation (onOperations f item) operation <->
  exists operation0, spec.hasOperation item operation0 /\ operation = f operation0.
Proof.
  destruct item as [get post put delete patch].
  unfold spec.hasOperation, onOperations. simpl. split.
  - intros [H|[H|[H|[H|H]]]];
      [destruct get as [x|]|destruct post as [x|]|destruct put as [x|]
      |destruct delete as [x|]|destruct patch as [x|]];
      simpl in H; try done; injection H as <-; exists x; tauto.
  - intros (x & [H|[H|[H|[H|H]]]] & ->); rewrite H; simpl; tauto.
Qed.

Lemma slotOf_onOperations (f : Operation.t -> Operation.t) (method : string)
    (item : PathItem.t) :
  spec.slotOf method (onOperations f item) = f <$> spec.slotOf method item.
Proof.
  destruct item. unfold spec.slotOf, onOperations. simpl.
  repeat (match goal with |- context [String.eqb ?a ?b] =>
                            destruct (String.eqb a b) end; [done|]).
  done.
Qed.

Lemma onOperations_compose (f g : Operation.t -> Operation.t) (item : PathItem.t) :
  onOperations f (onOperations g item) = onOperations (f ∘ g) item.
Proof.
  destruct item as [[?|] [?|] [?|] [?|] [?|]]; reflexivity.
Qed.

Lemma ValidateAndCleanSpec_schemas (o : MapOrder) (doc : OpenAPISpec.t) :
  schemasOf (ValidateAndCleanSpec o doc)
  = removeInvalidRefsFromSchema (dom (spec.tableAfterClean o (schemasOf doc)))
      <$> spec.tableAfterClean o (schemasOf doc).
Proof. reflexivity. Qed.

Lemma ValidateAndCleanSpec_paths (o : MapOrder) (doc : OpenAPISpec.t)
    (path : string) :
  OpenAPISpec.Paths (ValidateAndCleanSpec o doc) !! path
  = onOperations
      (spec.finished o (snd (renameSchemas o (schemasOf doc)))
         (dom (spec.tableAfterClean o (schemasOf doc))) path)
      <$> (OpenAPISpec.Paths doc !! path).
Proof.
  unfold ValidateAndCleanSpec, removeInvalidReferences, validatePaths,
    validateSchemas, cleanAllSchemaNames, updateAllReferences. simpl.
  rewrite lookup_fmap, map_lookup_imap, lookup_fmap.
  destruct (OpenAPISpec.Paths doc !! path) as [item|]; [|done]. simpl.
  f_equal. by rewrite !onOperations_compose.
Qed.

Lemma dom_tableAfterClean (o : MapOrder) (schemas : gmap string Schema.t) :
  dom (spec.tableAfterClean o schemas) = dom (spec.tableAfterRename o schemas).
Proof. unfold spec.tableAfterClean. by rewrite dom_fmap_L. Qed.

(** After the engine has run, every reference inside a component schema
    names a key of the schema table, whatever document it started from. *)
Lemma ValidateAndCleanSpec_schema_refs (o : MapOrder) (doc : OpenAPISpec.t)
    (name : string) (s : Schema.t) (r : string) :
  schemasOf (ValidateAndCleanSpec o doc) !! name = Some s ->
  spec.hasRef s r -> spec.resolves (ValidateAndCleanSpec o doc) r.
Proof.
  rewrite ValidateAndCleanSpec_schemas, lookup_fmap. intros Hs Hr.
  destruct (spec.tableAfterClean o (schemasOf doc) !! name) as [s2|] eqn:Hs2;
    [|done].
  injection Hs as <-. apply hasRef_removeInvalidRefs in Hr as [Hr _].
  unfold spec.tableAfterClean in Hs2. rewrite lookup_fmap in Hs2.
  destruct (spec.tableAfterRename o (schemasOf doc) !! name) as [s1|]; [|done].
  injection Hs2 as <-.
  apply hasRef_cleanSchema in Hr as (target & -> & Htarget).
  exists target. split; [done|].
  rewrite ValidateAndCleanSpec_schemas.
  apply elem_of_dom. rewrite dom_fmap_L, dom_tableAfterClean.
  by apply elem_of_dom.
Qed.

End IntegrityEngine.

(** ** Operations of a generated document *)

Section GeneratedOperations.
Import strings generator.

Lemma inContent_onContent (f : Schema.t -> Schema.t) (operation : Operation.t)
    (s : Schema.t) :
  spec.inContent (onContent f operation) s <->
  exists s0, spec.inContent operation s0 /\ s = f s0.
Proof.
  unfold spec.inContent, onContent. simpl. split.
  - intros [(body & mediaType & media & Hbody & Hmedia & <-)
           |(code & response & mediaType & media & Hresp & Hmedia & <-)].
    + destruct (Operation.RequestBody_ operation) as [body0|] eqn:Hbody0;
        [|done].
      injection Hbody as <-. simpl in Hmedia. rewrite lookup_fmap in Hmedia.
      destruct (RequestBody.Content body0 !! mediaType) as [media0|] eqn:Hm0;
        [|done].
      injection Hmedia as <-. exists (MediaType.Schema_ media0).
      split; [|done]. left. by exists body0, mediaType, media0.
    + rewrite lookup_fmap in Hresp.
      destruct (Operation.Responses operation !! code) as [response0|] eqn:Hr0;
        [|done].
      injection Hresp as <-. simpl in Hmedia. rewrite lookup_fmap in Hmedia.
      destruct (Response.Content response0 !! mediaType) as [media0|] eqn:Hm0;
        [|done].
      injection Hmedia as <-. exists (MediaType.Schema_ media0).
      split; [|done]. right. by exists code, response0, mediaType, media0.
  - intros (s0 & [(body & mediaType & media & Hbody & Hmedia & <-)
                 |(code & response & mediaType & media & Hresp & Hmedia & <-)]
               & ->).
    + left. rewrite Hbody. simpl. eexists _, mediaType, _.
      split; [done|]. simpl. rewrite lookup_fmap, Hmedia. done.
    + right. eexists code, _, mediaType, _. rewrite lookup_fmap, Hresp. simpl.
      split; [done|]. simpl. rewrite lookup_fmap, Hmedia. done.
Qed.

Lemma refContent_lookup (name mediaType : string) (media : MediaType.t) :
  refContent name !! mediaType = Some media ->
  MediaType.Schema_ media = Schema.ofRef (refPrefix +:+ name).
Proof.
  unfold refContent. intros [_ <-]%lookup_singleton_Some. done.
Qed.

(** The content of a freshly generated operation holds bare references. *)
Lemma inContent_generateOperation (route : analyzer.Route.t) (s : Schema.t) :
  spec.inContent (generateOperation route) s ->
  exists name, s = Schema.ofRef (refPrefix +:+ name).
Proof.
  unfold spec.inContent, generateOperation. simpl.
  intros [(body & mediaType & media & Hbody & Hmedia & <-)
         |(code & response & mediaType & media & Hresp & Hmedia & <-)].
  - destruct (analyzer.Route.RequestBody route) as [model|]; [|done].
    injection Hbody as <-. simpl in Hmedia.
    apply refContent_lookup in Hmedia. eauto.
  - apply lookup_insert_Some in Hresp as [[_ <-]|[_ Hresp]];
      [apply refContent_lookup in Hmedia; eauto|].
    apply lookup_insert_Some in Hresp as [[_ <-]|[_ Hresp]];
      [apply refContent_lookup in Hmedia; eauto|].
    apply lookup_insert_Some in Hresp as [[_ <-]|[_ Hresp]];
      [|by rewrite lookup_empty in Hresp].
    destruct (analyzer.Route.Response route); simpl in Hmedia.
    + apply refContent_lookup in Hmedia. eauto.
    + by rewrite lookup_empty in Hmedia.
Qed.

Lemma generateParameterSchema_shape (param : analyzer.Param.t) :
  let schema := generateParameterSchema param in
  Schema.Ref schema = EmptyString /\ Schema.Properties schema = ∅ /\
  Schema.AdditionalProperties schema = NoAdditional /\
  (Schema.Items schema = None \/
   Schema.Items schema = Some (Schema.ofType "string")).
Proof.
  unfold generateParameterSchema.
  repeat match goal with
         | |- context [if ?b then _ else _] => destruct b
         end; simpl; auto.
Qed.

(** The schema of a parameter never holds a reference. *)
Lemma operationParameter_no_ref (param : analyzer.Param.t) (r : string) :
  ~ spec.hasRef (Param.Schema_ (operationParameter param)) r.
Proof.
  destruct (generateParameterSchema_shape param) as (Href & Hprops & Hadd & Hitems).
  intros H. apply hasRef_inv in H. simpl in H.
  destruct H as [[H _]|[(key & v & Hv & _)|[(i & Hi & H)|(a & Ha & _)]]].
  - done.
  - by rewrite Hprops, lookup_empty in Hv.
  - destruct Hitems as [Hnone|Hsome]; [congruence|].
    rewrite Hsome in Hi. injection Hi as <-. by apply hasRef_leaf in H.
  - congruence.
Qed.

Lemma hasOperation_setOperation (method : string) (operation x : Operation.t)
    (item : PathItem.t) :
  spec.hasOperation (setOperation method operation item) x ->
  x = operation \/ spec.hasOperation item x.
Proof.
  destruct item as [get post put delete patch].
  unfold setOperation, spec.hasOperation.
  repeat match goal with
         | |- context [if ?b then _ else _] => destruct b
         end; simpl; intros [H|[H|[H|[H|H]]]];
    try (injection H as <-; by left); tauto.
Qed.

Lemma hasOperation_zero (x : Operation.t) : ~ spec.hasOperation PathItem.zero x.
Proof. unfold spec.hasOperation. simpl. intros [H|[H|[H|[H|H]]]]; done. Qed.

(** Every operation in the paths the route loop builds was generated from
    one of the routes, or was there before. *)
Lemma addRoute_operations (routes : list analyzer.Route.t) (st : PathsState)
    (path : string) (item : PathItem.t) (x : Operation.t) :
  paths (foldl addRoute st routes) !! path = Some item ->
  spec.hasOperation item x ->
  (exists route, route ∈ routes /\ x = generateOperation route) \/
  (exists path0 item0, paths st !! path0 = Some item0 /\
                       spec.hasOperation item0 x).
Proof.
  revert st. induction routes as [|route routes IH]; intros st Hitem Hx; simpl in *.
  - right. eauto.
  - destruct (IH _ Hitem Hx) as [(route' & Hin & ->)|(path0 & item0 & H0 & Hx0)].
    + left. exists route'. split; [by apply list_elem_of_further|done].
    + unfold addRoute in H0.
      destruct (bool_decide _); [right; eauto|]. simpl in H0.
      apply lookup_insert_Some in H0 as [[_ <-]|[_ H0]]; [|right; eauto].
      apply hasOperation_setOperation in Hx0 as [->|Hx0].
      * left. exists route. split; [apply list_elem_of_here|done].
      * destruct (paths st !! _) as [item1|] eqn:H1; simpl in Hx0.
        -- right. eauto.
        -- by apply hasOperation_zero in Hx0.
Qed.

Lemma draftPaths_operations (routes : list analyzer.Route.t) (path : string)
    (item : PathItem.t) (x : Operation.t) :
  spec.draftPaths routes !! path = Some item ->
  spec.hasOperation item x ->
  exists route, route ∈ routes /\ x = generateOperation route.
Proof.
  intros Hitem Hx.
  destruct (addRoute_operations _ _ _ _ _ Hitem Hx)
    as [H|(path0 & item0 & H0 & _)]; [done|].
  simpl in H0. by rewrite lookup_empty in H0.
Qed.

Lemma Generate_eq (o : MapOrder) (config : Config.t)
    (analysis : analyzer.Analysis) :
  exists draft,
    Generate o config analysis = ValidateAndCleanSpec o draft /\
    OpenAPISpec.Paths draft = spec.draftPaths (analyzer.Routes analysis) /\
    schemasOf draft = withBaseline (modelSchemas o (analyzer.Models analysis)).
Proof. eexists. split; [reflexivity|]. split; reflexivity. Qed.

Lemma validated_parameter (o : MapOrder) (operation : Operation.t)
    (pathParams : list (list string)) (param : Param.t) :
  param ∈ Operation.Parameters
            (validateOperationParameters o operation pathParams) ->
  param ∈ Operation.Parameters operation \/
  exists name, param = spec.injectedParam name.
Proof.
  unfold validateOperationParameters. simpl.
  intros [H|(name & _ & -> & _)]%inject_members; [|eauto].
  left. apply list_elem_of_In, filter_In in H as [H _].
  by apply list_elem_of_In.
Qed.

(** No dangling references: every reference string that occurs anywhere in
    a synthesized document (in a component schema, its properties, items and
    additional-properties schemas, in the request-body and response content
    of an operation, in the schema of a parameter) is the reference prefix
    followed by a key of the components schema table, whatever the Analysis
    and the enumeration order of the maps. *)
Theorem Generate_no_dangling_references (o : MapOrder) (config : Config.t)
    (analysis : analyzer.Analysis) (r : string) :
  spec.docRef (Generate o config analysis) r ->
  spec.resolves (Generate o config analysis) r.
Proof.
  destruct (Generate_eq o config analysis) as (draft & -> & Hpaths & _).
  intros [name s Hs Hr|path item x s Hitem Hx Hs Hr].
  - by apply ValidateAndCleanSpec_schema_refs with name s.
  - rewrite ValidateAndCleanSpec_paths, Hpaths in Hitem.
    destruct (spec.draftPaths _ !! path) as [item0|] eqn:Hitem0; [|done].
    injection Hitem as <-.
    apply hasOperation_onOperations in Hx as (x0 & Hx0 & ->).
    destruct (draftPaths_operations _ _ _ _ Hitem0 Hx0) as (route & _ & ->).
    destruct Hs as [Hs|(param & Hparam & <-)].
    + unfold spec.finished, removeInvalidRefsFromOperation in Hs.
      apply inContent_onContent in Hs as (s1 & Hs1 & ->).
      change (spec.inContent
                (onContent
                   (updateSchemaReferences
                      (snd (renameSchemas o (schemasOf draft))))
                   (generateOperation route)) s1) in Hs1.
      apply inContent_onContent in Hs1 as (s0 & Hs0 & ->).
      apply inContent_generateOperation in Hs0 as (target & ->).
      apply hasRef_removeInvalidRefs in Hr as [Hr Hvalid].
      apply hasRef_updateSchemaReferences in Hr as (r0 & Hr0 & ->).
      apply hasRef_inv in Hr0. simpl in Hr0.
      destruct Hr0 as [[_ ->]|[(key & v & Hv & _)|[(i & Hi & _)|(a & Ha & _)]]];
        try done.
      destruct (updateReference_prefix target
                  (snd (renameSchemas o (schemasOf draft)))) as (name' & Hname').
      rewrite Hname' in *. rewrite TrimPrefix_app in Hvalid.
      exists name'. split; [done|].
      rewrite ValidateAndCleanSpec_schemas. apply elem_of_dom.
      by rewrite dom_fmap_L.
    + exfalso. unfold spec.finished, removeInvalidRefsFromOperation in Hparam.
      simpl in Hparam.
      change (param ∈ Operation.Parameters
                        (validateOperationParameters o
                           (updateOperationReferences
                              (snd (renameSchemas o (schemasOf draft)))
                              (generateOperation route))
                           (findPathParams 0 path))) in Hparam.
      apply validated_parameter in Hparam as [Hparam|(name' & ->)].
      * simpl in Hparam.
        apply list_elem_of_fmap in Hparam as (p0 & -> & _).
        by apply operationParameter_no_ref in Hr.
      * by apply hasRef_leaf in Hr.
Qed.

Lemma Generate_no_dangling_references_witness :
  spec.resolves (Generate ascending fixtures.config fixtures.usersAnalysis)
    (refPrefix +:+ "ErrorResponse").
Proof.
  apply (Generate_no_dangling_references ascending fixtures.config
           fixtures.usersAnalysis).
  eapply (spec.docRef_operation _ _ "/v1/users/{id}").
  - vm_compute. reflexivity.
  - left. reflexivity.
  - left. right. eexists "400", _, "application/json", _.
    split; [vm_compute; reflexivity|].
    split; [vm_compute; reflexivity|reflexivity].
  - apply (spec.hasRef_root (Schema.ofRef (refPrefix +:+ "ErrorResponse"))).
    discriminate.
Defined.

End GeneratedOperations.

(** ** Operations are keyed by method and normalized path *)

Section RouteKeys.
Import strings generator.

Lemma pathKey_inj (m1 m2 p1 p2 : string) :
  IndexByte m1 ":" = None -> IndexByte m2 ":" = None ->
  m1 +:+ ":" +:+ p1 = m2 +:+ ":" +:+ p2 -> m1 = m2 /\ p1 = p2.
Proof.
  revert m2. induction m1 as [|a m1 IH]; intros [|b m2] H1 H2 Heq.
  - change (String ":" p1 = String ":" p2) in Heq. by injection Heq.
  - change (String ":" p1 = String b (m2 +:+ ":" +:+ p2)) in Heq.
    injection Heq as <- _. simpl in H2. done.
  - change (String a (m1 +:+ ":" +:+ p1) = String ":" p2) in Heq.
    injection Heq as -> _. simpl in H1. done.
  - change (String a (m1 +:+ ":" +:+ p1) = String b (m2 +:+ ":" +:+ p2)) in Heq.
    injection Heq as -> Heq.
    simpl in H1, H2. destruct (Ascii.eqb b ":"); [done|].
    destruct (IndexByte m1 ":") eqn:E1; [done|].
    destruct (IndexByte m2 ":") eqn:E2; [done|].
    destruct (IH m2 eq_refl E2 Heq) as [-> ->]. done.
Qed.

Lemma isHTTPMethod_cases (method : string) :
  analyzer.isHTTPMethod method = true ->
  method ∈ ["GET"; "POST"; "PUT"; "DELETE"; "PATCH"; "HEAD"; "OPTIONS"].
Proof.
  unfold analyzer.isHTTPMethod. rewrite existsb_exists.
  intros (x & Hx & ->%String.eqb_eq). by apply list_elem_of_In.
Qed.

Lemma isHTTPMethod_no_colon (method : string) :
  analyzer.isHTTPMethod method = true -> IndexByte method ":" = None.
Proof.
  intros H%isHTTPMethod_cases.
  repeat (apply elem_of_cons in H as [->|H]; [reflexivity|]).
  by apply elem_of_nil in H.
Qed.

Lemma verb_isHTTPMethod (verb : string) :
  verb ∈ ["GET"; "POST"; "PUT"; "DELETE"; "PATCH"] ->
  analyzer.isHTTPMethod verb = true.
Proof.
  intros H.
  repeat (apply elem_of_cons in H as [->|H]; [reflexivity|]).
  by apply elem_of_nil in H.
Qed.

(** Among the recognized methods, the slot a route is stored in determines
    its method. *)
Lemma slotOf_setOperation (verb method : string) (x : Operation.t)
    (item : PathItem.t) :
  verb ∈ ["GET"; "POST"; "PUT"; "DELETE"; "PATCH"] ->
  analyzer.isHTTPMethod method = true ->
  spec.slotOf (ToLower verb) (setOperation (ToLower method) x item)
  = if String.eqb method verb then Some x
    else spec.slotOf (ToLower verb) item.
Proof.
  intros Hverb Hmethod%isHTTPMethod_cases. destruct item.
  repeat (apply elem_of_cons in Hverb as [->|Hverb];
          [repeat (apply elem_of_cons in Hmethod as [->|Hmethod];
                   [reflexivity|]);
           by apply elem_of_nil in Hmethod|]).
  by apply elem_of_nil in Hverb.
Qed.

Lemma slotOf_zero (method : string) : spec.slotOf method PathItem.zero = None.
Proof.
  unfold spec.slotOf.
  repeat match goal with
         | |- context [if ?b then _ else _] => destruct b
         end; done.
Qed.

Lemma addRoute_step (st : PathsState) (route : analyzer.Route.t) :
  let routePath := convertPathFormat (analyzer.Route.Path route) in
  let pathKey := analyzer.Route.Method route +:+ ":" +:+ routePath in
  addRoute st route =
  if bool_decide (pathKey ∈ processedPaths st) then st
  else mkPathsState
         (<[routePath :=
              setOperation (ToLower (analyzer.Route.Method route))
                (generateOperation route)
                (default PathItem.zero (paths st !! routePath))]> (paths st))
         (list_to_set (analyzer.Route.Tags route) ∪ tags st)
         ({[pathKey]} ∪ processedPaths st).
Proof. reflexivity. Qed.

Lemma addRoute_slot (routes : list analyzer.Route.t) (st : PathsState)
    (verb path : string) :
  Forall (fun route => analyzer.isHTTPMethod (analyzer.Route.Method route) = true)
         routes ->
  verb ∈ ["GET"; "POST"; "PUT"; "DELETE"; "PATCH"] ->
  spec.operationAt verb path (paths (foldl addRoute st routes))
  = if bool_decide (verb +:+ ":" +:+ path ∈ processedPaths st)
    then spec.operationAt verb path (paths st)
    else match find (spec.hasKey verb path) routes with
         | Some route => Some (generateOperation route)
         | None => spec.operationAt verb path (paths st)
         end.
Proof.
  intros Hmethods Hverb. revert st.
  induction Hmethods as [|route routes Hmethod _ IH]; intros st.
  - simpl. by destruct (bool_decide _).
  - cbn [foldl find]. rewrite IH. clear IH. rewrite addRoute_step. cbv zeta.
    set (routePath := convertPathFormat (analyzer.Route.Path route)).
    set (method := analyzer.Route.Method route).
    assert (spec.hasKey verb path route = true <->
            method +:+ ":" +:+ routePath = verb +:+ ":" +:+ path) as Hkey.
    { unfold spec.hasKey. fold method routePath.
      rewrite andb_true_iff, !String.eqb_eq. split; [by intros [-> ->]|].
      apply pathKey_inj; apply isHTTPMethod_no_colon; [done|].
      by apply verb_isHTTPMethod. }
    destruct (bool_decide (method +:+ ":" +:+ routePath ∈ processedPaths st))
      eqn:Hseen.
    + destruct (bool_decide (verb +:+ ":" +:+ path ∈ processedPaths st))
        eqn:Hdone; [done|].
      destruct (spec.hasKey verb path route) eqn:Hhas; [|done].
      apply bool_decide_eq_true in Hseen. apply bool_decide_eq_false in Hdone.
      destruct Hdone. destruct Hkey as [Hkey _]. by rewrite <- Hkey.
    + cbn [processedPaths paths]. apply bool_decide_eq_false in Hseen.
      destruct (spec.hasKey verb path route) eqn:Hhas.
      * destruct Hkey as [Hkey _]. specialize (Hkey eq_refl).
        rewrite <- Hkey. rewrite bool_decide_eq_true_2 by set_solver.
        rewrite bool_decide_eq_false_2 by done.
        apply andb_true_iff in Hhas as [Hm Hp].
        apply String.eqb_eq in Hp. fold routePath in Hp. subst path.
        unfold spec.operationAt. rewrite lookup_insert_eq. simpl.
        rewrite slotOf_setOperation by done. unfold method. by rewrite Hm.
      * assert (method +:+ ":" +:+ routePath <> verb +:+ ":" +:+ path) as Hne.
        { intros Heq. apply Hkey in Heq. done. }
        assert (spec.operationAt verb path (paths st)
                = spec.operationAt verb path
                    (<[routePath :=
                         setOperation (ToLower method) (generateOperation route)
                           (default PathItem.zero (paths st !! routePath))]>
                       (paths st))) as <-.
        { unfold spec.operationAt.
          destruct (decide (routePath = path)) as [->|Hp].
          - rewrite lookup_insert_eq. simpl.
            rewrite slotOf_setOperation by done.
            destruct (String.eqb method verb) eqn:Hm.
            + apply String.eqb_eq in Hm. by subst.
            + destruct (paths st !! path); [done|]. simpl.
              by rewrite slotOf_zero.
          - by rewrite lookup_insert_ne. }
        destruct (bool_decide (verb +:+ ":" +:+ path ∈ processedPaths st))
          eqn:Hdone.
        -- apply bool_decide_eq_true in Hdone.
           by rewrite bool_decide_eq_true_2 by set_solver.
        -- apply bool_decide_eq_false in Hdone.
           by rewrite bool_decide_eq_false_2 by set_solver.
Qed.

(** Operations are keyed by method and normalized path, first route first:
    when every route carries one of the methods the route parser recognizes,
    the slot of a path item for GET, POST, PUT, DELETE or PATCH holds the
    operation generated from the first route of the list with that method
    and that normalized path, as the three passes of the integrity engine
    leave it, and holds nothing when there is no such route; routes with
    another recognized method (HEAD, OPTIONS) fill no slot. *)
Theorem Generate_first_route_wins (o : MapOrder) (config : Config.t)
    (analysis : analyzer.Analysis) :
  Forall (fun route => analyzer.isHTTPMethod (analyzer.Route.Method route) = true)
         (analyzer.Routes analysis) ->
  exists oldToNewNames validSchemas,
    forall verb path,
      verb ∈ ["GET"; "POST"; "PUT"; "DELETE"; "PATCH"] ->
      spec.operationAt verb path
        (OpenAPISpec.Paths (Generate o config analysis))
      = spec.finished o oldToNewNames validSchemas path
          <$> (generateOperation
                 <$> find (spec.hasKey verb path) (analyzer.Routes analysis)).
Proof.
  intros Hmethods.
  destruct (Generate_eq o config analysis) as (draft & -> & Hpaths & _).
  eexists _, _. intros verb path Hverb.
  unfold spec.operationAt.
  rewrite ValidateAndCleanSpec_paths, Hpaths.
  pose proof (addRoute_slot _ (mkPathsState ∅ ∅ ∅) verb path Hmethods Hverb)
    as Hslot.
  rewrite bool_decide_eq_false_2 in Hslot by set_solver.
  fold (spec.draftPaths (analyzer.Routes analysis)) in Hslot.
  unfold spec.operationAt in Hslot. simpl in Hslot.
  rewrite lookup_empty in Hslot. simpl in Hslot.
  destruct (spec.draftPaths (analyzer.Routes analysis) !! path) as [item|];
    simpl in *.
  - rewrite slotOf_onOperations, Hslot.
    by destruct (find _ _).
  - by destruct (find _ _).
Qed.

Lemma Generate_first_route_wins_witness :
  exists oldToNewNames validSchemas,
    forall verb path,
      verb ∈ ["GET"; "POST"; "PUT"; "DELETE"; "PATCH"] ->
      spec.operationAt verb path
        (OpenAPISpec.Paths (Generate ascending fixtures.config
                              fixtures.usersAnalysis))
      = spec.finished ascending oldToNewNames validSchemas path
          <$> (generateOperation
                 <$> find (spec.hasKey verb path)
                       (analyzer.Routes fixtures.usersAnalysis)).
Proof.
  apply (Generate_first_route_wins ascending fixtures.config
           fixtures.usersAnalysis).
  repeat constructor.
Defined.

End RouteKeys.

(** ** Canonical schema names *)

Section SchemaNames.
Import strings generator.

Lemma allBytes_app (p : ascii -> bool) (s t : string) :
  spec.allBytes p (s +:+ t) = spec.allBytes p s && spec.allBytes p t.
Proof.
  induction s as [|c s IH]; [done|].
  rewrite app_cons. simpl. by rewrite IH, andb_assoc.
Qed.

Lemma allBytes_filterBytes (p : ascii -> bool) (s : string) :
  spec.allBytes p (filterBytes p s) = true.
Proof.
  induction s as [|c s IH]; [done|]. simpl.
  destruct (p c) eqn:Hc; [|done]. simpl. by rewrite Hc.
Qed.

Lemma filterBytes_all (p : ascii -> bool) (s : string) :
  spec.allBytes p s = true -> filterBytes p s = s.
Proof.
  induction s as [|c s IH]; [done|]. simpl.
  intros [Hc Hs]%andb_true_iff. rewrite Hc. f_equal. by apply IH.
Qed.

Lemma ReplaceAll_absent (p : ascii -> bool) (s : string) (old : ascii)
    (new : string) :
  p old = false -> spec.allBytes p s = true -> ReplaceAll s old new = s.
Proof.
  intros Hold. induction s as [|c s IH]; [done|]. simpl.
  intros [Hc Hs]%andb_true_iff.
  destruct (Ascii.eqb c old) eqn:Heq.
  - apply Ascii.eqb_eq in Heq. congruence.
  - f_equal. by apply IH.
Qed.

Lemma LastIndexByte_absent (p : ascii -> bool) (s : string) (c : ascii) :
  p c = false -> spec.allBytes p s = true -> LastIndexByte s c = None.
Proof.
  intros Hc. induction s as [|a s IH]; [done|]. simpl.
  intros [Ha Hs]%andb_true_iff. rewrite (IH Hs).
  destruct (Ascii.eqb a c) eqn:Heq; [|done].
  apply Ascii.eqb_eq in Heq. congruence.
Qed.

Lemma validName_nonempty (name : string) :
  spec.validName name = true -> String.eqb name EmptyString = false.
Proof. by destruct name. Qed.

(** A valid name is a fixed point of [cleanSchemaName]. *)
Lemma cleanSchemaName_fixed (name : string) :
  spec.validName name = true -> cleanSchemaName name = name.
Proof.
  intros Hvalid. pose proof (validName_nonempty _ Hvalid) as Hne.
  apply andb_true_iff in Hvalid as [Hletter Hall].
  unfold cleanSchemaName. cbv zeta.
  rewrite (ReplaceAll_absent isWordByte) by done.
  rewrite (LastIndexByte_absent isWordByte) by done.
  rewrite filterBytes_all by done.
  rewrite Hne, Hletter. simpl. by rewrite Hne.
Qed.

Lemma cleanSchemaName_valid (name : string) :
  spec.validName (cleanSchemaName name) = true.
Proof.
  unfold cleanSchemaName. cbv zeta.
  set (cleaned := filterBytes isWordByte _).
  assert (spec.allBytes isWordByte cleaned = true) as Hall
    by apply allBytes_filterBytes.
  destruct (String.eqb cleaned EmptyString) eqn:Hempty; simpl.
  - by rewrite Hempty.
  - destruct (startsWithLetter cleaned) eqn:Hletter; simpl.
    + rewrite Hempty. unfold spec.validName. by rewrite Hletter, Hall.
    + change (String.eqb ("Schema" +:+ cleaned) EmptyString) with false.
      cbv iota. unfold spec.validName.
      rewrite allBytes_app, Hall. reflexivity.
Qed.

Lemma cleanSchemaName_again (name : string) :
  cleanSchemaName (cleanSchemaName name) = cleanSchemaName name.
Proof. apply cleanSchemaName_fixed, cleanSchemaName_valid. Qed.

(** Canonical names: whatever the raw name, [cleanSchemaName] returns a
    non-empty name that starts with a letter and holds only letters, digits
    and underscores, and cleaning a cleaned name changes nothing. *)
Theorem cleanSchemaName_canonical (name : string) :
  spec.validName (cleanSchemaName name) = true /\
  cleanSchemaName (cleanSchemaName name) = cleanSchemaName name.
Proof.
  split; [apply cleanSchemaName_valid|apply cleanSchemaName_again].
Qed.

End SchemaNames.

(** ** The names of the schema table *)

Section SchemaTableNames.
Import strings generator.

Lemma renameSchemas_names (o : MapOrder) (schemas : gmap string Schema.t)
    (name : string) :
  is_Some (fst (renameSchemas o schemas) !! name) <->
  exists oldName, is_Some (schemas !! oldName) /\ cleanSchemaName oldName = name.
Proof.
  unfold renameSchemas.
  assert (forall (keys : list string)
                 (acc : gmap string Schema.t * gmap string string),
             is_Some (fst (foldl (fun acc oldName =>
                        match schemas !! oldName with
                        | Some schema =>
                            (<[cleanSchemaName oldName := schema]> (fst acc),
                             <[oldName := cleanSchemaName oldName]> (snd acc))
                        | None => acc
                        end) acc keys) !! name) <->
             is_Some (fst acc !! name) \/
             exists oldName, oldName ∈ keys /\ is_Some (schemas !! oldName) /\
                             cleanSchemaName oldName = name) as Hfold.
  { induction keys as [|k keys IH]; intros acc; simpl.
    - split; [by left|]. intros [H|(x & H%elem_of_nil & _)]; done.
    - rewrite IH. clear IH. destruct (schemas !! k) as [schema|] eqn:Hk; simpl.
      + rewrite lookup_insert_is_Some. split.
        * intros [[<-|[_ H]]|(x & Hx & Hs & Hn)].
          -- right. exists k. rewrite Hk. split; [apply list_elem_of_here|].
             split; [by eexists|done].
          -- by left.
          -- right. exists x. split; [by apply list_elem_of_further|done].
        * intros [H|(x & Hx & Hs & Hn)].
          -- left. destruct (decide (cleanSchemaName k = name)); [by left|].
             by right.
          -- apply elem_of_cons in Hx as [->|Hx]; [by left; left|].
             right. by exists x.
      + split.
        * intros [H|(x & Hx & Hs & Hn)]; [by left|].
          right. exists x. split; [by apply list_elem_of_further|done].
        * intros [H|(x & Hx & Hs & Hn)]; [by left|].
          apply elem_of_cons in Hx as [->|Hx].
          -- rewrite Hk in Hs. by destruct Hs.
          -- right. by exists x. }
  rewrite Hfold. simpl. rewrite lookup_empty. split.
  - intros [[? H]|(x & _ & H)]; [done|]. by exists x.
  - intros (x & Hs & Hn). right. exists x.
    split; [by apply rangeKeys_members|done].
Qed.

Lemma is_Some_fmap_lookup {A B} (f : A -> B) (m : gmap string A) (k : string) :
  is_Some ((f <$> m) !! k) <-> is_Some (m !! k).
Proof. rewrite lookup_fmap. apply fmap_is_Some. Qed.

Lemma ValidateAndCleanSpec_names (o : MapOrder) (doc : OpenAPISpec.t)
    (name : string) :
  is_Some (schemasOf (ValidateAndCleanSpec o doc) !! name) <->
  exists oldName, is_Some (schemasOf doc !! oldName) /\
                  cleanSchemaName oldName = name.
Proof.
  rewrite ValidateAndCleanSpec_schemas, is_Some_fmap_lookup.
  unfold spec.tableAfterClean, spec.tableAfterRename.
  rewrite !is_Some_fmap_lookup. apply renameSchemas_names.
Qed.

(** The engine only renames: the names of the schema table it returns are
    exactly the cleaned names of the table it was given, and each of them is
    a valid schema name. *)
Theorem ValidateAndCleanSpec_schema_names (o : MapOrder) (doc : OpenAPISpec.t)
    (name : string) :
  (is_Some (schemasOf (ValidateAndCleanSpec o doc) !! name) <->
   exists oldName, is_Some (schemasOf doc !! oldName) /\
                   cleanSchemaName oldName = name) /\
  (is_Some (schemasOf (ValidateAndCleanSpec o doc) !! name) ->
   spec.validName name = true).
Proof.
  split; [apply ValidateAndCleanSpec_names|].
  intros (oldName & _ & <-)%ValidateAndCleanSpec_names.
  apply cleanSchemaName_valid.
Qed.

Lemma modelSchemas_names (o : MapOrder) (models : gmap string analyzer.Model.t)
    (name : string) :
  is_Some (modelSchemas o models !! name) <->
  exists key model, models !! key = Some model /\
                    cleanSchemaName (analyzer.Model.Name model) = name.
Proof.
  unfold modelSchemas.
  assert (forall (keys : list string) (acc : gmap string Schema.t),
             is_Some (foldl (fun schemas key =>
                        match models !! key with
                        | Some model =>
                            <[cleanSchemaName (analyzer.Model.Name model) :=
                                generateSchemaFromModel model]> schemas
                        | None => schemas
                        end) acc keys !! name) <->
             is_Some (acc !! name) \/
             exists key model, key ∈ keys /\ models !! key = Some model /\
                               cleanSchemaName (analyzer.Model.Name model) = name)
    as Hfold.
  { induction keys as [|k keys IH]; intros acc; simpl.
    - split; [by left|]. intros [H|(x & m & H%elem_of_nil & _)]; done.
    - rewrite IH. clear IH. destruct (models !! k) as [model|] eqn:Hk.
      + rewrite lookup_insert_is_Some. split.
        * intros [[<-|[_ H]]|(x & m & Hx & Hm & Hn)].
          -- right. exists k, model. split; [apply list_elem_of_here|done].
          -- by left.
          -- right. exists x, m. split; [by apply list_elem_of_further|done].
        * intros [H|(x & m & Hx & Hm & Hn)].
          -- left.
             destruct (decide (cleanSchemaName (analyzer.Model.Name model) = name));
               [by left|by right].
          -- apply elem_of_cons in Hx as [->|Hx].
             ++ rewrite Hk in Hm. injection Hm as <-. by left; left.
             ++ right. by exists x, m.
      + split.
        * intros [H|(x & m & Hx & Hm & Hn)]; [by left|].
          right. exists x, m. split; [by apply list_elem_of_further|done].
        * intros [H|(x & m & Hx & Hm & Hn)]; [by left|].
          apply elem_of_cons in Hx as [->|Hx]; [congruence|].
          right. by exists x, m. }
  rewrite Hfold, lookup_empty. split.
  - intros [[? H]|(x & m & _ & H)]; [done|]. by exists x, m.
  - intros (x & m & Hm & Hn). right. exists x, m.
    split; [apply rangeKeys_members; by eexists|done].
Qed.

Lemma withBaseline_names (schemas : gmap string Schema.t) (name : string) :
  is_Some (withBaseline schemas !! name) <->
  is_Some (schemas !! name) \/ name = "ErrorResponse" \/
  name = "StandardResponse".
Proof.
  unfold withBaseline.
  set (withError := match schemas !! "ErrorResponse" with
                    | Some _ => schemas
                    | None => <["ErrorResponse" := errorResponseSchema]> schemas
                    end).
  assert (is_Some (withError !! name) <->
          is_Some (schemas !! name) \/ name = "ErrorResponse") as Herror.
  { unfold withError. destruct (schemas !! "ErrorResponse") eqn:He.
    - split; [by left|]. intros [H | ->]; [done|]. by rewrite He.
    - rewrite lookup_insert_is_Some. split.
      + intros [<-|[_ H]]; [by right|by left].
      + intros [H | ->]; [|by left].
        destruct (decide ("ErrorResponse" = name)); [by left|by right]. }
  destruct (withError !! "StandardResponse") eqn:Hs.
  - rewrite Herror. split; [tauto|]. intros [H|[H | ->]]; [tauto..|].
    apply Herror. by rewrite Hs.
  - rewrite lookup_insert_is_Some, Herror. split.
    + intros [<-|[_ H]]; tauto.
    + intros [H|[H | ->]]; [| |by left].
      * destruct (decide ("StandardResponse" = name)); [by left|right; tauto].
      * destruct (decide ("StandardResponse" = name)); [by left|right; tauto].
Qed.

(** The schema table of a synthesized document holds exactly the cleaned
    names of the models of the Analysis and the two baseline names,
    [ErrorResponse] and [StandardResponse]. *)
Theorem Generate_schema_names (o : MapOrder) (config : Config.t)
    (analysis : analyzer.Analysis) (name : string) :
  is_Some (schemasOf (Generate o config analysis) !! name) <->
  (exists key model,
      analyzer.Models analysis !! key = Some model /\
      cleanSchemaName (analyzer.Model.Name model) = name) \/
  name = "ErrorResponse" \/ name = "StandardResponse".
Proof.
  destruct (Generate_eq o config analysis) as (draft & -> & _ & Hschemas).
  rewrite ValidateAndCleanSpec_names.
  rewrite Hschemas. split.
  - intros (oldName & [Hold|[-> | ->]]%withBaseline_names & <-).
    + apply modelSchemas_names in Hold as (key & model & Hm & <-).
      left. exists key, model. split; [done|].
      symmetry. apply cleanSchemaName_again.
    + right. left. by vm_compute.
    + right. right. by vm_compute.
  - intros [(key & model & Hm & <-)|[-> | ->]].
    + exists (cleanSchemaName (analyzer.Model.Name model)). split.
      * apply withBaseline_names. left. apply modelSchemas_names. eauto.
      * apply cleanSchemaName_again.
    + exists "ErrorResponse". split; [|by vm_compute].
      apply withBaseline_names. tauto.
    + exists "StandardResponse". split; [|by vm_compute].
      apply withBaseline_names. tauto.
Qed.

End SchemaTableNames.

(** ** Where the operations of a document come from *)

Section OperationProvenance.
Import strings generator.

Lemma addRoute_operations_at (routes : list analyzer.Route.t) (st : PathsState)
    (path : string) (item : PathItem.t) (x : Operation.t) :
  paths (foldl addRoute st routes) !! path = Some item ->
  spec.hasOperation item x ->
  (exists route, route ∈ routes /\ x = generateOperation route /\
                 convertPathFormat (analyzer.Route.Path route) = path) \/
  (exists item0, paths st !! path = Some item0 /\ spec.hasOperation item0 x).
Proof.
  revert st. induction routes as [|route routes IH]; intros st Hitem Hx.
  - right. eauto.
  - cbn [foldl] in Hitem.
    destruct (IH _ Hitem Hx) as [(route' & Hin & -> & Hp)|(item0 & H0 & Hx0)].
    + left. exists route'. split; [by apply list_elem_of_further|done].
    + rewrite addRoute_step in H0. cbv zeta in H0.
      destruct (bool_decide _); [right; eauto|]. cbn [paths] in H0.
      apply lookup_insert_Some in H0 as [[Hp <-]|[_ H0]]; [|right; eauto].
      apply hasOperation_setOperation in Hx0 as [->|Hx0].
      * left. exists route. split; [apply list_elem_of_here|done].
      * rewrite Hp in Hx0. destruct (paths st !! path) as [item1|] eqn:H1.
        -- right. eauto.
        -- by apply hasOperation_zero in Hx0.
Qed.

(** Every operation of a synthesized document was generated from a route of
    the Analysis whose normalized path is the path the operation is stored
    under; the integrity engine leaves its tags, summary, description,
    operation id and security requirement as generated, and the operation
    answers exactly the status codes 200, 400 and 500. *)
Theorem Generate_operation_provenance (o : MapOrder) (config : Config.t)
    (analysis : analyzer.Analysis) (path : string) (item : PathItem.t)
    (x : Operation.t) :
  OpenAPISpec.Paths (Generate o config analysis) !! path = Some item ->
  spec.hasOperation item x ->
  exists route,
    route ∈ analyzer.Routes analysis /\
    convertPathFormat (analyzer.Route.Path route) = path /\
    Operation.Tags x = analyzer.Route.Tags route /\
    Operation.Summary x = generateSummary route /\
    Operation.Description x = generateDescription route /\
    Operation.OperationID x = generateOperationID route /\
    Operation.Security x
      = (if hasAuthMiddleware (analyzer.Route.Middleware route)
         then [ {[ "bearerAuth" := [] ]} ] else []) /\
    dom (Operation.Responses x) = {[ "200"; "400"; "500" ]}.
Proof.
  destruct (Generate_eq o config analysis) as (draft & -> & Hpaths & _).
  intros Hitem Hx.
  rewrite ValidateAndCleanSpec_paths, Hpaths in Hitem.
  destruct (spec.draftPaths _ !! path) as [item0|] eqn:Hitem0; [|done].
  injection Hitem as <-.
  apply hasOperation_onOperations in Hx as (x0 & Hx0 & ->).
  destruct (addRoute_operations_at _ _ _ _ _ Hitem0 Hx0)
    as [(route & Hin & -> & Hp)|(item1 & H1 & _)].
  2:{ simpl in H1. by rewrite lookup_empty in H1. }
  exists route. repeat split; done.
Qed.

Lemma Generate_operation_provenance_witness :
  exists route,
    route ∈ analyzer.Routes fixtures.usersAnalysis /\
    convertPathFormat (analyzer.Route.Path route) = "/v1/users/{id}" /\
    generateOperationID route = "get_v1_users_id".
Proof.
  pose (x := spec.finished ascending ∅
               {[ "ErrorResponse"; "StandardResponse" ]} "/v1/users/{id}"
               (generateOperation
                  (fixtures.routeTo "GET" "/v1/users/:id" "GetUser"))).
  destruct (Generate_operation_provenance ascending fixtures.config
              fixtures.usersAnalysis "/v1/users/{id}"
              (PathItem.mk (Some x) None None None None) x)
    as (route & Hin & Hp & _ & _ & _ & Hid & _).
  - vm_compute. reflexivity.
  - left. reflexivity.
  - exists route. split; [done|]. split; [done|]. rewrite <- Hid.
    vm_compute. reflexivity.
Defined.

End OperationProvenance.

(** ** The passes are idempotent *)

Section Idempotence.
Import strings generator.

Lemma validated_pathNames (o : MapOrder) (operation : Operation.t)
    (pathParams : list (list string)) (name : string) :
  name ∈ spec.pathNames
           (Operation.Parameters
              (validateOperationParameters o operation pathParams)) <->
  name ∈ expectedOf pathParams.
Proof.
  unfold validateOperationParameters. cbn [Operation.Parameters].
  rewrite inject_pathNames, rangeSet_members.
  rewrite kept_pathNames, list_elem_of_In, filter_In, <- list_elem_of_In.
  rewrite bool_decide_eq_true. tauto.
Qed.

Lemma filter_all_true {A} (f : A -> bool) (l : list A) :
  (forall x, x ∈ l -> f x = true) -> List.filter f l = l.
Proof.
  induction l as [|x l IH]; intros H; [done|]. simpl.
  rewrite (H x) by apply list_elem_of_here. f_equal.
  apply IH. intros y Hy. apply H. by apply list_elem_of_further.
Qed.

Lemma inject_present (names : list string) (valid : list Param.t) :
  (forall name, name ∈ names -> name ∈ spec.pathNames valid) ->
  foldl injectParam valid names = valid.
Proof.
  revert valid. induction names as [|n names IH]; intros valid H; [done|].
  simpl. unfold injectParam at 2.
  assert (existsb (isPathParam n) valid = true) as ->.
  { apply isPathParam_pathNames, H, list_elem_of_here. }
  apply IH. intros name Hname. apply H. by apply list_elem_of_further.
Qed.

(** Path-parameter reconciliation is idempotent: running the pass again on
    its own result, under any enumeration order, changes nothing. *)
Theorem validateOperationParameters_idempotent (o1 o2 : MapOrder)
    (operation : Operation.t) (pathParams : list (list string)) :
  validateOperationParameters o2
    (validateOperationParameters o1 operation pathParams) pathParams
  = validateOperationParameters o1 operation pathParams.
Proof.
  pose proof (validated_pathNames o1 operation pathParams) as Hnames.
  set (once := validateOperationParameters o1 operation pathParams) in *.
  unfold validateOperationParameters at 1.
  assert (List.filter (keepParam (expectedOf pathParams))
            (Operation.Parameters once) = Operation.Parameters once) as ->.
  { apply filter_all_true. intros p Hp. unfold keepParam.
    destruct (String.eqb (Param.In p) "path") eqn:Hin; [|done].
    apply bool_decide_eq_true, Hnames. unfold spec.pathNames.
    apply list_elem_of_fmap. exists p. split; [done|].
    apply list_elem_of_In, filter_In. split; [by apply list_elem_of_In|done]. }
  rewrite inject_present.
  - by destruct once.
  - intros name Hname. apply Hnames. by apply rangeSet_members in Hname.
Qed.

Lemma Schema_eta (s : Schema.t) :
  Schema.mk (Schema.Type_ s) (Schema.Format s) (Schema.Properties s)
    (Schema.Items s) (Schema.Required s) (Schema.AdditionalProperties s)
    (Schema.Ref s) (Schema.Example s) (Schema.Description s) (Schema.Enum s)
    (Schema.Default s) = s.
Proof. by destruct s. Qed.

Lemma removeInvalidRefs_valid (validSchemas : gset string) (s : Schema.t) :
  (forall r, spec.hasRef s r -> TrimPrefix r refPrefix ∈ validSchemas) ->
  removeInvalidRefsFromSchema validSchemas s = s.
Proof.
  induction s as [s IHp IHi IHa] using Schema_tree_ind. intros Hvalid.
  rewrite removeInvalidRefsFromSchema_eq.
  assert (negb (String.eqb (Schema.Ref s) EmptyString) &&
          negb (bool_decide (TrimPrefix (Schema.Ref s) refPrefix ∈ validSchemas))
          = false) as ->.
  { destruct (String.eqb (Schema.Ref s) EmptyString) eqn:Href; [done|].
    apply String.eqb_neq in Href. simpl.
    rewrite bool_decide_eq_true_2; [done|].
    apply Hvalid. by constructor. }
  etransitivity; [|apply Schema_eta]. f_equal.
  - apply map_eq. intros key. rewrite lookup_fmap.
    destruct (Schema.Properties s !! key) as [v|] eqn:Hv; [|done]. simpl.
    f_equal. apply (IHp _ _ Hv). intros r Hr. apply Hvalid.
    by apply spec.hasRef_property with key v.
  - destruct (Schema.Items s) as [i|] eqn:Hi; [|done]. simpl. f_equal.
    apply (IHi _ eq_refl). intros r Hr. apply Hvalid.
    by apply spec.hasRef_items with i.
  - destruct (Schema.AdditionalProperties s) as [|b|a] eqn:Ha; try done.
    f_equal. apply (IHa _ eq_refl). intros r Hr. apply Hvalid.
    by apply spec.hasRef_additional with a.
Qed.

(** The reference remover never touches a schema tree whose references are
    all valid, and is idempotent: a second run over its own result changes
    nothing. *)
Theorem removeInvalidRefsFromSchema_idempotent (validSchemas : gset string)
    (s : Schema.t) :
  ((forall r, spec.hasRef s r -> TrimPrefix r refPrefix ∈ validSchemas) ->
   removeInvalidRefsFromSchema validSchemas s = s) /\
  removeInvalidRefsFromSchema validSchemas
    (removeInvalidRefsFromSchema validSchemas s)
  = removeInvalidRefsFromSchema validSchemas s.
Proof.
  split; [apply removeInvalidRefs_valid|].
  apply removeInvalidRefs_valid. intros r Hr.
  by apply hasRef_removeInvalidRefs in Hr as [_ Hr].
Qed.

End Idempotence.

(** ** The schema of a model *)

Section ModelSchemas.
Import strings generator.

Lemma Properties_addField_names (fields : list analyzer.Field.t)
    (schema : Schema.t) (key : string) :
  is_Some (Schema.Properties (foldl addField schema fields) !! key) <->
  is_Some (Schema.Properties schema !! key) \/
  exists f, f ∈ fields /\ propertyName f = Some key.
Proof.
  revert schema. induction fields as [|f fields IH]; intros schema; simpl.
  - split; [by left|]. intros [H|(f & H%elem_of_nil & _)]; done.
  - rewrite IH. clear IH. unfold addField at 1.
    destruct (propertyName f) as [name|] eqn:Hname; simpl.
    + rewrite lookup_insert_is_Some. split.
      * intros [[<-|[_ H]]|(g & Hg & Hk)].
        -- right. exists f. split; [apply list_elem_of_here|done].
        -- by left.
        -- right. exists g. split; [by apply list_elem_of_further|done].
      * intros [H|(g & Hg & Hk)].
        -- left. destruct (decide (name = key)); [by left|by right].
        -- apply elem_of_cons in Hg as [->|Hg].
           ++ left. left. congruence.
           ++ right. by exists g.
    + split.
      * intros [H|(g & Hg & Hk)]; [by left|].
        right. exists g. split; [by apply list_elem_of_further|done].
      * intros [H|(g & Hg & Hk)]; [by left|].
        apply elem_of_cons in Hg as [->|Hg]; [congruence|].
        right. by exists g.
Qed.

Lemma Properties_addField_other (fields : list analyzer.Field.t)
    (schema : Schema.t) (key : string) :
  Forall (fun g => propertyName g <> Some key) fields ->
  Schema.Properties (foldl addField schema fields) !! key
  = Schema.Properties schema !! key.
Proof.
  revert schema. induction fields as [|f fields IH]; intros schema H; [done|].
  apply Forall_cons in H as [Hf Hfields]. simpl. rewrite (IH _ Hfields).
  unfold addField. destruct (propertyName f) as [name|]; [|done]. simpl.
  apply lookup_insert_ne. congruence.
Qed.

(** The schema of a model: an object schema whose properties are exactly the
    property names of the fields that are not skipped, each holding the
    schema of the last field stored under it, and whose required names are
    all properties. *)
Theorem generateSchemaFromModel_properties (model : analyzer.Model.t) :
  let schema := generateSchemaFromModel model in
  Schema.Type_ schema = "object" /\
  (forall key,
      is_Some (Schema.Properties schema !! key) <->
      exists f, f ∈ analyzer.Model.Fields model /\ propertyName f = Some key) /\
  (forall key,
      key ∈ Schema.Required schema -> is_Some (Schema.Properties schema !! key)) /\
  (forall before f after key,
      analyzer.Model.Fields model = before ++ f :: after ->
      propertyName f = Some key ->
      Forall (fun g => propertyName g <> Some key) after ->
      Schema.Properties schema !! key = Some (generateSchemaFromField f)).
Proof.
  intros schema.
  assert (forall key,
             is_Some (Schema.Properties schema !! key) <->
             exists f, f ∈ analyzer.Model.Fields model /\
                       propertyName f = Some key) as Hprops.
  { intros key. unfold schema, generateSchemaFromModel.
    rewrite Properties_addField_names. simpl. rewrite lookup_empty.
    split; [|by right]. intros [[? H]|H]; done. }
  split; [|split; [done|split]].
  - unfold schema, generateSchemaFromModel.
    assert (forall fields s,
               Schema.Type_ (foldl addField s fields) = Schema.Type_ s) as Htype.
    { induction fields as [|f fields IH]; intros s; [done|]. simpl.
      rewrite IH. unfold addField. by destruct (propertyName f). }
    by rewrite Htype.
  - intros key Hkey. apply Hprops.
    apply Required_generateSchemaFromModel in Hkey as (f & Hf & _ & Hname).
    by exists f.
  - intros before f after key Hfields Hname Hafter.
    unfold schema, generateSchemaFromModel.
    rewrite Hfields, foldl_app. simpl.
    rewrite (Properties_addField_other _ _ _ Hafter).
    unfold addField. rewrite Hname. simpl. apply lookup_insert_eq.
Qed.

End ModelSchemas.

(** ** Schemas of field types *)

Section FieldSchemas.
Import strings generator.

Lemma length_ReplaceAll_empty (s : string) (old : ascii) :
  String.length (ReplaceAll s old EmptyString) <= String.length s.
Proof.
  induction s as [|a s IH]; [done|]. simpl.
  destruct (Ascii.eqb a old); [rewrite app_nil|simpl]; lia.
Qed.

Lemma length_drop (n : nat) (s : string) :
  String.length (drop n s) <= String.length s.
Proof.
  revert s. induction n as [|n IH]; intros s; [by destruct s|].
  destruct s as [|a s]; [done|]. simpl. specialize (IH s). lia.
Qed.

Lemma length_cleanTypeName (typeName : string) :
  String.length (cleanTypeName typeName) <= String.length typeName.
Proof.
  unfold cleanTypeName. cbv zeta.
  pose proof (length_ReplaceAll_empty typeName "*") as H.
  destruct (LastIndexByte _ _) as [idx|]; [|done].
  pose proof (length_drop (S idx) (ReplaceAll typeName "*" EmptyString)). lia.
Qed.

Lemma length_TrimPrefix_array (s : string) :
  HasPrefix s "[]" = true ->
  S (String.length (TrimPrefix s "[]")) < S (String.length s).
Proof.
  intros H. unfold TrimPrefix. rewrite H.
  apply HasPrefix_split in H. remember (drop _ s) as rest eqn:Hrest.
  clear Hrest. subst s. rewrite !app_cons, app_nil. simpl. lia.
Qed.

Lemma generateSchemaFromFieldTypeN_fuel (n m : nat) (fieldType : string) :
  String.length fieldType <= n -> String.length fieldType <= m ->
  generateSchemaFromFieldTypeN n fieldType
  = generateSchemaFromFieldTypeN m fieldType.
Proof.
  revert m fieldType. induction n as [|n IH]; intros m fieldType Hn Hm.
  - destruct fieldType; [|simpl in Hn; lia]. by destruct m.
  - destruct m as [|m].
    + destruct fieldType; [|simpl in Hm; lia]. done.
    + cbn [generateSchemaFromFieldTypeN].
      destruct (HasPrefix (cleanTypeName fieldType) "[]") eqn:Harr; [|done].
      pose proof (length_cleanTypeName fieldType).
      pose proof (length_TrimPrefix_array _ Harr).
      rewrite (IH m) by lia. done.
Qed.

Lemma generateSchemaFromFieldTypeN_cases (fuel : nat) (fieldType : string) :
  let schema := generateSchemaFromFieldTypeN fuel fieldType in
  (exists fuel' elementType,
      fuel = S fuel' /\
      schema = Schema.mk "array" EmptyString ∅
                 (Some (generateSchemaFromFieldTypeN fuel' elementType)) []
                 NoAdditional EmptyString None EmptyString [] None) \/
  (isCustomType (cleanTypeName fieldType) = true /\
   schema = Schema.ofRef
              (refPrefix +:+ cleanSchemaName (cleanTypeName fieldType))) \/
  (Schema.Type_ schema <> EmptyString /\ Schema.Ref schema = EmptyString /\
   Schema.Properties schema = ∅ /\ Schema.Items schema = None /\
   Schema.AdditionalProperties schema = NoAdditional).
Proof.
  destruct fuel as [|fuel]; cbn [generateSchemaFromFieldTypeN];
    (destruct (HasPrefix (cleanTypeName fieldType) "[]");
     [first [by (right; right)|left; eauto]|]);
    repeat match goal with
           | |- context [if ?b then _ else _] =>
               destruct b eqn:?; [by (right; right)|]
           end;
    (destruct (isCustomType (cleanTypeName fieldType)) eqn:Hcustom;
     [by (right; left)|by (right; right)]).
Qed.

Lemma hasRef_ofRef (ref r : string) :
  spec.hasRef (Schema.ofRef ref) r -> r = ref.
Proof.
  intros [[_ ->]|[(k & v & H & _)|[(i & H & _)|(a & H & _)]]]%hasRef_inv;
    done.
Qed.

Lemma generateSchemaFromFieldTypeN_refs (fuel : nat) (fieldType r : string) :
  spec.hasRef (generateSchemaFromFieldTypeN fuel fieldType) r ->
  exists typeName,
    isCustomType typeName = true /\
    r = refPrefix +:+ cleanSchemaName typeName.
Proof.
  revert fieldType. induction fuel as [|fuel IH]; intros fieldType;
    [destruct (generateSchemaFromFieldTypeN_cases 0 fieldType)
      as [(fuel' & elementType & Hfuel & ->)|
          [[Hcustom ->]|(_ & Href & Hprops & Hitems & Hadd)]]
    |destruct (generateSchemaFromFieldTypeN_cases (S fuel) fieldType)
      as [(fuel' & elementType & Hfuel & ->)|
          [[Hcustom ->]|(_ & Href & Hprops & Hitems & Hadd)]]];
    try done.
  - intros ->%hasRef_ofRef. eauto.
  - intros H. apply hasRef_leaf in H; try done. by rewrite Hadd.
  - injection Hfuel as <-.
    intros [[H _]|[(k & v & H & _)|[(i & H & Hi)|(a & H & _)]]]%hasRef_inv;
      try done.
    simpl in H. injection H as <-. by apply IH in Hi.
  - intros ->%hasRef_ofRef. eauto.
  - intros H. apply hasRef_leaf in H; try done. by rewrite Hadd.
Qed.

Lemma generateSchemaFromFieldTypeN_typed (fuel : nat) (fieldType : string) :
  Schema.Type_ (generateSchemaFromFieldTypeN fuel fieldType) <> EmptyString \/
  Schema.Ref (generateSchemaFromFieldTypeN fuel fieldType) <> EmptyString.
Proof.
  destruct (generateSchemaFromFieldTypeN_cases fuel fieldType)
    as [(fuel' & elementType & Hfuel & ->)|
        [[Hcustom ->]|(Htype & _)]]; [by left|by right|by left].
Qed.

Lemma generateSchemaFromFieldTypeN_array (fuel : nat) (fieldType : string) :
  HasPrefix (cleanTypeName fieldType) "[]" = true ->
  generateSchemaFromFieldTypeN (S fuel) fieldType
  = Schema.mk "array" EmptyString ∅
      (Some (generateSchemaFromFieldTypeN fuel
               (TrimPrefix (cleanTypeName fieldType) "[]")))
      [] NoAdditional EmptyString None EmptyString [] None.
Proof. intros H. cbn [generateSchemaFromFieldTypeN]. by rewrite H. Qed.

Lemma length_app_string (a b : string) :
  String.length (a +:+ b) = String.length a + String.length b.
Proof.
  induction a as [|x a IH]; [done|]. rewrite app_cons. simpl. by rewrite IH.
Qed.

(** The schema of an array type is an array schema over the schema of the
    element type: the recursion of [generateSchemaFromFieldType] on the
    element type always reaches a type that is not an array. *)
Theorem generateSchemaFromFieldType_array (elementType : string) :
  cleanTypeName ("[]" +:+ elementType) = "[]" +:+ elementType ->
  generateSchemaFromFieldType ("[]" +:+ elementType)
  = Schema.mk "array" EmptyString ∅
      (Some (generateSchemaFromFieldType elementType)) [] NoAdditional
      EmptyString None EmptyString [] None.
Proof.
  intros Hclean. unfold generateSchemaFromFieldType.
  set (fieldType := "[]" +:+ elementType) in *.
  rewrite (generateSchemaFromFieldTypeN_fuel (String.length fieldType)
             (S (String.length fieldType))) by lia.
  rewrite generateSchemaFromFieldTypeN_array
    by (rewrite Hclean; apply HasPrefix_app).
  rewrite Hclean. unfold fieldType. rewrite TrimPrefix_app.
  rewrite (generateSchemaFromFieldTypeN_fuel
             (String.length ("[]" +:+ elementType))
             (String.length elementType)); [done| |done].
  rewrite length_app_string. lia.
Qed.

Lemma generateSchemaFromFieldType_array_witness :
  generateSchemaFromFieldType "[][]int"
  = Schema.mk "array" EmptyString ∅
      (Some (generateSchemaFromFieldType "[]int")) [] NoAdditional
      EmptyString None EmptyString [] None.
Proof.
  apply (generateSchemaFromFieldType_array "[]int"). reflexivity.
Defined.

(** Whatever the field, its schema has a type or a reference at the root, no
    properties of its own, the description of the field, and every reference
    in it, at any depth, is the reference prefix followed by the cleaned name
    of a custom type. *)
Theorem generateSchemaFromField_references (field : analyzer.Field.t) :
  let schema := generateSchemaFromField field in
  (Schema.Type_ schema <> EmptyString \/ Schema.Ref schema <> EmptyString) /\
  Schema.Properties schema = ∅ /\
  Schema.Description schema = analyzer.Field.Description field /\
  (forall r, spec.hasRef schema r ->
             exists typeName,
               isCustomType typeName = true /\
               r = refPrefix +:+ cleanSchemaName typeName).
Proof.
  intros schema. unfold schema, generateSchemaFromField. cbv zeta.
  set (cleanType := ReplaceAll _ "*" EmptyString).
  destruct (HasPrefix cleanType "[]").
  { split; [by left|]. split; [done|]. split; [done|]. intros r.
    intros [[H _]|[(k & v & H & _)|[(i & H & Hi)|(a & H & _)]]]%hasRef_inv;
      try done.
    simpl in H. injection H as <-.
    destruct (isCustomType _) eqn:Hcustom.
    - apply hasRef_ofRef in Hi as ->. eauto.
    - by apply generateSchemaFromFieldTypeN_refs in Hi. }
  destruct (_ || _).
  { split; [by left|]. split; [done|]. split; [done|]. intros r H.
    by apply hasRef_leaf in H. }
  destruct (HasPrefix cleanType "map[").
  { split; [by left|]. split; [done|]. split; [done|]. intros r.
    intros [[H _]|[(k & v & H & _)|[(i & H & _)|(a & H & Ha)]]]%hasRef_inv;
      try done.
    cbn [Schema.AdditionalProperties] in H.
    destruct (existsb _ _); [done|].
    destruct (isCustomType _) eqn:Hcustom; injection H as <-.
    - apply hasRef_ofRef in Ha as ->. eauto.
    - by apply generateSchemaFromFieldTypeN_refs in Ha. }
  repeat match goal with
         | |- context [if ?b then _ else _] =>
             destruct b eqn:?;
             [split; [by left|]; split; [done|]; split; [done|];
              intros r H; by apply hasRef_leaf in H|]
         end.
  destruct (isCustomType _) eqn:Hcustom.
  - split; [right; simpl; by destruct (cleanSchemaName _)|].
    split; [done|]. split; [done|]. intros r.
    intros [[_ ->]|[(k & v & H & _)|[(i & H & _)|(a & H & _)]]]%hasRef_inv;
      try done.
    simpl. eauto.
  - split; [by left|]. split; [done|]. split; [done|]. intros r H.
    by apply hasRef_leaf in H.
Qed.

End FieldSchemas.

(** ** Path parameters, from the route literal to the document *)

Section PathViews.
Import strings generator.

Lemma joinPath_boundary (render : spec.Segment -> string)
    (segments : list spec.Segment) :
  spec.atBoundary (spec.joinPath render segments) = true.
Proof. by destruct segments. Qed.

Lemma takeWhile_app (p : ascii -> bool) (name rest : string) :
  spec.allBytes p name = true ->
  match rest with String c _ => p c = false | EmptyString => True end ->
  takeWhile p (name +:+ rest) = name.
Proof.
  intros Hname Hrest. induction name as [|c name IH].
  - rewrite app_nil. destruct rest as [|c rest]; [done|]. simpl.
    by rewrite Hrest.
  - rewrite app_cons. simpl in *.
    apply andb_true_iff in Hname as [-> Hname]. f_equal. by apply IH.
Qed.

Lemma untilSlash_app (name rest : string) :
  spec.allBytes isWordByte name = true -> spec.atBoundary rest = true ->
  analyzer.untilSlash (name +:+ rest) = name.
Proof.
  intros Hname Hrest. induction name as [|c name IH].
  - rewrite app_nil. destruct rest as [|c rest]; [done|]. simpl in *.
    by rewrite Hrest.
  - rewrite app_cons. simpl in *.
    apply andb_true_iff in Hname as [Hc Hname].
    destruct (Ascii.eqb c "/") eqn:Heq.
    + apply Ascii.eqb_eq in Heq as ->. done.
    + f_equal. by apply IH.
Qed.

Lemma replaceColonParams_skip (name rest : string) :
  replaceColonParams (String.length name) (name +:+ rest)
  = replaceColonParams 0 rest.
Proof.
  induction name as [|c name IH]; [by destruct rest|].
  rewrite app_cons. exact IH.
Qed.

Lemma findPathParams_skip (name rest : string) :
  findPathParams (String.length name) (name +:+ rest)
  = findPathParams 0 rest.
Proof.
  induction name as [|c name IH]; [by destruct rest|].
  rewrite app_cons. exact IH.
Qed.

Lemma findColonParams_skip (name rest : string) :
  analyzer.findColonParams (String.length name) (name +:+ rest)
  = analyzer.findColonParams 0 rest.
Proof.
  induction name as [|c name IH]; [by destruct rest|].
  rewrite app_cons. exact IH.
Qed.

Lemma plainByte_cases (c : ascii) :
  spec.plainByte c = true ->
  Ascii.eqb c ":" = false /\ Ascii.eqb c "{" = false /\
  Ascii.eqb c "}" = false /\ Ascii.eqb c "/" = false.
Proof.
  unfold spec.plainByte. rewrite !andb_true_iff, !negb_true_iff. tauto.
Qed.

Lemma replaceColonParams_literal (text rest : string) :
  spec.allBytes spec.plainByte text = true ->
  replaceColonParams 0 (text +:+ rest) = text +:+ replaceColonParams 0 rest.
Proof.
  induction text as [|c text IH]; [done|]. simpl.
  intros [Hc Htext]%andb_true_iff. rewrite !app_cons. simpl.
  apply plainByte_cases in Hc as (-> & _). simpl. f_equal. by apply IH.
Qed.

Lemma findPathParams_literal (text rest : string) :
  spec.allBytes spec.plainByte text = true ->
  findPathParams 0 (text +:+ rest) = findPathParams 0 rest.
Proof.
  induction text as [|c text IH]; [done|]. simpl.
  intros [Hc Htext]%andb_true_iff. rewrite !app_cons. simpl.
  apply plainByte_cases in Hc as (_ & -> & _). simpl. by apply IH.
Qed.

Lemma findColonParams_literal (text rest : string) :
  spec.allBytes spec.plainByte text = true ->
  analyzer.findColonParams 0 (text +:+ rest) = analyzer.findColonParams 0 rest.
Proof.
  induction text as [|c text IH]; [done|]. simpl.
  intros [Hc Htext]%andb_true_iff. rewrite !app_cons. simpl.
  apply plainByte_cases in Hc as (-> & _). simpl. by apply IH.
Qed.

Lemma isWordByte_not (c : ascii) :
  isWordByte c = true ->
  Ascii.eqb c "}" = false /\ Ascii.eqb c "/" = false.
Proof.
  intros H. split.
  - destruct (Ascii.eqb c "}") eqn:Heq; [|done].
    apply Ascii.eqb_eq in Heq as ->. done.
  - destruct (Ascii.eqb c "/") eqn:Heq; [|done].
    apply Ascii.eqb_eq in Heq as ->. done.
Qed.

Lemma allBytes_impl (p q : ascii -> bool) (s : string) :
  (forall c, p c = true -> q c = true) ->
  spec.allBytes p s = true -> spec.allBytes q s = true.
Proof.
  intros Hpq. induction s as [|c s IH]; [done|]. simpl.
  intros [Hc Hs]%andb_true_iff. by rewrite (Hpq c Hc), IH.
Qed.

Lemma app_assoc' (a b c : string) : (a +:+ b) +:+ c = a +:+ (b +:+ c).
Proof.
  induction a as [|x a IH]; [done|]. by rewrite !app_cons, IH.
Qed.

(** One well-formed segment, read by the three scanners. *)
Lemma replaceColonParams_segment (segment : spec.Segment) (rest : string) :
  spec.wellFormed segment = true -> spec.atBoundary rest = true ->
  replaceColonParams 0 (spec.colonSegment segment +:+ rest)
  = spec.braceSegment segment +:+ replaceColonParams 0 rest.
Proof.
  intros Hwf Hrest. destruct segment as [text|name]; simpl in *.
  - by apply replaceColonParams_literal.
  - apply andb_true_iff in Hwf as [Hletter Hall].
    rewrite !app_cons, !app_nil. cbn [replaceColonParams].
    assert (startsWithLetter (name +:+ rest) = true) as ->.
    { destruct name; [done|]. by rewrite app_cons. }
    change (Ascii.eqb ":" ":") with true. cbn [andb].
    rewrite takeWhile_app; [|done|].
    + rewrite replaceColonParams_skip. by rewrite !app_assoc'.
    + destruct rest as [|c rest]; [done|]. simpl in Hrest.
      apply Ascii.eqb_eq in Hrest as ->. done.
Qed.

Lemma findPathParams_segment (segment : spec.Segment) (rest : string) :
  spec.wellFormed segment = true ->
  findPathParams 0 (spec.braceSegment segment +:+ rest)
  = match segment with
    | spec.Named name => [["{" +:+ name +:+ "}"; name]]
    | spec.Literal _ => []
    end ++ findPathParams 0 rest.
Proof.
  intros Hwf. destruct segment as [text|name]; simpl in *.
  - by apply findPathParams_literal.
  - apply andb_true_iff in Hwf as [Hletter Hall].
    rewrite !app_cons, !app_nil, app_assoc'. cbn [findPathParams].
    change (Ascii.eqb "{" "{") with true. cbn [andb].
    rewrite takeWhile_app; [| |done].
    + assert (String.eqb name EmptyString = false) as -> by by destruct name.
      rewrite drop_app. cbn [negb andb].
      change (HasPrefix ("}" +:+ rest) "}") with true. cbv iota.
      f_equal.
      change (S (String.length name)) with (1 + String.length name).
      rewrite <- (app_assoc' name "}" rest).
      replace (1 + String.length name) with (String.length (name +:+ "}"))
        by (rewrite length_app_string; simpl; lia).
      apply findPathParams_skip.
    + apply allBytes_impl with isWordByte; [|done].
      intros c Hc. by apply isWordByte_not in Hc as [-> _].
Qed.

Lemma findColonParams_segment (segment : spec.Segment) (rest : string) :
  spec.wellFormed segment = true -> spec.atBoundary rest = true ->
  analyzer.findColonParams 0 (spec.colonSegment segment +:+ rest)
  = match segment with
    | spec.Named name => [[":" +:+ name; name]]
    | spec.Literal _ => []
    end ++ analyzer.findColonParams 0 rest.
Proof.
  intros Hwf Hrest. destruct segment as [text|name]; simpl in *.
  - by apply findColonParams_literal.
  - apply andb_true_iff in Hwf as [Hletter Hall].
    rewrite !app_cons, !app_nil. cbn [analyzer.findColonParams].
    change (Ascii.eqb ":" ":") with true. cbn [andb].
    rewrite untilSlash_app by done.
    assert (String.eqb name EmptyString = false) as -> by by destruct name.
    cbn [negb]. cbv iota. f_equal. apply findColonParams_skip.
Qed.

Lemma forallb_cons_true {A} (f : A -> bool) (x : A) (l : list A) :
  forallb f (x :: l) = true -> f x = true /\ forallb f l = true.
Proof. simpl. apply andb_true_iff. Qed.

Lemma replaceColonParams_path (segments : list spec.Segment) :
  forallb spec.wellFormed segments = true ->
  replaceColonParams 0 (spec.joinPath spec.colonSegment segments)
  = spec.joinPath spec.braceSegment segments.
Proof.
  induction segments as [|segment segments IH]; [done|].
  intros [Hwf Hrest]%forallb_cons_true. cbn [spec.joinPath foldr].
  rewrite !app_cons, !app_nil.
  cbn [replaceColonParams]. change (Ascii.eqb "/" ":") with false.
  cbn [andb]. cbv iota. f_equal.
  rewrite replaceColonParams_segment; [|done|apply joinPath_boundary].
  f_equal. by apply IH.
Qed.

Lemma findPathParams_path (segments : list spec.Segment) :
  forallb spec.wellFormed segments = true ->
  findPathParams 0 (spec.joinPath spec.braceSegment segments)
  = (fun name => ["{" +:+ name +:+ "}"; name]) <$> spec.segmentNames segments.
Proof.
  induction segments as [|segment segments IH]; [done|].
  intros [Hwf Hrest]%forallb_cons_true. cbn [spec.joinPath foldr].
  rewrite !app_cons, !app_nil.
  cbn [findPathParams]. change (Ascii.eqb "/" "{") with false.
  cbn [andb]. cbv iota.
  rewrite findPathParams_segment by done.
  fold (spec.joinPath spec.braceSegment segments). rewrite (IH Hrest).
  by destruct segment.
Qed.

Lemma findColonParams_path (segments : list spec.Segment) :
  forallb spec.wellFormed segments = true ->
  analyzer.findColonParams 0 (spec.joinPath spec.colonSegment segments)
  = (fun name => [":" +:+ name; name]) <$> spec.segmentNames segments.
Proof.
  induction segments as [|segment segments IH]; [done|].
  intros [Hwf Hrest]%forallb_cons_true. cbn [spec.joinPath foldr].
  rewrite !app_cons, !app_nil.
  cbn [analyzer.findColonParams]. change (Ascii.eqb "/" ":") with false.
  cbn [andb]. cbv iota.
  rewrite findColonParams_segment; [|done|apply joinPath_boundary].
  fold (spec.joinPath spec.colonSegment segments). rewrite (IH Hrest).
  by destruct segment.
Qed.

Lemma convertPathFormat_path (segments : list spec.Segment) :
  forallb spec.wellFormed segments = true ->
  convertPathFormat (spec.joinPath spec.colonSegment segments)
  = match segments with
    | [] => "/"
    | _ => spec.joinPath spec.braceSegment segments
    end.
Proof.
  intros Hwf. unfold convertPathFormat. cbv zeta.
  rewrite replaceColonParams_path by done.
  by destruct segments.
Qed.

Lemma extractPathParameters_path (segments : list spec.Segment) :
  forallb spec.wellFormed segments = true ->
  analyzer.extractPathParameters (spec.joinPath spec.colonSegment segments)
  = (fun name =>
       analyzer.Param.mk name "path" true "string" EmptyString EmptyString
         None []) <$> spec.segmentNames segments.
Proof.
  intros Hwf. unfold analyzer.extractPathParameters.
  rewrite findColonParams_path by done.
  induction (spec.segmentNames segments) as [|name names IH]; [done|].
  cbn [fmap list_fmap omap list_omap] in *. by f_equal.
Qed.

Lemma findPathParams_converted (segments : list spec.Segment) :
  forallb spec.wellFormed segments = true ->
  findPathParams 0
    (convertPathFormat (spec.joinPath spec.colonSegment segments))
  = (fun name => ["{" +:+ name +:+ "}"; name]) <$> spec.segmentNames segments.
Proof.
  intros Hwf. rewrite convertPathFormat_path by done.
  destruct segments; [done|]. by apply findPathParams_path.
Qed.

(** The analyzer and the generator read the same parameters off a route
    path made of well-formed segments: the path is normalized segment by
    segment, the names the analyzer extracts after the colons are the
    parameter names in order, and the tokens the validator finds between the
    braces of the normalized path are the same names in the same order. *)
Theorem path_parameter_views_agree (segments : list spec.Segment) :
  forallb spec.wellFormed segments = true ->
  let path := spec.joinPath spec.colonSegment segments in
  convertPathFormat path
    = match segments with
      | [] => "/"
      | _ => spec.joinPath spec.braceSegment segments
      end /\
  analyzer.Param.Name <$> analyzer.extractPathParameters path
    = spec.segmentNames segments /\
  Forall (fun param => analyzer.Param.In param = "path" /\
                       analyzer.Param.Required param = true /\
                       analyzer.Param.Type_ param = "string")
    (analyzer.extractPathParameters path) /\
  findPathParams 0 (convertPathFormat path)
    = (fun name => ["{" +:+ name +:+ "}"; name]) <$> spec.segmentNames segments.
Proof.
  intros Hwf path. split; [by apply convertPathFormat_path|].
  unfold path. rewrite extractPathParameters_path by done.
  split; [|split].
  - rewrite <- list_fmap_compose. apply list_fmap_id.
  - apply Forall_fmap, Forall_true. done.
  - by apply findPathParams_converted.
Qed.

Lemma path_parameter_views_agree_witness :
  convertPathFormat "/v1/users/:id/posts/:post_id"
  = "/v1/users/{id}/posts/{post_id}".
Proof.
  apply (path_parameter_views_agree
           [spec.Literal "v1"; spec.Literal "users"; spec.Named "id";
            spec.Literal "posts"; spec.Named "post_id"]).
  reflexivity.
Defined.





End PathViews.

(** ** Property names *)

Section PropertyNames.
Import strings generator.

Lemma lowerByte_not_upper (c : ascii) : isUpper (lowerByte c) = false.
Proof.
  unfold lowerByte. destruct (isUpper c) eqn:Hc; [|done].
  unfold isUpper in *. apply andb_true_iff in Hc as [H1 H2].
  apply Nat.leb_le in H1, H2.
  rewrite nat_ascii_embedding by lia.
  apply andb_false_iff. right. apply Nat.leb_gt. lia.
Qed.

Lemma lowerByte_fixed (c : ascii) : isUpper c = false -> lowerByte c = c.
Proof. unfold lowerByte. by intros ->. Qed.

Lemma ToLower_idempotent (s : string) : ToLower (ToLower s) = ToLower s.
Proof.
  induction s as [|c s IH]; [done|]. simpl.
  by rewrite IH, (lowerByte_fixed _ (lowerByte_not_upper c)).
Qed.

Lemma snakeRe_lower (s : string) : ToLower s = s -> snakeRe s = s.
Proof.
  induction s as [|a s IH]; [done|]. intros H. simpl in H.
  injection H as Ha Hs. destruct s as [|b rest]; [done|].
  cbn [snakeRe]. simpl in Hs. injection Hs as Hb Hrest.
  assert (isUpper b = false) as -> by (rewrite <- Hb; apply lowerByte_not_upper).
  rewrite andb_false_r. f_equal. apply IH. simpl. by rewrite Hb, Hrest.
Qed.

Lemma toSnakeCase_lower (str : string) :
  ToLower (toSnakeCase str) = toSnakeCase str.
Proof.
  unfold toSnakeCase.
  destruct (Contains str "_" && String.eqb (ToLower str) str) eqn:H.
  - apply andb_true_iff in H as [_ H]. by apply String.eqb_eq in H.
  - apply ToLower_idempotent.
Qed.

Lemma toSnakeCase_fixed (str : string) :
  ToLower str = str -> toSnakeCase str = str.
Proof.
  intros H. unfold toSnakeCase. rewrite H, String.eqb_refl.
  destruct (Contains str "_"); [done|]. simpl.
  by rewrite snakeRe_lower, H.
Qed.

Lemma snakeRe_nonempty (s : string) :
  s <> EmptyString -> snakeRe s <> EmptyString.
Proof.
  destruct s as [|a [|b rest]]; [done|done|]. intros _. simpl.
  by destruct ((isLower a || isDigit a) && isUpper b).
Qed.

Lemma ToLower_nonempty (s : string) :
  s <> EmptyString -> ToLower s <> EmptyString.
Proof. by destruct s. Qed.

Lemma cleanPropertyName_nonempty (name : string) :
  cleanPropertyName name <> EmptyString.
Proof.
  unfold cleanPropertyName.
  destruct (String.eqb name EmptyString) eqn:Hname; [done|].
  apply String.eqb_neq in Hname. unfold toSnakeCase.
  destruct (Contains name "_" && String.eqb (ToLower name) name); [done|].
  by apply ToLower_nonempty, snakeRe_nonempty.
Qed.

Lemma cleanPropertyName_lower (name : string) :
  ToLower (cleanPropertyName name) = cleanPropertyName name.
Proof.
  unfold cleanPropertyName.
  destruct (String.eqb name EmptyString); [done|]. apply toSnakeCase_lower.
Qed.

Lemma cleanPropertyName_again (name : string) :
  cleanPropertyName (cleanPropertyName name) = cleanPropertyName name.
Proof.
  pose proof (cleanPropertyName_nonempty name) as Hne.
  pose proof (cleanPropertyName_lower name) as Hlower.
  unfold cleanPropertyName at 1.
  apply String.eqb_neq in Hne. rewrite Hne. by apply toSnakeCase_fixed.
Qed.

(** Canonical property names: [cleanPropertyName] never returns the empty
    name, returns a name without upper-case letters, and returns a name it
    produced unchanged; so does [toSnakeCase] on its own results. *)
Theorem cleanPropertyName_canonical (name : string) :
  cleanPropertyName name <> EmptyString /\
  ToLower (cleanPropertyName name) = cleanPropertyName name /\
  cleanPropertyName (cleanPropertyName name) = cleanPropertyName name /\
  toSnakeCase (toSnakeCase name) = toSnakeCase name.
Proof.
  split; [apply cleanPropertyName_nonempty|].
  split; [apply cleanPropertyName_lower|].
  split; [apply cleanPropertyName_again|].
  apply toSnakeCase_fixed, toSnakeCase_lower.
Qed.

Lemma cleanProperties_names (o : MapOrder)
    (properties cleaned : gmap string Schema.t) (key : string) :
  dom cleaned = dom properties ->
  is_Some (cleanProperties o properties cleaned !! key) <->
  exists propName, is_Some (properties !! propName) /\
                   cleanPropertyName propName = key.
Proof.
  intros Hdom. unfold cleanProperties.
  assert (forall (names : list string) (acc : gmap string Schema.t),
             (forall n, n ∈ names -> is_Some (cleaned !! n)) ->
             is_Some (foldl (fun cleanProps propName =>
                               match cleaned !! propName with
                               | Some propSchema =>
                                   <[cleanPropertyName propName := propSchema]>
                                     cleanProps
                               | None => cleanProps
                               end) acc names !! key) <->
             is_Some (acc !! key) \/
             exists n, n ∈ names /\ cleanPropertyName n = key) as Hfold.
  { induction names as [|n names IH]; intros acc Hall; simpl.
    - split; [by left|]. intros [H|(n & H%elem_of_nil & _)]; done.
    - rewrite IH by (intros m Hm; apply Hall; by apply list_elem_of_further).
      destruct (Hall n (list_elem_of_here _ _)) as [v ->].
      rewrite lookup_insert_is_Some. split.
      + intros [[<-|[_ H]]|(m & Hm & Hk)].
        * right. exists n. split; [apply list_elem_of_here|done].
        * by left.
        * right. exists m. split; [by apply list_elem_of_further|done].
      + intros [H|(m & Hm & Hk)].
        * left. destruct (decide (cleanPropertyName n = key)); [by left|by right].
        * apply elem_of_cons in Hm as [->|Hm]; [by left; left|].
          right. by exists m. }
  rewrite Hfold.
  - rewrite lookup_empty. split.
    + intros [[? H]|(n & Hn & Hk)]; [done|]. exists n. split; [|done].
      by apply rangeKeys_members in Hn.
    + intros (n & Hn & Hk). right. exists n. split; [|done].
      by apply rangeKeys_members.
  - intros n Hn%rangeKeys_members.
    apply elem_of_dom. rewrite Hdom. by apply elem_of_dom.
Qed.

(** What [cleanSchema] does to a schema whose reference is empty: the
    property names of the result are exactly the cleaned names of the
    properties it was given, while the type, the format and the list of
    required names are kept as they are; the required names are not renamed
    with the properties. *)
Theorem cleanSchema_property_names (o : MapOrder)
    (allSchemas : gmap string Schema.t) (schema : Schema.t) :
  Schema.Ref schema = EmptyString ->
  let cleaned := cleanSchema o allSchemas schema in
  (forall key,
      is_Some (Schema.Properties cleaned !! key) <->
      exists propName, is_Some (Schema.Properties schema !! propName) /\
                       cleanPropertyName propName = key) /\
  Schema.Required cleaned = Schema.Required schema /\
  Schema.Type_ cleaned = Schema.Type_ schema /\
  Schema.Format cleaned = Schema.Format schema.
Proof.
  intros Href cleaned. unfold cleaned. rewrite cleanSchema_eq, Href. simpl.
  split; [|done]. intros key. apply cleanProperties_names. apply dom_fmap_L.
Qed.

Lemma cleanSchema_property_names_witness :
  Schema.Required (cleanSchema ascending ∅ fixtures.camelSchema)
  = ["userName"].
Proof.
  destruct (cleanSchema_property_names ascending ∅ fixtures.camelSchema)
    as (_ & H & _); [reflexivity|exact H].
Defined.

End PropertyNames.

(** ** The model table of the declaration scanner *)

Section ModelTable.
Import strings.

Lemma FsNode_tree_ind (P : FsNode -> Prop) :
  (forall src, P (FsFile src)) ->
  (forall entries, Forall (fun entry => P entry.2) entries ->
                   P (FsDir entries)) ->
  forall node, P node.
Proof.
  intros Hfile Hdir. fix IH 1. intros [src|entries]; [apply Hfile|].
  apply Hdir. induction entries as [|[name child] entries IHentries].
  - constructor.
  - constructor; [apply IH|apply IHentries].
Qed.

(** A relation between the Analysis before and after that every parsed file
    respects is respected by the whole walk. *)
Lemma walk_preserves (a : analyzer.Analyzer)
    (P : analyzer.Analysis -> analyzer.Analysis -> Prop) :
  (forall analysis, P analysis analysis) ->
  (forall x y z, P x y -> P y z -> P x z) ->
  (forall path node analysis analysis',
      analyzer.parseSDKFile a path node analysis = inr analysis' ->
      P analysis analysis') ->
  forall node path analysis analysis',
    analyzer.walk a path node analysis = inr analysis' ->
    P analysis analysis'.
Proof.
  intros Hrefl Htrans Hfile.
  assert (forall path node analysis analysis',
             analyzer.visitSDK a path node analysis = inr analysis' ->
             P analysis analysis') as Hvisit.
  { intros path node analysis analysis'. unfold analyzer.visitSDK.
    destruct (_ || _); [|apply Hfile]. intros [= <-]. apply Hrefl. }
  induction node as [src|entries IH] using FsNode_tree_ind;
    intros path analysis analysis'; cbn [analyzer.walk];
    destruct (analyzer.visitSDK a path _ analysis) as [err|visited] eqn:Hv;
    try done.
  - intros [= <-]. by apply Hvisit in Hv.
  - apply Hvisit in Hv. revert visited Hv.
    induction IH as [|[name child] entries Hchild _ IHentries];
      intros visited Hv.
    + intros [= <-]. done.
    + destruct (analyzer.walk a (path +:+ "/" +:+ name) child visited)
        as [err|walked] eqn:Hw; [done|].
      intros Hrest. apply (IHentries walked); [|done].
      apply Htrans with visited; [done|]. by apply Hchild in Hw.
Qed.

Lemma ReplaceAll_removes (s : string) (old : ascii) :
  spec.allBytes (fun c => negb (Ascii.eqb c old))
    (ReplaceAll s old EmptyString) = true.
Proof.
  induction s as [|c s IH]; [done|]. simpl.
  destruct (Ascii.eqb c old) eqn:Hc; [by rewrite app_nil|].
  simpl. by rewrite Hc, IH.
Qed.

Lemma allBytes_drop (p : ascii -> bool) (n : nat) (s : string) :
  spec.allBytes p s = true -> spec.allBytes p (drop n s) = true.
Proof.
  revert s. induction n as [|n IH]; intros s; [by destruct s|].
  destruct s as [|c s]; [done|]. simpl.
  intros [_ H]%andb_true_iff. by apply IH.
Qed.

Lemma LastIndexByte_after (s : string) (c : ascii) (i : nat) :
  LastIndexByte s c = Some i ->
  spec.allBytes (fun b => negb (Ascii.eqb b c)) (drop (S i) s) = true.
Proof.
  revert i. induction s as [|a s IH]; intros i; [done|]. simpl.
  destruct (LastIndexByte s c) as [j|] eqn:Hj.
  - intros [= <-]. by apply IH.
  - destruct (Ascii.eqb a c); [|done]. intros [= <-]. simpl.
    clear IH. induction s as [|b s IH]; [done|]. simpl in *.
    destruct (LastIndexByte s c); [done|].
    destruct (Ascii.eqb b c) eqn:Hb; [done|]. simpl. by apply IH.
Qed.

Lemma LastIndexByte_none (s : string) (c : ascii) :
  LastIndexByte s c = None ->
  spec.allBytes (fun b => negb (Ascii.eqb b c)) s = true.
Proof.
  induction s as [|a s IH]; [done|]. simpl.
  destruct (LastIndexByte s c); [done|].
  destruct (Ascii.eqb a c); [done|]. intros _. by apply IH.
Qed.

Lemma ReplaceAll_none (s : string) (old : ascii) (new : string) :
  spec.allBytes (fun c => negb (Ascii.eqb c old)) s = true ->
  ReplaceAll s old new = s.
Proof.
  induction s as [|c s IH]; [done|]. simpl.
  intros [Hc Hs]%andb_true_iff. apply negb_true_iff in Hc. rewrite Hc.
  f_equal. by apply IH.
Qed.

Lemma LastIndexByte_absent_byte (s : string) (c : ascii) :
  spec.allBytes (fun b => negb (Ascii.eqb b c)) s = true ->
  LastIndexByte s c = None.
Proof.
  induction s as [|a s IH]; [done|]. simpl.
  intros [Ha Hs]%andb_true_iff. apply negb_true_iff in Ha.
  by rewrite (IH Hs), Ha.
Qed.

Lemma cleanTypeName_idempotent (typeName : string) :
  analyzer.cleanTypeName (analyzer.cleanTypeName typeName)
  = analyzer.cleanTypeName typeName.
Proof.
  assert (spec.allBytes (fun c => negb (Ascii.eqb c "*"))
            (analyzer.cleanTypeName typeName) = true) as Hstar.
  { unfold analyzer.cleanTypeName. cbv zeta.
    destruct (LastIndexByte _ _); [apply allBytes_drop|];
      apply ReplaceAll_removes. }
  assert (spec.allBytes (fun c => negb (Ascii.eqb c "."))
            (analyzer.cleanTypeName typeName) = true) as Hdot.
  { unfold analyzer.cleanTypeName. cbv zeta.
    destruct (LastIndexByte _ _) eqn:Hlast.
    - by apply LastIndexByte_after.
    - by apply LastIndexByte_none. }
  unfold analyzer.cleanTypeName at 1. cbv zeta.
  rewrite (ReplaceAll_none _ _ _ Hstar).
  by rewrite (LastIndexByte_absent_byte _ _ Hdot).
Qed.

Lemma grown_refl (a : analyzer.Analyzer) (analysis : analyzer.Analysis) :
  spec.grown a analysis analysis.
Proof. split; [done|]. split; [done|]. intros key model H. by left. Qed.

Lemma grown_trans (a : analyzer.Analyzer) (x y z : analyzer.Analysis) :
  spec.grown a x y -> spec.grown a y z -> spec.grown a x z.
Proof.
  intros (Hr1 & Hk1 & Hm1) (Hr2 & Hk2 & Hm2). split; [congruence|].
  split; [by intros key H%Hk1%Hk2|].
  intros key model [H|H]%Hm2; [by apply Hm1|by right].
Qed.

Lemma grown_fold (a : analyzer.Analyzer)
    (ds : list (string * list ast.Field * option string))
    (routes : list analyzer.Route.t) (models : gmap string analyzer.Model.t) :
  spec.grown a (analyzer.mkAnalysis routes models)
    (analyzer.mkAnalysis routes
       (foldl (fun m d => <[spec.tableName d := spec.tableModel a d]> m) models
          ds)).
Proof.
  revert models. induction ds as [|d ds IH]; intros models;
    [apply grown_refl|]. simpl.
  eapply grown_trans; [|apply IH]. split; [done|]. simpl. split.
  - intros key H. apply lookup_insert_is_Some.
    destruct (decide (spec.tableName d = key)); [by left|by right].
  - intros key model [[<- <-]|[_ H]]%lookup_insert_Some; [right|by left].
    split; [done|]. split; [done|]. apply cleanTypeName_idempotent.
Qed.

Lemma grown_parseSDKFile (a : analyzer.Analyzer) (path : string)
    (node : FsNode) (analysis analysis' : analyzer.Analysis) :
  analyzer.parseSDKFile a path node analysis = inr analysis' ->
  spec.grown a analysis analysis'.
Proof.
  destruct node as [[|decls]|entries]; try done. simpl. intros [= <-].
  rewrite parseGenDecl_fold. destruct analysis as [routes models].
  apply grown_fold.
Qed.

(** The declaration scanner only adds models: a scan that succeeds leaves
    the routes of the Analysis alone, keeps every name the table held, and
    every entry it wrote is a model stored under its own name, in the
    configured package, the name being free of asterisks and package
    qualifiers. *)
Theorem parseSDKModels_table (a : analyzer.Analyzer)
    (lstat : string -> option FsNode)
    (analysis analysis' : analyzer.Analysis) :
  analyzer.parseSDKModels a lstat analysis = inr analysis' ->
  analyzer.Routes analysis' = analyzer.Routes analysis /\
  (forall key, is_Some (analyzer.Models analysis !! key) ->
               is_Some (analyzer.Models analysis' !! key)) /\
  (forall key model,
      analyzer.Models analysis' !! key = Some model ->
      analyzer.Models analysis !! key = Some model \/
      (analyzer.Model.Name model = key /\
       analyzer.Model.Package model = analyzer.sdkPackage a /\
       analyzer.cleanTypeName key = key)).
Proof.
  unfold analyzer.parseSDKModels. cbv zeta.
  destruct (lstat _) as [node|]; [|done].
  apply (walk_preserves a (spec.grown a)).
  - apply grown_refl.
  - apply grown_trans.
  - apply grown_parseSDKFile.
Qed.

Lemma parseSDKModels_table_witness :
  match analyzer.parseSDKModels fixtures.scanner fixtures.twoUsers
          (analyzer.mkAnalysis [] ∅) with
  | inr analysis' => analyzer.Routes analysis' = []
  | inl _ => False
  end.
Proof.
  destruct (analyzer.parseSDKModels fixtures.scanner fixtures.twoUsers
              (analyzer.mkAnalysis [] ∅)) as [err|analysis'] eqn:H.
  - vm_compute in H. discriminate H.
  - apply (parseSDKModels_table fixtures.scanner fixtures.twoUsers
             (analyzer.mkAnalysis [] ∅) analysis' H).
Defined.

End ModelTable.

(** ** Tags and the frame of the document *)

Section DocumentFrame.
Import strings generator.

Lemma addRoute_seen (st : PathsState) (route : analyzer.Route.t) :
  spec.routeKey route ∈ processedPaths st -> addRoute st route = st.
Proof.
  intros H. rewrite addRoute_step. cbv zeta.
  fold (spec.routeKey route). by rewrite bool_decide_eq_true_2.
Qed.

Lemma addRoute_fresh (st : PathsState) (route : analyzer.Route.t) :
  spec.routeKey route ∉ processedPaths st ->
  tags (addRoute st route)
    = list_to_set (analyzer.Route.Tags route) ∪ tags st /\
  processedPaths (addRoute st route)
    = {[spec.routeKey route]} ∪ processedPaths st.
Proof.
  intros H. rewrite addRoute_step. cbv zeta.
  fold (spec.routeKey route). by rewrite bool_decide_eq_false_2.
Qed.

Lemma addRoute_tags (routes : list analyzer.Route.t) (st : PathsState)
    (name : string) :
  name ∈ tags (foldl addRoute st routes) <->
  name ∈ tags st \/
  exists before route after,
    routes = before ++ route :: after /\
    (spec.routeKey route ∉ processedPaths st) /\
    Forall (fun r => spec.routeKey r <> spec.routeKey route) before /\
    name ∈ analyzer.Route.Tags route.
Proof.
  revert st. induction routes as [|r routes IH]; intros st.
  - simpl. split; [by left|]. intros [H|(before & route & after & H & _)];
      [done|]. by destruct before.
  - cbn [foldl]. rewrite IH. clear IH.
    destruct (decide (spec.routeKey r ∈ processedPaths st)) as [Hseen|Hfresh].
    + rewrite (addRoute_seen _ _ Hseen). split.
      * intros [H|(before & route & after & -> & Hkey & Hbefore & Hname)];
          [by left|right].
        exists (r :: before), route, after. split; [done|]. split; [done|].
        split; [|done]. constructor; [|done]. intros Heq.
        apply Hkey. by rewrite <- Heq.
      * intros [H|(before & route & after & Heq & Hkey & Hbefore & Hname)];
          [by left|right].
        destruct before as [|b before]; simplify_eq/=; [done|].
        apply Forall_cons in Hbefore as [_ Hbefore].
        by exists before, route, after.
    + destruct (addRoute_fresh _ _ Hfresh) as [-> ->]. split.
      * intros [[H%elem_of_list_to_set|H]%elem_of_union
               |(before & route & after & -> & Hkey & Hbefore & Hname)].
        -- right. exists [], r, routes. split; [done|]. split; [done|].
           split; [constructor|done].
        -- by left.
        -- right. exists (r :: before), route, after. split; [done|].
           split; [set_solver|]. split; [|done].
           constructor; [|done]. set_solver.
      * intros [H|(before & route & after & Heq & Hkey & Hbefore & Hname)].
        -- left. set_solver.
        -- destruct before as [|b before]; simplify_eq/=.
           ++ left. apply elem_of_union. left. by apply elem_of_list_to_set.
           ++ apply Forall_cons in Hbefore as [Hb Hbefore]. right.
              exists before, route, after. split; [done|].
              split; [set_solver|]. done.
Qed.

(** The tags of a synthesized document: every name occurs once, its
    description is the generated one, and the names are exactly the tags of
    the routes that are processed, that is, of the first route of each
    method and normalized path; the tags of a skipped duplicate are not
    collected. *)
Theorem Generate_tags (o : MapOrder) (config : Config.t)
    (analysis : analyzer.Analysis) :
  let doc := Generate o config analysis in
  NoDup (Tag.Name <$> OpenAPISpec.Tags doc) /\
  (forall tag, tag ∈ OpenAPISpec.Tags doc ->
               Tag.Description tag = generateTagDescription (Tag.Name tag)) /\
  (forall name,
      name ∈ Tag.Name <$> OpenAPISpec.Tags doc <->
      exists before route after,
        analyzer.Routes analysis = before ++ route :: after /\
        Forall (fun r => spec.routeKey r <> spec.routeKey route) before /\
        name ∈ analyzer.Route.Tags route).
Proof.
  intros doc.
  set (st := foldl addRoute (mkPathsState ∅ ∅ ∅) (analyzer.Routes analysis)).
  assert (OpenAPISpec.Tags doc
          = (fun tagName => Tag.mk tagName (generateTagDescription tagName))
              <$> rangeSet o (tags st)) as -> by reflexivity.
  assert (Tag.Name <$>
            ((fun tagName => Tag.mk tagName (generateTagDescription tagName))
               <$> rangeSet o (tags st)) = rangeSet o (tags st)) as ->.
  { rewrite <- list_fmap_compose. apply list_fmap_id. }
  split; [|split].
  - unfold rangeSet. rewrite (order_perm o). apply NoDup_elements.
  - intros tag (name & -> & _)%list_elem_of_fmap. done.
  - intros name. rewrite rangeSet_members. unfold st. rewrite addRoute_tags.
    cbn [tags processedPaths]. split.
    + intros [H|(before & route & after & Heq & _ & Hbefore & Hname)];
        [set_solver|]. by exists before, route, after.
    + intros (before & route & after & Heq & Hbefore & Hname). right.
      exists before, route, after. split; [done|]. split; [set_solver|done].
Qed.

(** The engine touches schemas and operations only: the version string, the
    info block, the servers, the tags and the security schemes of a document
    are returned as they were, the document has the same paths, and under
    each path the same method slots are filled. *)
Theorem ValidateAndCleanSpec_frame (o : MapOrder) (doc : OpenAPISpec.t) :
  let cleaned := ValidateAndCleanSpec o doc in
  OpenAPISpec.OpenAPI cleaned = OpenAPISpec.OpenAPI doc /\
  OpenAPISpec.Info_ cleaned = OpenAPISpec.Info_ doc /\
  OpenAPISpec.Servers cleaned = OpenAPISpec.Servers doc /\
  OpenAPISpec.Tags cleaned = OpenAPISpec.Tags doc /\
  Components.SecuritySchemes (OpenAPISpec.Components_ cleaned)
    = Components.SecuritySchemes (OpenAPISpec.Components_ doc) /\
  dom (OpenAPISpec.Paths cleaned) = dom (OpenAPISpec.Paths doc) /\
  (forall path method,
      is_Some (spec.operationAt method path (OpenAPISpec.Paths cleaned)) <->
      is_Some (spec.operationAt method path (OpenAPISpec.Paths doc))).
Proof.
  intros cleaned. repeat (split; [reflexivity|]). split.
  - apply set_eq. intros path. rewrite !elem_of_dom. unfold cleaned.
    rewrite ValidateAndCleanSpec_paths. apply fmap_is_Some.
  - intros path method. unfold spec.operationAt, cleaned.
    rewrite ValidateAndCleanSpec_paths.
    destruct (OpenAPISpec.Paths doc !! path) as [item|]; [|done]. simpl.
    rewrite slotOf_onOperations. apply fmap_is_Some.
Qed.

End DocumentFrame.

(** ** The content of the operations of a document *)

Section OperationContent.
Import strings generator.

Lemma renameSchemas_map (o : MapOrder) (schemas : gmap string Schema.t)
    (oldName newName : string) :
  snd (renameSchemas o schemas) !! oldName = Some newName ->
  newName = cleanSchemaName oldName.
Proof.
  unfold renameSchemas.
  assert (forall (keys : list string)
                 (acc : gmap string Schema.t * gmap string string),
             (forall old new, snd acc !! old = Some new ->
                              new = cleanSchemaName old) ->
             forall old new,
               snd (foldl (fun acc oldName =>
                      match schemas !! oldName with
                      | Some schema =>
                          (<[cleanSchemaName oldName := schema]> (fst acc),
                           <[oldName := cleanSchemaName oldName]> (snd acc))
                      | None => acc
                      end) acc keys) !! old = Some new ->
               new = cleanSchemaName old) as Hfold.
  { induction keys as [|k keys IH]; intros acc Hacc; [done|]. simpl.
    apply IH. destruct (schemas !! k); [|done]. simpl.
    intros old new [[<- <-]|[_ H]]%lookup_insert_Some; [done|by apply Hacc]. }
  apply Hfold. simpl. intros old new H. by rewrite lookup_empty in H.
Qed.

Lemma updateReference_renamed (o : MapOrder) (schemas : gmap string Schema.t)
    (name : string) :
  updateReference (refPrefix +:+ name) (snd (renameSchemas o schemas))
  = refPrefix +:+ cleanSchemaName name.
Proof.
  unfold updateReference.
  rewrite refPrefix_app_nonempty, HasPrefix_app, TrimPrefix_app. simpl.
  destruct (snd (renameSchemas o schemas) !! name) as [new|] eqn:Hnew; [|done].
  by apply renameSchemas_map in Hnew as ->.
Qed.

(** A bare reference to [name], after the renaming pass and the remover. *)
Lemma reference_finished (o : MapOrder) (schemas : gmap string Schema.t)
    (validSchemas : gset string) (name : string) :
  removeInvalidRefsFromSchema validSchemas
    (updateSchemaReferences (snd (renameSchemas o schemas))
       (Schema.ofRef (refPrefix +:+ name)))
  = if bool_decide (cleanSchemaName name ∈ validSchemas)
    then Schema.ofRef (refPrefix +:+ cleanSchemaName name)
    else Schema.ofType "object".
Proof.
  rewrite updateSchemaReferences_eq. cbn [Schema.ofRef Schema.Ref
    Schema.Type_ Schema.Format Schema.Properties Schema.Items Schema.Required
    Schema.AdditionalProperties Schema.Example Schema.Description Schema.Enum
    Schema.Default].
  rewrite refPrefix_app_nonempty. cbn [negb].
  rewrite updateReference_renamed, removeInvalidRefsFromSchema_eq.
  cbn [Schema.Ref Schema.Type_ Schema.Format Schema.Properties Schema.Items
       Schema.Required Schema.AdditionalProperties Schema.Example
       Schema.Description Schema.Enum Schema.Default].
  rewrite refPrefix_app_nonempty, TrimPrefix_app. cbn [negb andb].
  destruct (bool_decide _); [|done]. cbn [negb].
  reflexivity.
Qed.

Lemma content_finished (o : MapOrder) (schemas : gmap string Schema.t)
    (validSchemas : gset string) (name : string) :
  onMedia (removeInvalidRefsFromSchema validSchemas) <$>
    (onMedia (updateSchemaReferences (snd (renameSchemas o schemas))) <$>
       refContent name)
  = {[ "application/json" :=
         MediaType.mk
           (if bool_decide (cleanSchemaName name ∈ validSchemas)
            then Schema.ofRef (refPrefix +:+ cleanSchemaName name)
            else Schema.ofType "object") ]}.
Proof.
  unfold refContent. rewrite !map_fmap_singleton. unfold onMedia.
  cbn [MediaType.Schema_]. by rewrite reference_finished.
Qed.

Lemma Generate_valid_names (o : MapOrder) (config : Config.t)
    (analysis : analyzer.Analysis) :
  exists draft,
    Generate o config analysis = ValidateAndCleanSpec o draft /\
    OpenAPISpec.Paths draft = spec.draftPaths (analyzer.Routes analysis) /\
    dom (schemasOf (Generate o config analysis))
    = dom (spec.tableAfterClean o (schemasOf draft)) /\
    "ErrorResponse" ∈ dom (schemasOf (Generate o config analysis)).
Proof.
  destruct (Generate_eq o config analysis) as (draft & Heq & Hpaths & Hschemas).
  exists draft. split; [done|]. split; [done|]. rewrite Heq. split.
  - by rewrite ValidateAndCleanSpec_schemas, dom_fmap_L.
  - apply elem_of_dom, ValidateAndCleanSpec_names.
    exists "ErrorResponse". split; [|by vm_compute].
    rewrite Hschemas. apply withBaseline_names. tauto.
Qed.

(** The content of every operation of a synthesized document, read off the
    route it was generated from: the 400 and 500 responses refer to the
    [ErrorResponse] schema, which the table always holds; the 200 response
    and the request body refer to the cleaned name of the model of the route
    when the schema table holds that name, and carry the generic object
    schema otherwise; a route without a response model has a 200 response
    without content. *)
Theorem Generate_operation_content (o : MapOrder) (config : Config.t)
    (analysis : analyzer.Analysis) (path : string) (item : PathItem.t)
    (x : Operation.t) :
  let doc := Generate o config analysis in
  OpenAPISpec.Paths doc !! path = Some item ->
  spec.hasOperation item x ->
  exists route,
    route ∈ analyzer.Routes analysis /\
    convertPathFormat (analyzer.Route.Path route) = path /\
    Operation.Responses x !! "400"
      = Some (Response.mk "Bad request" (refContent "ErrorResponse")) /\
    Operation.Responses x !! "500"
      = Some (Response.mk "Internal server error"
                (refContent "ErrorResponse")) /\
    Operation.Responses x !! "200"
      = Some (Response.mk "Successful operation"
                match analyzer.Route.Response route with
                | Some response =>
                    spec.settledContent doc (analyzer.Model.Name response)
                | None => ∅
                end) /\
    Operation.RequestBody_ x
      = (fun body =>
           RequestBody.mk "Request body"
             (spec.settledContent doc (analyzer.Model.Name body)) true)
          <$> analyzer.Route.RequestBody route.
Proof.
  intros doc. unfold doc.
  destruct (Generate_valid_names o config analysis)
    as (draft & Heq & Hpaths & Hdom & Herror).
  unfold spec.settledContent, spec.settled. rewrite Hdom.
  rewrite Hdom in Herror. rewrite Heq. clear Heq Hdom doc.
  intros Hitem Hx.
  rewrite ValidateAndCleanSpec_paths, Hpaths in Hitem.
  destruct (spec.draftPaths _ !! path) as [item0|] eqn:Hitem0; [|done].
  injection Hitem as <-.
  apply hasOperation_onOperations in Hx as (x0 & Hx0 & ->).
  destruct (addRoute_operations_at _ _ _ _ _ Hitem0 Hx0)
    as [(route & Hin & -> & Hp)|(item1 & H1 & _)].
  2:{ simpl in H1. by rewrite lookup_empty in H1. }
  exists route. split; [done|]. split; [done|].
  set (valid := dom (spec.tableAfterClean o (schemasOf draft))) in *.
  unfold spec.finished, removeInvalidRefsFromOperation,
    validateOperationParameters, updateOperationReferences, onContent.
  cbn [Operation.Responses Operation.RequestBody_ generateOperation].
  rewrite !lookup_fmap.
  assert (cleanSchemaName "ErrorResponse" = "ErrorResponse") as Hfixed
    by (by vm_compute).
  split; [|split; [|split]].
  - rewrite lookup_insert_ne by done. rewrite lookup_insert_eq. simpl.
    rewrite content_finished, Hfixed, bool_decide_eq_true_2 by done. done.
  - rewrite lookup_insert_eq. simpl.
    rewrite content_finished, Hfixed, bool_decide_eq_true_2 by done. done.
  - rewrite !lookup_insert_ne by done. rewrite lookup_insert_eq. simpl.
    destruct (analyzer.Route.Response route) as [response|]; simpl.
    + by rewrite content_finished, cleanSchemaName_again.
    + by rewrite !fmap_empty.
  - destruct (analyzer.Route.RequestBody route) as [body|]; [|done]. simpl.
    rewrite content_finished.
    destruct (Contains _ "Request" || Contains _ "Body");
      [done|by rewrite cleanSchemaName_again].
Qed.

Lemma Generate_operation_content_witness :
  exists route,
    route ∈ analyzer.Routes fixtures.usersAnalysis /\
    convertPathFormat (analyzer.Route.Path route) = "/v1/users/{id}".
Proof.
  pose (x := spec.finished ascending ∅
               {[ "ErrorResponse"; "StandardResponse" ]} "/v1/users/{id}"
               (generateOperation
                  (fixtures.routeTo "GET" "/v1/users/:id" "GetUser"))).
  destruct (Generate_operation_content ascending fixtures.config
              fixtures.usersAnalysis "/v1/users/{id}"
              (PathItem.mk (Some x) None None None None) x)
    as (route & Hin & Hp & _).
  - vm_compute. reflexivity.
  - left. reflexivity.
  - by exists route.
Defined.

End OperationContent.

(** ** Inferred response types and query parameters *)

Section AnalyzerHelpers.
Import strings.

Lemma string_app_assoc (a b c : string) : (a +:+ b) +:+ c = a +:+ (b +:+ c).
Proof.
  induction a as [|x a IH]; [done|]. by rewrite !app_cons, IH.
Qed.

Lemma inferLoop_format (mappings : list (string * string))
    (methodName r : string) :
  analyzer.inferLoop mappings methodName = Some r ->
  exists prefix format,
    (prefix, format) ∈ mappings /\
    r = Sprintf1 format (TrimPrefix methodName prefix).
Proof.
  induction mappings as [|[prefix format] mappings IH]; [done|]. simpl.
  destruct (HasPrefix methodName prefix).
  - destruct (negb _).
    + intros [= <-]. exists prefix, format. split; [left|done].
    + intros (p & f & Hin & ->)%IH. exists p, f. split; [by right|done].
  - intros (p & f & Hin & ->)%IH. exists p, f. split; [by right|done].
Qed.

Lemma inferResponseType_suffix (methodName : string) :
  exists stem,
    analyzer.inferResponseTypeFromMethodName methodName
    = stem +:+ "Response".
Proof.
  unfold analyzer.inferResponseTypeFromMethodName.
  destruct (analyzer.inferLoop _ _) as [r|] eqn:Hr; [|by eexists].
  apply inferLoop_format in Hr as (prefix & format & Hin & ->).
  set (entity := TrimPrefix methodName prefix).
  unfold analyzer.prefixMappings in Hin.
  repeat (apply elem_of_cons in Hin as [[= -> ->]|Hin];
          [first [ by exists entity
                 | by exists (entity +:+ "List");
                   rewrite string_app_assoc
                 | by exists ("Search" +:+ entity);
                   rewrite string_app_assoc
                 | by exists (entity +:+ "Validation");
                   rewrite string_app_assoc
                 | by exists (entity +:+ "Check");
                   rewrite string_app_assoc ]|]).
  by apply elem_of_nil in Hin.
Qed.

Lemma ReplaceAll_app (a b : string) (old : ascii) (new : string) :
  ReplaceAll (a +:+ b) old new = ReplaceAll a old new +:+ ReplaceAll b old new.
Proof.
  induction a as [|x a IH]; [done|]. rewrite app_cons. simpl.
  destruct (Ascii.eqb x old); by rewrite IH, ?string_app_assoc.
Qed.

Lemma LastIndexByte_app_free (s t : string) (c : ascii) :
  LastIndexByte t c = None ->
  LastIndexByte (s +:+ t) c = LastIndexByte s c.
Proof.
  intros Ht. induction s as [|a s IH]; [done|]. rewrite app_cons. simpl.
  by rewrite IH.
Qed.

Lemma LastIndexByte_lt (s : string) (c : ascii) (i : nat) :
  LastIndexByte s c = Some i -> i < String.length s.
Proof.
  revert i. induction s as [|a s IH]; intros i; [done|]. simpl.
  destruct (LastIndexByte s c) as [j|].
  - intros [= <-]. specialize (IH j eq_refl). lia.
  - destruct (Ascii.eqb a c); [|done]. intros [= <-]. lia.
Qed.

Lemma drop_app_le (n : nat) (s t : string) :
  n <= String.length s -> drop n (s +:+ t) = drop n s +:+ t.
Proof.
  revert s. induction n as [|n IH]; intros s Hn.
  - by destruct s, t.
  - destruct s as [|a s]; simpl in Hn; [lia|]. rewrite app_cons. simpl.
    apply IH. lia.
Qed.

Lemma Contains_app_r (s sub : string) : Contains (s +:+ sub) sub = true.
Proof.
  induction s as [|a s IH].
  - rewrite app_nil. destruct sub as [|b sub]; [done|].
    cbn [Contains]. by rewrite HasPrefix_self.
  - rewrite app_cons. simpl. rewrite IH. apply orb_true_r.
Qed.

Lemma cleanTypeName_suffix (stem : string) :
  exists stem',
    analyzer.cleanTypeName (stem +:+ "Response") = stem' +:+ "Response".
Proof.
  unfold analyzer.cleanTypeName. cbv zeta. rewrite ReplaceAll_app.
  change (ReplaceAll "Response" "*" EmptyString) with "Response".
  set (kept := ReplaceAll stem "*" EmptyString).
  rewrite LastIndexByte_app_free by reflexivity.
  destruct (LastIndexByte kept ".") as [idx|] eqn:Hidx; [|by eexists].
  apply LastIndexByte_lt in Hidx.
  rewrite drop_app_le by lia. by eexists.
Qed.

(** Every response type the analyzer infers from a method name ends in
    [Response], and [isResponseType] recognizes it as a response type. *)
Theorem inferred_type_is_response_type (methodName : string) :
  (exists stem,
      analyzer.inferResponseTypeFromMethodName methodName
      = stem +:+ "Response") /\
  analyzer.isResponseType
    (analyzer.inferResponseTypeFromMethodName methodName) = true.
Proof.
  split; [apply inferResponseType_suffix|].
  destruct (inferResponseType_suffix methodName) as [stem ->].
  unfold analyzer.isResponseType. cbv zeta.
  destruct (cleanTypeName_suffix stem) as [stem' ->].
  by rewrite Contains_app_r.
Qed.

Lemma mapFieldTypeToParamType_range (fieldType : string) :
  analyzer.mapFieldTypeToParamType fieldType
    ∈ ["array"; "integer"; "number"; "boolean"; "string"].
Proof.
  unfold analyzer.mapFieldTypeToParamType. cbv zeta.
  repeat match goal with
         | |- context [if ?b then _ else _] => destruct b
         end; set_solver.
Qed.

Lemma fieldQueryParameter_shape (field : analyzer.Field.t) :
  analyzer.QueryParameter.Required (analyzer.fieldQueryParameter field) = false /\
  analyzer.QueryParameter.Type_ (analyzer.fieldQueryParameter field)
  = analyzer.mapFieldTypeToParamType (analyzer.Field.Type_ field).
Proof.
  unfold analyzer.fieldQueryParameter. cbv zeta.
  repeat match goal with
         | |- context [if String.eqb ?a ?b || ?c then _ else _] =>
             destruct (String.eqb a b || c)
         | |- context [if String.eqb ?a ?b then _ else _] =>
             destruct (String.eqb a b)
         end; done.
Qed.

Lemma extractQueryParameters_shape (models : gmap string analyzer.Model.t)
    (typeName : string) (q : analyzer.QueryParameter.t) :
  q ∈ analyzer.extractQueryParametersFromType models typeName ->
  analyzer.QueryParameter.Required q = false /\
  analyzer.QueryParameter.Type_ q
    ∈ ["array"; "integer"; "number"; "boolean"; "string"].
Proof.
  unfold analyzer.extractQueryParametersFromType. cbv zeta.
  destruct (models !! _) as [model|].
  - intros (field & -> & _)%list_elem_of_fmap.
    destruct (fieldQueryParameter_shape field) as [-> ->].
    split; [done|apply mapFieldTypeToParamType_range].
  - destruct (existsb _ _); [|by intros H%elem_of_nil].
    unfold analyzer.conversationFilterParameters. intros H.
    repeat (apply elem_of_cons in H as [->|H]; [split; [done|set_solver]|]).
    by apply elem_of_nil in H.
Qed.

(** Query parameters read off a request type are optional, and the two
    packages agree on their types: the analyzer names one of five types, and
    the schema the generator gives the parameter carries that same type; a
    64-bit integer field becomes a plain [integer] parameter of format
    [int32]. *)
Theorem query_parameters_typed (models : gmap string analyzer.Model.t)
    (typeName : string) (q : analyzer.QueryParameter.t) :
  q ∈ analyzer.extractQueryParametersFromType models typeName ->
  let param := generator.operationParameter (analyzer.asParameter q) in
  generator.Param.In param = "query" /\
  generator.Param.Name param = analyzer.QueryParameter.Name q /\
  generator.Param.Required param = false /\
  analyzer.QueryParameter.Type_ q
    ∈ ["array"; "integer"; "number"; "boolean"; "string"] /\
  generator.Schema.Type_ (generator.Param.Schema_ param)
    = analyzer.QueryParameter.Type_ q /\
  generator.Schema.Format (generator.Param.Schema_ param) <> "int64".
Proof.
  intros [Hreq Htype]%extractQueryParameters_shape param.
  split; [done|]. split; [done|]. split; [done|]. split; [done|].
  unfold param, generator.operationParameter, generator.generateParameterSchema.
  cbn [generator.Param.Schema_ analyzer.asParameter analyzer.Param.Type_
       generator.Schema.Type_ generator.Schema.Format].
  repeat (apply elem_of_cons in Htype as [->|Htype]; [by split|]).
  by apply elem_of_nil in Htype.
Qed.

Lemma query_parameters_typed_witness :
  generator.Schema.Type_
    (generator.Param.Schema_
       (generator.operationParameter
          (analyzer.asParameter
             (analyzer.QueryParameter.mk "limit" "integer" false
                "Number of items to return" (Some (analyzer.VInt 100)) []))))
  = "integer".
Proof.
  destruct (query_parameters_typed ∅ "ConversationFilter"
              (analyzer.QueryParameter.mk "limit" "integer" false
                 "Number of items to return" (Some (analyzer.VInt 100)) []))
    as (_ & _ & _ & _ & H & _); [|exact H].
  unfold analyzer.extractQueryParametersFromType. cbv zeta.
  rewrite lookup_empty. cbn [existsb].
  change (String.eqb (analyzer.cleanTypeName "ConversationFilter")
            "ConversationFilter") with true. cbn [orb].
  unfold analyzer.conversationFilterParameters.
  do 9 apply list_elem_of_further. apply list_elem_of_here.
Defined.




End AnalyzerHelpers.

(** ** What the enumeration order can change *)

Section EnumerationOrder.
Import strings generator.

Lemma isPathParam_injected (name other : string) :
  isPathParam name (spec.injectedParam other) = String.eqb other name.
Proof. reflexivity. Qed.

Lemma existsb_app_injected (valid : list Param.t) (name other : string) :
  other <> name ->
  existsb (isPathParam name) (valid ++ [spec.injectedParam other])
  = existsb (isPathParam name) valid.
Proof.
  intros Hne. rewrite existsb_app. simpl. rewrite isPathParam_injected.
  apply String.eqb_neq in Hne. rewrite Hne. by rewrite !orb_false_r.
Qed.

Lemma inject_closed_form (names : list string) (valid : list Param.t) :
  NoDup names ->
  foldl injectParam valid names
  = valid ++
    (spec.injectedParam <$>
       List.filter (fun name => negb (existsb (isPathParam name) valid)) names).
Proof.
  intros Hnames. revert valid.
  induction Hnames as [|n names Hn _ IH]; intros valid.
  - simpl. by rewrite app_nil_r.
  - cbn [foldl List.filter]. unfold injectParam at 2.
    destruct (existsb (isPathParam n) valid) eqn:Hfound; cbn [negb].
    + apply IH.
    + fold (spec.injectedParam n). rewrite IH, <- app_assoc. f_equal.
      cbn [fmap list_fmap app]. f_equal. f_equal.
      apply filter_ext_in. intros m Hm. f_equal.
      apply existsb_app_injected. intros ->.
      by apply Hn, list_elem_of_In.
Qed.

Lemma rangeSet_NoDup (o : MapOrder) (s : gset string) : NoDup (rangeSet o s).
Proof. unfold rangeSet. rewrite (order_perm o). apply NoDup_elements. Qed.

Lemma rangeSet_perm (o1 o2 : MapOrder) (s : gset string) :
  rangeSet o1 s ≡ₚ rangeSet o2 s.
Proof. unfold rangeSet. by rewrite !order_perm. Qed.

Lemma filter_perm {A} (f : A -> bool) (l1 l2 : list A) :
  l1 ≡ₚ l2 -> List.filter f l1 ≡ₚ List.filter f l2.
Proof.
  induction 1 as [|x l1 l2 _ IH|x y l|l1 l2 l3 _ IH1 _ IH2]; simpl.
  - done.
  - destruct (f x); by rewrite IH.
  - destruct (f x), (f y); try done. apply perm_swap.
  - by rewrite IH1.
Qed.

(** The reconciled parameter list in closed form: the declared parameters
    that pass the filter, in their order, followed by one injected parameter
    for each token that no kept path parameter names, in enumeration order.
    Two enumeration orders give the same kept prefix and the same injected
    parameters, possibly in a different order. *)
Theorem validateOperationParameters_order (o1 o2 : MapOrder)
    (operation : Operation.t) (pathParams : list (list string)) :
  let kept := List.filter (keepParam (expectedOf pathParams))
                (Operation.Parameters operation) in
  let missing (o : MapOrder) :=
    List.filter (fun name => negb (existsb (isPathParam name) kept))
      (rangeSet o (expectedOf pathParams)) in
  Operation.Parameters (validateOperationParameters o1 operation pathParams)
    = kept ++ (spec.injectedParam <$> missing o1) /\
  missing o1 ≡ₚ missing o2 /\
  Operation.Parameters (validateOperationParameters o1 operation pathParams)
    ≡ₚ Operation.Parameters
         (validateOperationParameters o2 operation pathParams).
Proof.
  intros kept missing.
  assert (forall o,
             Operation.Parameters
               (validateOperationParameters o operation pathParams)
             = kept ++ (spec.injectedParam <$> missing o)) as Hclosed.
  { intros o. unfold validateOperationParameters.
    cbn [Operation.Parameters]. apply inject_closed_form, rangeSet_NoDup. }
  assert (missing o1 ≡ₚ missing o2) as Hperm
    by apply filter_perm, rangeSet_perm.
  split; [apply Hclosed|]. split; [done|].
  rewrite !Hclosed. by rewrite Hperm.
Qed.

(** The skeleton of a synthesized document does not depend on the
    enumeration order of the maps: two runs give the same version string,
    info block and servers, the same schema names, the same paths with the
    same method slots filled, and the same tags, possibly in a different
    order. *)
Theorem Generate_skeleton_order (o1 o2 : MapOrder) (config : Config.t)
    (analysis : analyzer.Analysis) :
  let doc1 := Generate o1 config analysis in
  let doc2 := Generate o2 config analysis in
  OpenAPISpec.OpenAPI doc1 = OpenAPISpec.OpenAPI doc2 /\
  OpenAPISpec.Info_ doc1 = OpenAPISpec.Info_ doc2 /\
  OpenAPISpec.Servers doc1 = OpenAPISpec.Servers doc2 /\
  dom (schemasOf doc1) = dom (schemasOf doc2) /\
  dom (OpenAPISpec.Paths doc1) = dom (OpenAPISpec.Paths doc2) /\
  (forall path method,
      is_Some (spec.operationAt method path (OpenAPISpec.Paths doc1)) <->
      is_Some (spec.operationAt method path (OpenAPISpec.Paths doc2))) /\
  OpenAPISpec.Tags doc1 ≡ₚ OpenAPISpec.Tags doc2.
Proof.
  intros doc1 doc2. repeat (split; [reflexivity|]).
  assert (forall o path,
             OpenAPISpec.Paths (Generate o config analysis) !! path
             = onOperations
                 (spec.finished o
                    (snd (renameSchemas o
                            (withBaseline
                               (modelSchemas o (analyzer.Models analysis)))))
                    (dom (spec.tableAfterClean o
                            (withBaseline
                               (modelSchemas o (analyzer.Models analysis)))))
                    path)
                 <$> (spec.draftPaths (analyzer.Routes analysis) !! path))
    as Hpaths.
  { intros o path.
    destruct (Generate_eq o config analysis) as (draft & -> & Hp & Hs).
    by rewrite ValidateAndCleanSpec_paths, Hp, Hs. }
  split; [|split; [|split]].
  - apply set_eq. intros name. rewrite !elem_of_dom.
    assert (forall o,
               is_Some (schemasOf (Generate o config analysis) !! name) <->
               (exists key model,
                   analyzer.Models analysis !! key = Some model /\
                   cleanSchemaName (analyzer.Model.Name model) = name) \/
               name = "ErrorResponse" \/ name = "StandardResponse") as Hnames.
    { intros o.
      destruct (Generate_eq o config analysis) as (draft & -> & _ & Hs).
      rewrite ValidateAndCleanSpec_names, Hs. split.
      - intros (oldName & [Hold|[-> | ->]]%withBaseline_names & <-).
        + apply modelSchemas_names in Hold as (key & model & Hm & <-).
          left. exists key, model. split; [done|].
          symmetry. apply cleanSchemaName_again.
        + right. left. by vm_compute.
        + right. right. by vm_compute.
      - intros [(key & model & Hm & <-)|[-> | ->]].
        + exists (cleanSchemaName (analyzer.Model.Name model)). split.
          * apply withBaseline_names. left. apply modelSchemas_names. eauto.
          * apply cleanSchemaName_again.
        + exists "ErrorResponse". split; [|by vm_compute].
          apply withBaseline_names. tauto.
        + exists "StandardResponse". split; [|by vm_compute].
          apply withBaseline_names. tauto. }
    unfold doc1, doc2. by rewrite !Hnames.
  - apply set_eq. intros path. rewrite !elem_of_dom. unfold doc1, doc2.
    rewrite !Hpaths. by rewrite !fmap_is_Some.
  - intros path method. unfold spec.operationAt, doc1, doc2.
    rewrite !Hpaths.
    destruct (spec.draftPaths _ !! path) as [item|]; [|done]. simpl.
    rewrite !slotOf_onOperations. by rewrite !fmap_is_Some.
  - unfold doc1, doc2, Generate. cbv zeta.
    set (st := foldl addRoute _ _).
    change (OpenAPISpec.Tags (ValidateAndCleanSpec o1 ?d))
      with (OpenAPISpec.Tags d).
    change (OpenAPISpec.Tags (ValidateAndCleanSpec o2 ?d))
      with (OpenAPISpec.Tags d).
    cbn [OpenAPISpec.Tags]. apply fmap_Permutation, rangeSet_perm.
Qed.

End EnumerationOrder.

(** ** From a struct declaration to a schema *)

Section StructFields.
Import strings.

Lemma embeddedField_shape (field : ast.Field) :
  let f := analyzer.embeddedField field in
  analyzer.Field.Name f = analyzer.Field.Type_ f /\
  analyzer.Field.Type_ f = analyzer.getTypeStringWithArrays (ast.Type_ field) /\
  analyzer.Field.OriginalType f = analyzer.Field.Type_ f /\
  analyzer.Field.Example f = None /\
  analyzer.Field.Description f = EmptyString /\
  analyzer.Field.JSONTag f
    = match ast.Tag field with
      | Some tag => analyzer.extractJSONTag tag
      | None => EmptyString
      end /\
  analyzer.Field.Required f
    = negb (String.eqb (analyzer.Field.JSONTag f) EmptyString) &&
      negb (Contains (analyzer.Field.JSONTag f) "omitempty").
Proof.
  unfold analyzer.embeddedField. cbv zeta.
  destruct (ast.Tag field) as [tag|]; [|done].
  destruct (String.eqb (analyzer.extractJSONTag tag) EmptyString) eqn:Htag;
    simpl; rewrite ?Htag; [|done].
  apply String.eqb_eq in Htag. by rewrite Htag.
Qed.

Lemma namedField_shape (field : ast.Field) (fieldName : string)
    (f : analyzer.Field.t) :
  analyzer.namedField field fieldName = Some f ->
  ast.IsExported fieldName = true /\
  analyzer.Field.Name f = fieldName /\
  analyzer.Field.Type_ f = analyzer.getTypeStringWithArrays (ast.Type_ field) /\
  analyzer.Field.OriginalType f = analyzer.Field.Type_ f /\
  analyzer.Field.Example f = None /\
  analyzer.Field.Description f = analyzer.docText (ast.Doc field) /\
  analyzer.Field.JSONTag f
    = match ast.Tag field with
      | Some tag => analyzer.extractJSONTag tag
      | None => EmptyString
      end /\
  analyzer.Field.Required f
    = match ast.Tag field with
      | Some _ =>
          negb (String.eqb (analyzer.Field.JSONTag f) EmptyString) &&
          negb (Contains (analyzer.Field.JSONTag f) "omitempty")
      | None => true
      end.
Proof.
  unfold analyzer.namedField. cbv zeta.
  destruct (ast.IsExported fieldName); [|done]. simpl. intros [= <-].
  destruct (ast.Tag field) as [tag|]; [|done].
  destruct (String.eqb (analyzer.extractJSONTag tag) EmptyString) eqn:Htag;
    simpl; rewrite ?Htag.
  - apply String.eqb_eq in Htag. by rewrite Htag.
  - by destruct (Contains _ _).
Qed.

(** The fields of a parsed struct.  Each comes from a field of the
    declaration and carries its type string, also as original type, and the
    json tag read off its tag literal; it is either an embedded field, named
    after its type, or one exported name of a named field: private names
    never appear.  A field whose declaration has a tag is required exactly
    when the json tag is not empty and does not mention [omitempty]; a named
    field without any tag is required, an embedded one is not. *)
Theorem parseStruct_field_provenance (a : analyzer.Analyzer) (name : string)
    (structFields : list ast.Field) (doc : option string)
    (f : analyzer.Field.t) :
  f ∈ analyzer.Model.Fields (analyzer.parseStruct a name structFields doc) ->
  exists field,
    field ∈ structFields /\
    analyzer.Field.Type_ f = analyzer.getTypeStringWithArrays (ast.Type_ field) /\
    analyzer.Field.OriginalType f = analyzer.Field.Type_ f /\
    analyzer.Field.Example f = None /\
    analyzer.Field.JSONTag f
      = match ast.Tag field with
        | Some tag => analyzer.extractJSONTag tag
        | None => EmptyString
        end /\
    ((ast.Names field = [] /\
      analyzer.Field.Name f = analyzer.Field.Type_ f) \/
     (analyzer.Field.Name f ∈ ast.Names field /\
      ast.IsExported (analyzer.Field.Name f) = true /\
      analyzer.Field.Description f = analyzer.docText (ast.Doc field))) /\
    analyzer.Field.Required f
      = match ast.Tag field, ast.Names field with
        | None, [] => false
        | None, _ => true
        | Some _, _ =>
            negb (String.eqb (analyzer.Field.JSONTag f) EmptyString) &&
            negb (Contains (analyzer.Field.JSONTag f) "omitempty")
        end.
Proof.
  unfold analyzer.parseStruct. cbn [analyzer.Model.Fields].
  intros Hf. apply list_elem_of_In, in_flat_map in Hf as (field & Hfield & Hf).
  apply list_elem_of_In in Hfield, Hf. exists field. split; [done|].
  unfold analyzer.parseStructField in Hf.
  destruct (ast.Names field) as [|n names] eqn:Hnames.
  - apply list_elem_of_singleton in Hf as ->.
    destruct (embeddedField_shape field) as (Hn & Ht & Ho & He & Hd & Hj & Hr).
    split; [done|]. split; [done|]. split; [done|]. split; [done|].
    split; [by left|]. rewrite Hr, Hj. by destruct (ast.Tag field).
  - apply list_elem_of_omap in Hf as (fieldName & Hin & Hf).
    apply namedField_shape in Hf as (Hx & Hn & Ht & Ho & He & Hd & Hj & Hr).
    split; [done|]. split; [done|]. split; [done|]. split; [done|].
    split; [right; by rewrite Hn|]. rewrite Hr. by destruct (ast.Tag field).
Qed.

Lemma parseStruct_field_provenance_witness :
  exists field,
    field ∈ fixtures.userFields /\
    "string" = analyzer.getTypeStringWithArrays (ast.Type_ field).
Proof.
  destruct (parseStruct_field_provenance fixtures.scanner "User" fixtures.userFields
              None
              (analyzer.Field.mk "Name" "string" "name,omitempty" "string"
                 false EmptyString None))
    as (field & Hin & Htype & _).
  - vm_compute. apply list_elem_of_further, list_elem_of_here.
  - by exists field.
Defined.

Lemma IndexByte_app (value rest : string) (c : ascii) :
  IndexByte value c = None ->
  IndexByte (value +:+ String c rest) c = Some (String.length value).
Proof.
  induction value as [|a value IH]; intros H.
  - rewrite app_nil. simpl. by rewrite Ascii.eqb_refl.
  - rewrite app_cons. simpl in *.
    destruct (Ascii.eqb a c) eqn:Ha; [done|].
    destruct (IndexByte value c) eqn:Hv; [done|]. by rewrite IH.
Qed.

Lemma take_app (value rest : string) :
  take (String.length value) (value +:+ rest) = value.
Proof.
  induction value as [|a value IH]; [by destruct rest|].
  rewrite app_cons. simpl. by rewrite IH.
Qed.

Lemma extractJSONTag_literal (value : string) :
  IndexByte value analyzer.quote = None ->
  analyzer.extractJSONTag (spec.jsonTagLiteral value) = value.
Proof.
  intros Hvalue. unfold analyzer.extractJSONTag, spec.jsonTagLiteral.
  set (rest := value +:+ String analyzer.quote "`").
  assert (Index ("`" +:+ analyzer.jsonKey +:+ rest) analyzer.jsonKey = Some 1)
    as -> by reflexivity.
  change (drop (1 + String.length analyzer.jsonKey)
            ("`" +:+ analyzer.jsonKey +:+ rest)) with rest.
  unfold rest. rewrite IndexByte_app by done. by rewrite take_app.
Qed.

(** A tagged field, from the declaration to the schema: for an exported
    field whose tag literal carries the json value [value] (free of quotes)
    with the name [key] before its first comma, the model parsed from the
    struct has one field with exactly that json tag, and the schema of the
    model has the single property [key], listed as required unless the value
    mentions [omitempty]. *)
Theorem tagged_field_becomes_property (a : analyzer.Analyzer)
    (name fieldName value key : string) (type : ast.Expr)
    (doc structDoc : option string) :
  ast.IsExported fieldName = true ->
  IndexByte value analyzer.quote = None ->
  hd EmptyString (Split value ",") = key ->
  key <> EmptyString -> key <> "-" ->
  let model :=
    analyzer.parseStruct a name
      [ast.mkField [fieldName] type (Some (spec.jsonTagLiteral value)) doc]
      structDoc in
  let f :=
    analyzer.Field.mk fieldName (analyzer.getTypeStringWithArrays type) value
      (analyzer.getTypeStringWithArrays type)
      (negb (Contains value "omitempty")) (analyzer.docText doc) None in
  analyzer.Model.Fields model = [f] /\
  generator.Schema.Properties (generator.generateSchemaFromModel model)
    = {[ key := generator.generateSchemaFromField f ]} /\
  generator.Schema.Required (generator.generateSchemaFromModel model)
    = (if Contains value "omitempty" then [] else [key]).
Proof.
  intros Hexported Hquote Hkey Hne Hdash model f.
  assert (value <> EmptyString) as Hvalue by (intros ->; by subst key).
  assert (value <> "-") as Hskip by (intros ->; by subst key).
  assert (analyzer.Model.Fields model = [f]) as Hfields.
  { unfold model, analyzer.parseStruct, analyzer.parseStructField.
    cbn [analyzer.Model.Fields flat_map ast.Names omap list_omap app].
    unfold analyzer.namedField. rewrite Hexported. cbn [negb ast.Tag ast.Type_
      ast.Doc]. cbv zeta. rewrite extractJSONTag_literal by done.
    apply String.eqb_neq in Hvalue. rewrite Hvalue. cbn [negb].
    unfold f. by destruct (Contains value "omitempty"). }
  split; [done|].
  unfold generator.generateSchemaFromModel. rewrite Hfields.
  cbn [foldl]. unfold generator.addField.
  assert (generator.propertyName f = Some key) as ->.
  { unfold generator.propertyName, f. cbn [analyzer.Field.JSONTag
      analyzer.Field.Name]. cbv zeta.
    apply String.eqb_neq in Hvalue, Hskip, Hne, Hdash.
    by rewrite Hvalue, Hskip, Hkey, Hne, Hdash. }
  cbn [generator.Schema.Properties generator.Schema.Required
       analyzer.Field.Required f]. split.
  - unfold generator.Schema.described. cbn [generator.Schema.Properties].
    apply insert_empty.
  - unfold f. cbn [analyzer.Field.Required].
    by destruct (Contains value "omitempty").
Qed.

Lemma tagged_field_becomes_property_witness :
  generator.Schema.Required
    (generator.generateSchemaFromModel
       (analyzer.parseStruct fixtures.scanner "User"
          [ast.mkField ["ID"] (ast.Ident "int")
             (Some (spec.jsonTagLiteral "id")) None] None))
  = ["id"].
Proof.
  destruct (tagged_field_becomes_property fixtures.scanner "User" "ID" "id"
              "id" (ast.Ident "int") None None)
    as (_ & _ & H); try done.
Defined.

End StructFields.

(** ** Files the scanner cannot read *)

Section ScanFailures.
Import strings.

Lemma walk_fails (a : analyzer.Analyzer) (root : string) (node : FsNode)
    (path : string) :
  spec.holdsAt root node path (FsFile Unparsable) ->
  HasSuffix path ".go" = true -> HasSuffix path "_test.go" = false ->
  forall analysis, exists err, analyzer.walk a root node analysis = inl err.
Proof.
  intros Hat Hgo Htest.
  remember (FsFile Unparsable) as found eqn:Hfound.
  induction Hat as [root node|root entries name child path found Hin _ IH];
    intros analysis.
  - subst node. cbn [analyzer.walk]. unfold analyzer.visitSDK.
    rewrite Hgo, Htest. simpl. eauto.
  - specialize (IH Hfound Hgo Htest). cbn [analyzer.walk].
    destruct (analyzer.visitSDK a root (FsDir entries) analysis)
      as [err|visited]; [eauto|].
    clear analysis. revert visited.
    induction entries as [|[name' child'] entries IHentries]; intros visited.
    + by apply elem_of_nil in Hin.
    + destruct (analyzer.walk a (root +:+ "/" +:+ name') child' visited)
        as [err|walked] eqn:Hwalk; [eauto|].
      apply elem_of_cons in Hin as [[= <- <-]|Hin].
      * destruct (IH visited) as [err Herr]. congruence.
      * by apply IHentries.
Qed.

(** One unreadable source stops the analysis: when the walk below the model
    directory meets a file with a syntax error whose path ends in [.go] and
    not in [_test.go], [parseSDKModels] returns an error, and [Analyze]
    returns it wrapped, without running the route pass. *)
Theorem Analyze_fails_on_unparsable_file (a : analyzer.Analyzer)
    (lstat : string -> option FsNode)
    (parseRoutes : analyzer.Analysis -> error + analyzer.Analysis)
    (node : FsNode) (path : string) :
  lstat (analyzer.projectPath a +:+ "/" +:+ "sdk") = Some node ->
  spec.holdsAt (analyzer.projectPath a +:+ "/" +:+ "sdk") node path
    (FsFile Unparsable) ->
  HasSuffix path ".go" = true -> HasSuffix path "_test.go" = false ->
  exists err,
    analyzer.parseSDKModels a lstat (analyzer.mkAnalysis [] ∅) = inl err /\
    analyzer.Analyze a lstat parseRoutes
    = inl (Errorf "failed to parse SDK models: " err).
Proof.
  intros Hnode Hat Hgo Htest.
  destruct (walk_fails a _ _ _ Hat Hgo Htest (analyzer.mkAnalysis [] ∅))
    as [err Herr].
  exists err. unfold analyzer.Analyze, analyzer.parseSDKModels. cbv zeta.
  rewrite Hnode. by rewrite Herr.
Qed.

Lemma Analyze_fails_on_unparsable_file_witness :
  exists err,
    analyzer.parseSDKModels fixtures.scanner fixtures.brokenTree
      (analyzer.mkAnalysis [] ∅) = inl err /\
    analyzer.Analyze fixtures.scanner fixtures.brokenTree
      (fun analysis => inr analysis)
    = inl (Errorf "failed to parse SDK models: " err).
Proof.
  apply (Analyze_fails_on_unparsable_file fixtures.scanner fixtures.brokenTree
           (fun analysis => inr analysis)
           (FsDir [ ("a.go", FsFile (fixtures.userWith "ID" "int"));
                    ("models", FsDir [("b.go", FsFile Unparsable)]) ])
           "project/sdk/models/b.go").
  - reflexivity.
  - apply spec.holdsAt_entry with "models"
            (FsDir [("b.go", FsFile Unparsable)]).
    + apply list_elem_of_further, list_elem_of_here.
    + apply spec.holdsAt_entry with "b.go" (FsFile Unparsable).
      * apply list_elem_of_here.
      * apply spec.holdsAt_here.
  - reflexivity.
  - reflexivity.
Defined.

End ScanFailures.

(** ** Collection types and references of a field *)

Section FieldKinds.
Import strings generator.

Lemma typeString_pointers (n : nat) (expr : ast.Expr) :
  ReplaceAll (analyzer.getTypeStringWithArrays (spec.pointers n expr)) "*"
    EmptyString
  = ReplaceAll (analyzer.getTypeStringWithArrays expr) "*" EmptyString.
Proof.
  induction n as [|n IH]; [done|]. cbn [spec.pointers].
  cbn [analyzer.getTypeStringWithArrays]. rewrite !app_cons, app_nil.
  simpl. by rewrite app_nil.
Qed.

Lemma typeString_pointers_nonempty (n : nat) (expr : ast.Expr) :
  analyzer.getTypeStringWithArrays expr <> EmptyString ->
  String.eqb (analyzer.getTypeStringWithArrays (spec.pointers n expr))
    EmptyString = false.
Proof.
  intros H. destruct n; [by apply String.eqb_neq|]. reflexivity.
Qed.

(** Collection types, from the type expression to the schema.  A field whose
    declared type is an array, behind any number of pointers, gets an array
    schema with an items schema.  A field whose declared type is a map gets
    an object schema with additional properties, unless the text of the type
    mentions [time.Time], in which case it gets a date-time string schema. *)
Theorem collection_field_schemas (f : analyzer.Field.t) (n : nat) :
  (forall elt,
      analyzer.Field.OriginalType f
      = analyzer.getTypeStringWithArrays (spec.pointers n (ast.ArrayType elt)) ->
      Schema.Type_ (generateSchemaFromField f) = "array" /\
      is_Some (Schema.Items (generateSchemaFromField f))) /\
  (forall key value,
      analyzer.Field.OriginalType f
      = analyzer.getTypeStringWithArrays
          (spec.pointers n (ast.MapType key value)) ->
      if Contains (ReplaceAll (analyzer.Field.OriginalType f) "*" EmptyString)
           "time.Time"
      then Schema.Type_ (generateSchemaFromField f) = "string" /\
           Schema.Format (generateSchemaFromField f) = "date-time"
      else Schema.Type_ (generateSchemaFromField f) = "object" /\
           Schema.AdditionalProperties (generateSchemaFromField f)
           <> NoAdditional).
Proof.
  split.
  - intros elt Htype. unfold generateSchemaFromField. cbv zeta.
    rewrite Htype, typeString_pointers_nonempty by done.
    rewrite typeString_pointers. cbn [analyzer.getTypeStringWithArrays].
    rewrite !app_cons, app_nil. cbn [ReplaceAll].
    change (Ascii.eqb "[" "*") with false. change (Ascii.eqb "]" "*") with false.
    cbv iota. change (HasPrefix (String "[" (String "]" ?s)) "[]") with true.
    cbv iota. split; [done|]. cbn [Schema.Items]. eauto.
  - intros key value Htype. unfold generateSchemaFromField. cbv zeta.
    rewrite Htype, typeString_pointers_nonempty by done.
    rewrite typeString_pointers. cbn [analyzer.getTypeStringWithArrays].
    rewrite !app_cons, app_nil. cbn [ReplaceAll].
    change (Ascii.eqb "m" "*") with false. change (Ascii.eqb "a" "*") with false.
    change (Ascii.eqb "p" "*") with false. change (Ascii.eqb "[" "*") with false.
    cbv iota.
    set (rest := ReplaceAll _ "*" EmptyString).
    change (HasPrefix (String "m" ?s) "[]") with false. cbv iota.
    destruct (Contains (String "m" (String "a" (String "p" (String "[" rest))))
                "time.Time"); [done|].
    change (String.eqb (String "m" ?s) "time.Time") with false.
    change (String.eqb (String "m" ?s) "Time") with false.
    cbn [orb]. cbv iota.
    change (HasPrefix (String "m" (String "a" (String "p" (String "[" rest))))
              "map[") with true.
    cbv iota. split; [done|]. cbn [Schema.AdditionalProperties].
    destruct (existsb _ _); [done|]. by destruct (isCustomType _).
Qed.

Lemma collection_field_schemas_witness :
  Schema.Type_
    (generateSchemaFromField
       (analyzer.Field.mk "Tags" "*[]string" EmptyString "*[]string" true
          EmptyString None)) = "array".
Proof.
  destruct (collection_field_schemas
              (analyzer.Field.mk "Tags" "*[]string" EmptyString "*[]string"
                 true EmptyString None) 1) as [Harray _].
  destruct (Harray (ast.Ident "string") eq_refl) as [Htype _]. exact Htype.
Defined.

(** A field schema is a reference only for a custom type whose name holds
    none of the type words the generator looks for first: the text of the
    type is not an array or a map, mentions neither [time.Time] nor
    [string], [int], [float64], [float32] or [bool], and what is left is a
    custom type, whose cleaned name the reference carries. *)
Theorem generateSchemaFromField_reference (f : analyzer.Field.t) :
  Schema.Ref (generateSchemaFromField f) <> EmptyString ->
  let typeToCheck :=
    if String.eqb (analyzer.Field.OriginalType f) EmptyString
    then analyzer.Field.Type_ f else analyzer.Field.OriginalType f in
  let cleanType := ReplaceAll typeToCheck "*" EmptyString in
  HasPrefix cleanType "[]" = false /\
  HasPrefix cleanType "map[" = false /\
  Forall (fun word => Contains cleanType word = false)
    ["time.Time"; "string"; "int"; "float64"; "float32"; "bool"] /\
  isCustomType (cleanTypeName cleanType) = true /\
  generateSchemaFromField f
  = Schema.mk EmptyString EmptyString ∅ None [] NoAdditional
      (refPrefix +:+ cleanSchemaName (cleanTypeName cleanType))
      (analyzer.Field.Example f) (analyzer.Field.Description f) [] None.
Proof.
  unfold generateSchemaFromField. cbv zeta.
  set (cleanType := ReplaceAll _ "*" EmptyString).
  destruct (HasPrefix cleanType "[]"); [done|].
  destruct (Contains cleanType "time.Time") eqn:Htime; [done|].
  destruct (String.eqb cleanType "time.Time"); [done|].
  destruct (String.eqb cleanType "Time"); [done|]. cbn [orb].
  destruct (HasPrefix cleanType "map["); [done|].
  destruct (existsb _ _); [done|].
  destruct (Contains cleanType "string") eqn:Hstring; [done|].
  destruct (Contains cleanType "int64") eqn:Hint64; [done|].
  destruct (Contains cleanType "int32") eqn:Hint32; [done|].
  destruct (Contains cleanType "int") eqn:Hint; [done|].
  destruct (Contains cleanType "float64") eqn:Hf64; [done|].
  destruct (Contains cleanType "float32") eqn:Hf32; [done|].
  destruct (Contains cleanType "bool") eqn:Hbool; [done|].
  destruct (isCustomType (cleanTypeName cleanType)) eqn:Hcustom; [|done].
  intros _. repeat split; try done.
  repeat constructor; done.
Qed.

Lemma generateSchemaFromField_reference_witness :
  isCustomType (cleanTypeName "User") = true.
Proof.
  apply (generateSchemaFromField_reference
           (analyzer.Field.mk "Owner" "User" EmptyString "User" true
              EmptyString None)).
  vm_compute. discriminate.
Defined.

End FieldKinds.
